(** * AudioStreamer: PCM ingestion, playback scheduling and completion

    A shallow embedding of the [AudioStreamer] class of
    [src/static/js/audio/audio-recorder.js] (second module of the file) and
    the properties of its ingestion, scheduling, completion and recognition
    paths.  Behind it come the other parts of the program: the streamer's
    [addWorklet], the [AudioRecorder] class of the same file, and the
    server's relay and static files ([src/index.js]).

    Conventions of the embedding.
    - JavaScript numbers that hold times (seconds, milliseconds) and sample
      values are exact rationals [Q].  A sample is [int16 / 32768], which a
      32-bit float holds exactly, so the embedding of samples loses nothing;
      for times the rounding of double arithmetic is left out.
    - A [Float32Array] is a list of samples, a [Uint8Array] a list of bytes.
      The chunk handed to [addPCM16] is a view of its whole buffer (as
      [new Uint8Array(arrayBuffer)] gives), so [new DataView(chunk.buffer)]
      reads the very bytes of the chunk.
    - Objects shared by reference (the [AudioBufferSourceNode]s, whose
      [onended] property is rewritten after creation) live in a store indexed
      by creation order; a reference is an index.
    - [this.context.currentTime] is constant during one synchronous call and
      non-decreasing between calls; pending [setTimeout] callbacks, source
      end-of-playback notifications and recognizer events are fired by an
      explicit event loop ([dispatch], [step], [run]).
    - An [async] method runs up to its first [await] within the call; the
      part behind the [await] is an event of its own, which comes when the
      awaited promise settles, if it ever does.
    - Web platform calls throw where their specifications say they do and the
      code can reach it: [DataView.getInt16] out of range (RangeError),
      [createBuffer] with zero length or a non-positive rate
      (NotSupportedError), [TypedArray.set] out of range (RangeError).  The
      outcome of the recognition engine's [start] and [stop] is chosen by the
      environment. *)

From Stdlib Require Import ZArith QArith Qminmax Lqa Lia Bool.
From Stdlib.Strings Require Import Byte Ascii.
From stdpp Require Import base list strings gmap.

(** ** Data *)

Inductive exn : Type :=
| RangeError
| NotSupportedError
| InvalidStateError
| TypeError.

Abbreviation Uint8Array := (list byte) (only parsing).
Abbreviation Float32Array := (list Q) (only parsing).

Definition byteZ (b : byte) : Z := Z.of_N (Byte.to_N b).

(** Two's complement reading of an unsigned 16-bit value. *)
Definition toInt16 (u : Z) : Z :=
  if (u <? 32768)%Z then u else (u - 65536)%Z.

(** [dataView.getInt16(byteOffset, true)]: little-endian, RangeError when the
    two bytes do not lie inside the view. *)
Definition getInt16 (view : Uint8Array) (byteOffset : nat) : exn + Z :=
  match view !! byteOffset, view !! S byteOffset with
  | Some lo, Some hi => inr (toInt16 (Z.lor (byteZ lo) (Z.shiftl (byteZ hi) 8)))
  | _, _ => inl RangeError
  end.

(** [int16 / 32768]. *)
Definition normalize (int16 : Z) : Q := inject_Z int16 / 32768.

(** The conversion loop of [addPCM16] (source lines 407-414):
    [for (let i = 0; i < chunk.length / 2; i++) { try { ... } catch (e) { ... } }].
    [i < chunk.length / 2] on JavaScript numbers is [2 * i < chunk.length].
    A write past the end of a typed array does nothing, as stdpp's list
    insert.  [None] when the fuel runs out before the loop test fails. *)
Fixpoint convertLoop (fuel : nat) (chunk : Uint8Array) (i : nat)
    (float32Array : Float32Array) : option Float32Array :=
  if (2 * i <? length chunk)%nat then
    match fuel with
    | O => None
    | S fuel' =>
        match getInt16 chunk (i * 2) with
        | inr int16 =>
            convertLoop fuel' chunk (S i) (<[i := normalize int16]> float32Array)
        | inl _ => (* catch (e) { console.error(e); } *)
            convertLoop fuel' chunk (S i) float32Array
        end
    end
  else Some float32Array.

(** [new Float32Array(chunk.length / 2)] truncates a fractional length
    (ToIndex) and is zero-filled. *)
Definition convert (chunk : Uint8Array) : option Float32Array :=
  convertLoop (S (length chunk)) chunk 0 (replicate (length chunk / 2) 0%Q).

(** [target.set(source, offset)] of a typed array. *)
Definition typedArraySet (target source : Float32Array) (offset : nat)
    : exn + Float32Array :=
  if (offset + length source <=? length target)%nat then
    inr (take offset target ++ source ++ drop (offset + length source) target)
  else inl RangeError.

(** Automation events scheduled on the [gain] parameter of a gain node. *)
Inductive GainEvent : Type :=
| SetValueAtTime (value time : Q)
| LinearRampToValueAtTime (value time : Q).

Inductive ContextState : Type := suspended | running | closed.

(** An [AudioBufferSourceNode] made by [scheduleNextBuffer]: its buffer, the
    buffer's duration, the time it was started at, whether the
    end-of-queue closure (source lines 471-476) is its [onended] handler, and
    whether its playback has ended. *)
Record SourceNode : Type := mkSourceNode {
  nodeBuffer : Float32Array;
  nodeDuration : Q;
  nodeStartTime : Q;
  onended : bool;
  ended : bool
}.

(** The three closures the class hands to [setTimeout]. *)
Inductive TimerCallback : Type :=
| ScheduleNextBufferCallback   (* () => this.scheduleNextBuffer() *)
| RestartRecognitionCallback   (* the closure of restartRecognition *)
| SwapGainCallback.            (* the closure of stop *)

(** A pending timer: callback, delay in milliseconds, time of the call. *)
Record Timer : Type := mkTimer {
  timerCallback : TimerCallback;
  timerDelay : Q;
  timerSetAt : Q
}.

(** Calls made on the recognition engine, with the value of
    [isRecognitionActive] at the time of a [start] call. *)
Inductive RecognizerCall : Type :=
| RecognizerStart (activeAtCall : bool)
| RecognizerStop.

(** The fields of [AudioStreamer] the methods read or write, then the part of
    the environment they act on: the context's clock, state and source
    nodes, the window's pending timers, and what the owner and the engine
    observe (calls of [onComplete], calls on the engine).  [speechRecognizer]
    is [true] when the field holds an engine, [false] when it is null.
    [checkInterval] stays null and [processor] only adds a second output
    connection; neither is kept. *)
Record AudioStreamer : Type := mkAudioStreamer {
  audioQueue : list Float32Array;
  isPlaying : bool;
  sampleRate : Q;
  bufferSize : nat;
  processingBuffer : Float32Array;
  scheduledTime : Q;
  gainNode : list GainEvent;
  isStreamComplete : bool;
  initialBufferTime : Q;
  endOfQueueAudioSource : option nat;
  speechRecognizer : bool;
  isRecognitionActive : bool;
  currentTime : Q;
  contextState : ContextState;
  sourceNodes : list SourceNode;
  timers : list Timer;
  onCompleteCalls : nat;
  recognizerCalls : list RecognizerCall;
  pendingResumes : nat
}.

(** Assignments to one field, [this.field = v]. *)

Definition set_audioQueue (v : list Float32Array) (st : AudioStreamer)
    : AudioStreamer :=
  mkAudioStreamer v (isPlaying st) (sampleRate st) (bufferSize st)
    (processingBuffer st) (scheduledTime st) (gainNode st)
    (isStreamComplete st) (initialBufferTime st) (endOfQueueAudioSource st)
    (speechRecognizer st) (isRecognitionActive st) (currentTime st)
    (contextState st) (sourceNodes st) (timers st) (onCompleteCalls st)
    (recognizerCalls st) (pendingResumes st).

Definition set_isPlaying (v : bool) (st : AudioStreamer)
    : AudioStreamer :=
  mkAudioStreamer (audioQueue st) v (sampleRate st) (bufferSize st)
    (processingBuffer st) (scheduledTime st) (gainNode st)
    (isStreamComplete st) (initialBufferTime st) (endOfQueueAudioSource st)
    (speechRecognizer st) (isRecognitionActive st) (currentTime st)
    (contextState st) (sourceNodes st) (timers st) (onCompleteCalls st)
    (recognizerCalls st) (pendingResumes st).

Definition set_bufferSize (v : nat) (st : AudioStreamer)
    : AudioStreamer :=
  mkAudioStreamer (audioQueue st) (isPlaying st) (sampleRate st) v
    (processingBuffer st) (scheduledTime st) (gainNode st)
    (isStreamComplete st) (initialBufferTime st) (endOfQueueAudioSource st)
    (speechRecognizer st) (isRecognitionActive st) (currentTime st)
    (contextState st) (sourceNodes st) (timers st) (onCompleteCalls st)
    (recognizerCalls st) (pendingResumes st).

Definition set_processingBuffer (v : Float32Array) (st : AudioStreamer)
    : AudioStreamer :=
  mkAudioStreamer (audioQueue st) (isPlaying st) (sampleRate st)
    (bufferSize st) v (scheduledTime st) (gainNode st) (isStreamComplete st)
    (initialBufferTime st) (endOfQueueAudioSource st) (speechRecognizer st)
    (isRecognitionActive st) (currentTime st) (contextState st)
    (sourceNodes st) (timers st) (onCompleteCalls st) (recognizerCalls st) (pendingResumes st).

Definition set_scheduledTime (v : Q) (st : AudioStreamer)
    : AudioStreamer :=
  mkAudioStreamer (audioQueue st) (isPlaying st) (sampleRate st)
    (bufferSize st) (processingBuffer st) v (gainNode st)
    (isStreamComplete st) (initialBufferTime st) (endOfQueueAudioSource st)
    (speechRecognizer st) (isRecognitionActive st) (currentTime st)
    (contextState st) (sourceNodes st) (timers st) (onCompleteCalls st)
    (recognizerCalls st) (pendingResumes st).

Definition set_gainNode (v : list GainEvent) (st : AudioStreamer)
    : AudioStreamer :=
  mkAudioStreamer (audioQueue st) (isPlaying st) (sampleRate st)
    (bufferSize st) (processingBuffer st) (scheduledTime st) v
    (isStreamComplete st) (initialBufferTime st) (endOfQueueAudioSource st)
    (speechRecognizer st) (isRecognitionActive st) (currentTime st)
    (contextState st) (sourceNodes st) (timers st) (onCompleteCalls st)
    (recognizerCalls st) (pendingResumes st).

Definition set_isStreamComplete (v : bool) (st : AudioStreamer)
    : AudioStreamer :=
  mkAudioStreamer (audioQueue st) (isPlaying st) (sampleRate st)
    (bufferSize st) (processingBuffer st) (scheduledTime st) (gainNode st) v
    (initialBufferTime st) (endOfQueueAudioSource st) (speechRecognizer st)
    (isRecognitionActive st) (currentTime st) (contextState st)
    (sourceNodes st) (timers st) (onCompleteCalls st) (recognizerCalls st) (pendingResumes st).

Definition set_endOfQueueAudioSource (v : option nat) (st : AudioStreamer)
    : AudioStreamer :=
  mkAudioStreamer (audioQueue st) (isPlaying st) (sampleRate st)
    (bufferSize st) (processingBuffer st) (scheduledTime st) (gainNode st)
    (isStreamComplete st) (initialBufferTime st) v (speechRecognizer st)
    (isRecognitionActive st) (currentTime st) (contextState st)
    (sourceNodes st) (timers st) (onCompleteCalls st) (recognizerCalls st) (pendingResumes st).

Definition set_isRecognitionActive (v : bool) (st : AudioStreamer)
    : AudioStreamer :=
  mkAudioStreamer (audioQueue st) (isPlaying st) (sampleRate st)
    (bufferSize st) (processingBuffer st) (scheduledTime st) (gainNode st)
    (isStreamComplete st) (initialBufferTime st) (endOfQueueAudioSource st)
    (speechRecognizer st) v (currentTime st) (contextState st)
    (sourceNodes st) (timers st) (onCompleteCalls st) (recognizerCalls st) (pendingResumes st).

Definition set_currentTime (v : Q) (st : AudioStreamer)
    : AudioStreamer :=
  mkAudioStreamer (audioQueue st) (isPlaying st) (sampleRate st)
    (bufferSize st) (processingBuffer st) (scheduledTime st) (gainNode st)
    (isStreamComplete st) (initialBufferTime st) (endOfQueueAudioSource st)
    (speechRecognizer st) (isRecognitionActive st) v (contextState st)
    (sourceNodes st) (timers st) (onCompleteCalls st) (recognizerCalls st) (pendingResumes st).

Definition set_contextState (v : ContextState) (st : AudioStreamer)
    : AudioStreamer :=
  mkAudioStreamer (audioQueue st) (isPlaying st) (sampleRate st)
    (bufferSize st) (processingBuffer st) (scheduledTime st) (gainNode st)
    (isStreamComplete st) (initialBufferTime st) (endOfQueueAudioSource st)
    (speechRecognizer st) (isRecognitionActive st) (currentTime st) v
    (sourceNodes st) (timers st) (onCompleteCalls st) (recognizerCalls st) (pendingResumes st).

Definition set_sourceNodes (v : list SourceNode) (st : AudioStreamer)
    : AudioStreamer :=
  mkAudioStreamer (audioQueue st) (isPlaying st) (sampleRate st)
    (bufferSize st) (processingBuffer st) (scheduledTime st) (gainNode st)
    (isStreamComplete st) (initialBufferTime st) (endOfQueueAudioSource st)
    (speechRecognizer st) (isRecognitionActive st) (currentTime st)
    (contextState st) v (timers st) (onCompleteCalls st) (recognizerCalls st) (pendingResumes st).

Definition set_timers (v : list Timer) (st : AudioStreamer)
    : AudioStreamer :=
  mkAudioStreamer (audioQueue st) (isPlaying st) (sampleRate st)
    (bufferSize st) (processingBuffer st) (scheduledTime st) (gainNode st)
    (isStreamComplete st) (initialBufferTime st) (endOfQueueAudioSource st)
    (speechRecognizer st) (isRecognitionActive st) (currentTime st)
    (contextState st) (sourceNodes st) v (onCompleteCalls st)
    (recognizerCalls st) (pendingResumes st).

Definition set_onCompleteCalls (v : nat) (st : AudioStreamer)
    : AudioStreamer :=
  mkAudioStreamer (audioQueue st) (isPlaying st) (sampleRate st)
    (bufferSize st) (processingBuffer st) (scheduledTime st) (gainNode st)
    (isStreamComplete st) (initialBufferTime st) (endOfQueueAudioSource st)
    (speechRecognizer st) (isRecognitionActive st) (currentTime st)
    (contextState st) (sourceNodes st) (timers st) v (recognizerCalls st)
    (pendingResumes st).

Definition set_recognizerCalls (v : list RecognizerCall) (st : AudioStreamer)
    : AudioStreamer :=
  mkAudioStreamer (audioQueue st) (isPlaying st) (sampleRate st)
    (bufferSize st) (processingBuffer st) (scheduledTime st) (gainNode st)
    (isStreamComplete st) (initialBufferTime st) (endOfQueueAudioSource st)
    (speechRecognizer st) (isRecognitionActive st) (currentTime st)
    (contextState st) (sourceNodes st) (timers st) (onCompleteCalls st) v
    (pendingResumes st).

Definition set_pendingResumes (v : nat) (st : AudioStreamer)
    : AudioStreamer :=
  mkAudioStreamer (audioQueue st) (isPlaying st) (sampleRate st)
    (bufferSize st) (processingBuffer st) (scheduledTime st) (gainNode st)
    (isStreamComplete st) (initialBufferTime st) (endOfQueueAudioSource st)
    (speechRecognizer st) (isRecognitionActive st) (currentTime st)
    (contextState st) (sourceNodes st) (timers st) (onCompleteCalls st)
    (recognizerCalls st) v.

(** ** Outcome of a call *)

(** A method returns, or throws out of the call with the object as the
    statements before the throw left it, or runs a loop without end. *)
Inductive result : Type :=
| Returns (st : AudioStreamer)
| Throws (e : exn) (st : AudioStreamer)
| Spins.

Definition Qlt_bool (x y : Q) : bool := negb (Qle_bool y x).

(** ** Helpers of the environment *)

(** [this.onComplete()]: the owner's callback, counted. *)
Definition onComplete (st : AudioStreamer) : AudioStreamer :=
  set_onCompleteCalls (S (onCompleteCalls st)) st.

(** [setTimeout(callback, delay)]. *)
Definition setTimeout (callback : TimerCallback) (delay : Q)
    (st : AudioStreamer) : AudioStreamer :=
  set_timers (timers st ++ [mkTimer callback delay (currentTime st)]) st.

Definition logRecognizerCall (c : RecognizerCall) (st : AudioStreamer)
    : AudioStreamer :=
  set_recognizerCalls (recognizerCalls st ++ [c]) st.

(** ** constructor (source lines 227-250) *)

#[local] Set Warnings "-abstract-large-number".

Definition constructor (outputSampleRate : Q) (recognitionSupported : bool)
    (state : ContextState) (time : Q) : AudioStreamer :=
  {| audioQueue := [];
     isPlaying := false;
     sampleRate := outputSampleRate;
     bufferSize := 7680;
     processingBuffer := [];
     scheduledTime := 0%Q;
     gainNode := [];
     isStreamComplete := false;
     initialBufferTime := 0.1%Q;
     endOfQueueAudioSource := None;
     speechRecognizer := recognitionSupported;
     isRecognitionActive := false;
     currentTime := time;
     contextState := state;
     sourceNodes := [];
     timers := [];
     onCompleteCalls := 0;
     recognizerCalls := [];
     pendingResumes := 0 |}.

(** ** restartRecognition and the recognizer's handlers (lines 277-320) *)

Definition restartRecognition (st : AudioStreamer) : AudioStreamer :=
  if isRecognitionActive st then st
  else setTimeout RestartRecognitionCallback 100 st.

(** The closure handed to [setTimeout] by [restartRecognition]; it runs
    outside the [try] of its creator, so a throwing [start] escapes. *)
Definition restartRecognitionCallback (startOk : bool) (st : AudioStreamer)
    : result :=
  if negb (isRecognitionActive st) then
    if speechRecognizer st then
      let st := logRecognizerCall (RecognizerStart (isRecognitionActive st)) st in
      if startOk then Returns (set_isRecognitionActive true st)
      else Throws InvalidStateError st
    else Throws TypeError st
  else Returns st.

Definition onerror (noSpeech : bool) (st : AudioStreamer) : AudioStreamer :=
  let st := if noSpeech then restartRecognition st else st in
  set_isRecognitionActive false st.

Definition onend (st : AudioStreamer) : AudioStreamer :=
  let st := set_isRecognitionActive false st in
  if isPlaying st && negb (isStreamComplete st) then restartRecognition st
  else st.

(** ** createAudioBuffer (lines 441-445) *)

Definition createAudioBuffer (st : AudioStreamer) (audioData : Float32Array)
    : exn + (Float32Array * Q) :=
  if (length audioData =? 0)%nat || negb (Qlt_bool 0%Q (sampleRate st)) then
    inl NotSupportedError
  else inr (audioData, (inject_Z (Z.of_nat (length audioData)) / sampleRate st)%Q).

(** ** scheduleNextBuffer (lines 451-505) *)

Definition SCHEDULE_AHEAD_TIME : Q := 0.2%Q.

Definition disarm (n : SourceNode) : SourceNode :=
  mkSourceNode (nodeBuffer n) (nodeDuration n) (nodeStartTime n) false (ended n).

(** Lines 466-477: the source that empties the queue becomes the
    end-of-queue source, and the previous one loses its handler. *)
Definition trackEndOfQueue (source : nat) (st : AudioStreamer) : AudioStreamer :=
  let st :=
    match endOfQueueAudioSource st with
    | Some previous => set_sourceNodes (alter disarm previous (sourceNodes st)) st
    | None => st
    end in
  set_endOfQueueAudioSource (Some source) st.

(** The [while] loop of lines 461-494.  Every turn shifts one frame off the
    queue, so the recursion is on the queue, passed along with the object
    whose [audioQueue] it is. *)
Fixpoint scheduleWhile (queue : list Float32Array) (st : AudioStreamer)
    : result :=
  match queue with
  | [] => Returns st
  | audioData :: rest =>
      if Qlt_bool (scheduledTime st) (currentTime st + SCHEDULE_AHEAD_TIME)%Q then
        let st := set_audioQueue rest st in
        match createAudioBuffer st audioData with
        | inl e => Throws e st
        | inr (data, duration) =>
            let source := length (sourceNodes st) in
            let last := (length (audioQueue st) =? 0)%nat in
            let st := if last then trackEndOfQueue source st else st in
            let startTime := Qmax (scheduledTime st) (currentTime st) in
            let node := mkSourceNode data duration startTime last false in
            let st := set_sourceNodes (sourceNodes st ++ [node]) st in
            scheduleWhile rest (set_scheduledTime (startTime + duration)%Q st)
        end
      else Returns st
  end.

(** Lines 496-504: stop when all is played out and the stream is complete,
    else come back later. *)
Definition finishOrRearm (st : AudioStreamer) : AudioStreamer :=
  if (length (audioQueue st) =? 0)%nat
     && (length (processingBuffer st) =? 0)%nat then
    if isStreamComplete st then set_isPlaying false st else st
  else
    let nextCheckTime := ((scheduledTime st - currentTime st) * 1000)%Q in
    setTimeout ScheduleNextBufferCallback (Qmax 0 (nextCheckTime - 50)%Q) st.

Definition scheduleNextBuffer (st : AudioStreamer) : result :=
  match scheduleWhile (audioQueue st) st with
  | Returns st => Returns (finishOrRearm st)
  | r => r
  end.

(** The [onended] closure of lines 471-476, for the source it was made for. *)
Definition onendedHandler (source : nat) (st : AudioStreamer) : AudioStreamer :=
  if (length (audioQueue st) =? 0)%nat
     && bool_decide (endOfQueueAudioSource st = Some source) then
    onComplete (set_endOfQueueAudioSource None st)
  else st.

(** ** addPCM16 (lines 388-433) *)

(** Lines 392-402: the engine is started when there is one and the flag is
    down; a throwing [start] is caught and leaves the flag down. *)
Definition startRecognitionForStream (startOk : bool) (st : AudioStreamer)
    : AudioStreamer :=
  if speechRecognizer st && negb (isRecognitionActive st) then
    let st := logRecognizerCall (RecognizerStart (isRecognitionActive st)) st in
    if startOk then set_isRecognitionActive true st
    else set_isRecognitionActive false st
  else st.

(** Lines 421-425.  [None] when the fuel runs out before the loop test
    fails. *)
Fixpoint rechunkLoop (fuel : nat) (st : AudioStreamer) : option AudioStreamer :=
  if (bufferSize st <=? length (processingBuffer st))%nat then
    match fuel with
    | O => None
    | S fuel' =>
        let buffer := take (bufferSize st) (processingBuffer st) in
        let st := set_audioQueue (audioQueue st ++ [buffer]) st in
        rechunkLoop fuel'
          (set_processingBuffer (drop (bufferSize st) (processingBuffer st)) st)
    end
  else Some st.

(** Lines 416-419. *)
Definition appendToProcessingBuffer (float32Array : Float32Array)
    (st : AudioStreamer) : result :=
  let newBuffer :=
    replicate (length (processingBuffer st) + length float32Array) 0%Q in
  match typedArraySet newBuffer (processingBuffer st) 0 with
  | inl e => Throws e st
  | inr newBuffer =>
      match typedArraySet newBuffer float32Array (length (processingBuffer st)) with
      | inl e => Throws e st
      | inr newBuffer => Returns (set_processingBuffer newBuffer st)
      end
  end.

(** Lines 404-433: conversion, accumulation, re-chunking, and the first
    scheduling pass when playback has not begun. *)
Definition enqueuePCM16 (chunk : Uint8Array) (st : AudioStreamer) : result :=
  match convert chunk with
  | None => Spins
  | Some float32Array =>
      match appendToProcessingBuffer float32Array st with
      | Returns st =>
          match rechunkLoop (S (length (processingBuffer st))) st with
          | None => Spins
          | Some st =>
              if negb (isPlaying st) then
                let st := set_isPlaying true st in
                let st :=
                  set_scheduledTime (currentTime st + initialBufferTime st)%Q st in
                scheduleNextBuffer st
              else Returns st
          end
      | r => r
      end
  end.

Definition addPCM16 (chunk : Uint8Array) (startOk : bool) (st : AudioStreamer)
    : result :=
  enqueuePCM16 chunk (startRecognitionForStream startOk st).

(** ** stop (lines 511-541) *)

Definition stop (stopOk : bool) (st : AudioStreamer) : result :=
  let st := set_isPlaying false st in
  let st := set_isStreamComplete true st in
  let st := set_audioQueue [] st in
  let st := set_processingBuffer [] st in
  let st := set_scheduledTime (currentTime st) st in
  let st :=
    set_gainNode
      (gainNode st ++ [LinearRampToValueAtTime 0 (currentTime st + 0.1)%Q]) st in
  let st := setTimeout SwapGainCallback 200 st in
  if speechRecognizer st && isRecognitionActive st then
    let st := logRecognizerCall RecognizerStop st in
    if stopOk then Returns (set_isRecognitionActive false st)
    else (* catch (error) { Logger.error(...) } *) Returns st
  else Returns st.

(** The closure of lines 525-529: a fresh gain node. *)
Definition swapGainCallback (st : AudioStreamer) : AudioStreamer :=
  set_gainNode [] st.

(** ** resume (lines 548-555) *)

(** Lines 552-554, the part behind the [await]. *)
Definition resumeReset (st : AudioStreamer) : AudioStreamer :=
  let st := set_isStreamComplete false st in
  let st := set_scheduledTime (currentTime st + initialBufferTime st)%Q st in
  set_gainNode (gainNode st ++ [SetValueAtTime 1 (currentTime st)]) st.

(** The call.  [resume] is [async]: on a suspended context it asks the
    context to resume and stops at the [await], with nothing assigned yet
    (one more call waits); on any other context it runs to its end at
    once. *)
Definition resume (st : AudioStreamer) : result :=
  match contextState st with
  | suspended => Returns (set_pendingResumes (S (pendingResumes st)) st)
  | _ => Returns (resumeReset st)
  end.

(** The promise of [context.resume()] settles, which it may never do.
    Fulfilled, the context runs and the call goes on behind the [await], at
    the clock of that moment; rejected, the call ends at the [await], its own
    promise is rejected and nothing is assigned. *)
Definition resumeSettled (fulfilled : bool) (st : AudioStreamer) : result :=
  let st := set_pendingResumes (pred (pendingResumes st)) st in
  if fulfilled then Returns (resumeReset (set_contextState running st))
  else Throws InvalidStateError st.

(** ** complete (lines 561-574) *)

Definition complete (st : AudioStreamer) : result :=
  let st := set_isStreamComplete true st in
  if (0 <? length (processingBuffer st))%nat then
    let st := set_audioQueue (audioQueue st ++ [processingBuffer st]) st in
    let st := set_processingBuffer [] st in
    if isPlaying st then scheduleNextBuffer st else Returns st
  else Returns (onComplete st).

(** ** The event loop *)

Inductive event : Type :=
| AddPCM16 (chunk : Uint8Array) (startOk : bool)
| Complete
| Stop (stopOk : bool)
| Resume
| Timeout (i : nat) (startOk : bool)   (* the i-th pending timer fires *)
| Ended (source : nat)                  (* a source's playback ends *)
| RecognitionError (noSpeech : bool)
| RecognitionEnd
| ResumeSettled (fulfilled : bool).    (* a [resume] leaves its [await] *)

(** After a call the object lives on, also when the call threw. *)
Definition settle (r : result) : option AudioStreamer :=
  match r with
  | Returns st => Some st
  | Throws _ st => Some st
  | Spins => None
  end.

Definition runTimer (callback : TimerCallback) (startOk : bool)
    (st : AudioStreamer) : result :=
  match callback with
  | ScheduleNextBufferCallback => scheduleNextBuffer st
  | RestartRecognitionCallback => restartRecognitionCallback startOk st
  | SwapGainCallback => Returns (swapGainCallback st)
  end.

Definition markEnded (n : SourceNode) : SourceNode :=
  mkSourceNode (nodeBuffer n) (nodeDuration n) (nodeStartTime n) (onended n) true.

(** One event on the object, the clock already read.  A timer fires no
    earlier than its delay after it was set; a source ends once, no earlier
    than the end of its buffer; recognizer events need a recognizer; the
    promise of [context.resume()] settles for a [resume] that waits for it.
    [None] when the event cannot happen. *)
Definition dispatch (ev : event) (st : AudioStreamer) : option AudioStreamer :=
  match ev with
  | AddPCM16 chunk startOk => settle (addPCM16 chunk startOk st)
  | Complete => settle (complete st)
  | Stop stopOk => settle (stop stopOk st)
  | Resume => settle (resume st)
  | Timeout i startOk =>
      match timers st !! i with
      | Some t =>
          if Qle_bool (timerSetAt t + timerDelay t / 1000)%Q (currentTime st) then
            settle (runTimer (timerCallback t) startOk
                      (set_timers (delete i (timers st)) st))
          else None
      | None => None
      end
  | Ended source =>
      match sourceNodes st !! source with
      | Some n =>
          if negb (ended n)
             && Qle_bool (nodeStartTime n + nodeDuration n)%Q (currentTime st) then
            let st := set_sourceNodes (alter markEnded source (sourceNodes st)) st in
            Some (if onended n then onendedHandler source st else st)
          else None
      | None => None
      end
  | RecognitionError noSpeech =>
      if speechRecognizer st then Some (onerror noSpeech st) else None
  | RecognitionEnd =>
      if speechRecognizer st then Some (onend st) else None
  | ResumeSettled fulfilled =>
      if (0 <? pendingResumes st)%nat
      then settle (resumeSettled fulfilled st) else None
  end.

(** One event at clock reading [now]; the clock does not run backwards. *)
Definition step (now : Q) (ev : event) (st : AudioStreamer)
    : option AudioStreamer :=
  if Qle_bool (currentTime st) now then dispatch ev (set_currentTime now st)
  else None.

Fixpoint run (trace : list (Q * event)) (st : AudioStreamer)
    : option AudioStreamer :=
  match trace with
  | [] => Some st
  | (now, ev) :: trace' =>
      match step now ev st with
      | Some st' => run trace' st'
      | None => None
      end
  end.

(** ** What the claims speak of *)

(** The samples a chunk encodes: every pair of bytes, low byte first, read as
    a signed 16-bit integer; a trailing odd byte encodes nothing. *)
Fixpoint pcm16Ints (chunk : Uint8Array) : list Z :=
  match chunk with
  | lo :: hi :: rest => toInt16 (byteZ lo + 256 * byteZ hi) :: pcm16Ints rest
  | _ => []
  end.

Definition pcm16Samples (chunk : Uint8Array) : Float32Array :=
  normalize <$> pcm16Ints chunk.

(** [slices B k l]: the first [k] consecutive blocks of [B] elements of [l]. *)
Fixpoint slices {A : Type} (B k : nat) (l : list A) : list (list A) :=
  match k with
  | O => []
  | S k' => take B l :: slices B k' (drop B l)
  end.

(** The frames handed to the audio output so far, then those still queued. *)
Definition frames (st : AudioStreamer) : list Float32Array :=
  (nodeBuffer <$> sourceNodes st) ++ audioQueue st.

(** Every sample the session holds or has played, in playback order. *)
Definition heard (st : AudioStreamer) : Float32Array :=
  concat (frames st) ++ processingBuffer st.

(** The sources made after [st] on the way to [st']. *)
Definition startedBetween (st st' : AudioStreamer) : list SourceNode :=
  drop (length (sourceNodes st)) (sourceNodes st').

(** What holds of every object the constructor and the methods produce, and
    what [createBuffer] needs. *)
Definition wf (st : AudioStreamer) : Prop :=
  (0 < bufferSize st)%nat ∧ (0 < sampleRate st)%Q
  ∧ Forall (λ frame, frame ≠ []) (audioQueue st).

(** What the audio output gets of a source: its buffer, when it starts and
    for how long it plays.  Disarming a handler or the end of playback leave
    it as it is. *)
Definition playback (n : SourceNode) : list Q * Q * Q :=
  (nodeBuffer n, nodeStartTime n, nodeDuration n).

(** [audioBuffer.duration] of a frame at a sample rate. *)
Definition frameDuration (rate : Q) (frame : Float32Array) : Q :=
  (inject_Z (Z.of_nat (length frame)) / rate)%Q.

(** A run of sources started one after the other by one pass at clock
    reading [now], from scheduled time [t] to scheduled time [tEnd]: each is
    dequeued while the scheduled time is inside the look-ahead window, starts
    at the later of the scheduled time and the clock, and moves the scheduled
    time to its own end. *)
Fixpoint chained (rate now t : Q) (started : list (list Q * Q * Q)) (tEnd : Q)
    : Prop :=
  match started with
  | [] => tEnd = t
  | (frame, startTime, duration) :: rest =>
      (t < now + SCHEDULE_AHEAD_TIME)%Q
      ∧ startTime = Qmax t now
      ∧ duration = frameDuration rate frame
      ∧ chained rate now (startTime + duration)%Q rest tEnd
  end.

(** [st'] differs from [st] at most in the fields the scheduling loop
    writes. *)
Definition onlyScheduling (st st' : AudioStreamer) : Prop :=
  st' = set_audioQueue (audioQueue st')
          (set_scheduledTime (scheduledTime st')
             (set_endOfQueueAudioSource (endOfQueueAudioSource st')
                (set_sourceNodes (sourceNodes st') st))).

(** The sources of [st] are still there in [st'], with the same playback,
    and any further ones come behind them. *)
Definition keepsSources (st st' : AudioStreamer) : Prop :=
  ∃ sched, playback <$> sourceNodes st' = (playback <$> sourceNodes st) ++ sched.

(** The samples an event brings in. *)
Definition ingestedBy (ev : event) : list Q :=
  match ev with
  | AddPCM16 chunk _ => pcm16Samples chunk
  | _ => []
  end.

(** The samples a trace brings in, in arrival order. *)
Fixpoint ingested (trace : list (Q * event)) : list Q :=
  match trace with
  | [] => []
  | (_, ev) :: trace' => ingestedBy ev ++ ingested trace'
  end.

Definition isStop (ev : event) : bool :=
  match ev with
  | Stop _ => true
  | _ => false
  end.

Definition noStop (trace : list (Q * event)) : Prop :=
  Forall (λ timed, isStop timed.2 = false) trace.

(** No call of the engine's [start] was made with the flag up. *)
Definition guardedStarts (st : AudioStreamer) : Prop :=
  Forall (λ call, call ≠ RecognizerStart true) (recognizerCalls st).

(** The number of [start] calls made on the engine. *)
Fixpoint countStarts (calls : list RecognizerCall) : nat :=
  match calls with
  | [] => 0
  | RecognizerStart _ :: calls' => S (countStarts calls')
  | RecognizerStop :: calls' => countStarts calls'
  end.

Definition startCalls (st : AudioStreamer) : nat :=
  countStarts (recognizerCalls st).

(** [st'] holds and plays the very samples of [st]. *)
Definition sameSound (st st' : AudioStreamer) : Prop :=
  audioQueue st' = audioQueue st
  ∧ processingBuffer st' = processingBuffer st
  ∧ playback <$> sourceNodes st' = playback <$> sourceNodes st
  ∧ bufferSize st' = bufferSize st
  ∧ sampleRate st' = sampleRate st.

(** [st'] differs from [st] at most in the fields of playback: queue,
    accumulation buffer, scheduled time, end-of-queue source, sources,
    [isPlaying] and timers. *)
Definition onlyPlayback (st st' : AudioStreamer) : Prop :=
  st' = set_audioQueue (audioQueue st')
          (set_processingBuffer (processingBuffer st')
             (set_scheduledTime (scheduledTime st')
                (set_endOfQueueAudioSource (endOfQueueAudioSource st')
                   (set_sourceNodes (sourceNodes st')
                      (set_isPlaying (isPlaying st')
                         (set_timers (timers st') st)))))).

Definition isCompleteOrStop (ev : event) : bool :=
  match ev with
  | Complete | Stop _ => true
  | _ => false
  end.

Definition noCompleteNoStop (trace : list (Q * event)) : Prop :=
  Forall (λ timed, isCompleteOrStop timed.2 = false) trace.

(** One step on a well-formed object: the object stays well-formed, the
    samples of the event come behind those already there, and the frames
    already there stay in front, in their order. *)
Definition soundStep (ev : event) (st st' : AudioStreamer) : Prop :=
  wf st'
  ∧ (isStop ev = false →
     heard st' = heard st ++ ingestedBy ev ∧ frames st `prefix_of` frames st').

(** What one event does to the record of engine calls: every [start] it adds
    was called with the flag down, and with the flag up before the event it
    adds none. *)
Definition guardedStep (st st' : AudioStreamer) : Prop :=
  (guardedStarts st → guardedStarts st')
  ∧ (isRecognitionActive st = true → startCalls st' = startCalls st).

(** For objects that differ by writes to other fields. *)
Ltac same_sound := unfold sameSound; cbn; repeat split; reflexivity.

(** Closes an equation between closed terms by evaluation. *)
Ltac evaluate := vm_compute; exact eq_refl.


(** ** The samples in the specification's words

    Every pair of bytes, low byte first, is a 16-bit integer in two's
    complement, and the sample is that integer divided by 32768; a trailing
    odd byte gives no sample.  Written without the helpers of the embedding,
    to compare the conversion loop with. *)

Definition signedInt16 (lo hi : byte) : Z :=
  let unsigned := (Z.of_N (Byte.to_N lo) + 256 * Z.of_N (Byte.to_N hi))%Z in
  if (unsigned <? 32768)%Z then unsigned else (unsigned - 65536)%Z.

Fixpoint signedSamples (chunk : Uint8Array) : list Q :=
  match chunk with
  | lo :: hi :: rest =>
      (inject_Z (signedInt16 lo hi) / 32768)%Q :: signedSamples rest
  | _ => []
  end.

(** ** The value of a gain parameter

    The automation events of a parameter lie on a timeline in the order of
    their times, an event whose time is already taken coming behind those
    at that time.  With no ramp ahead, the value at a time is the value of
    the last event at or before it, or the default 1 when there is none;
    towards a ramp ahead it goes linearly from the last event.  A ramp with
    no event before it starts from the value at its call, which the record
    of events does not keep: [None]. *)

Definition eventTime (e : GainEvent) : Q :=
  match e with
  | SetValueAtTime _ time => time
  | LinearRampToValueAtTime _ time => time
  end.


Fixpoint schedule (e : GainEvent) (timeline : list GainEvent)
    : list GainEvent :=
  match timeline with
  | [] => [e]
  | e' :: rest =>
      if Qle_bool (eventTime e') (eventTime e) then e' :: schedule e rest
      else e :: e' :: rest
  end.

Definition timeline (events : list GainEvent) : list GainEvent :=
  foldl (λ scheduled e, schedule e scheduled) [] events.




(** ** Further properties of the streamer: what they speak of *)

(** The accumulation buffer is short of a frame, and every frame, played or
    queued, is non-empty and no longer than [bufferSize]. *)
Definition bounded (st : AudioStreamer) : Prop :=
  (length (processingBuffer st) < bufferSize st)%nat
  ∧ Forall (λ frame, (0 < length frame ≤ bufferSize st)%nat) (frames st).

(** Every frame, played or queued, has exactly [bufferSize] samples. *)
Definition uniform (st : AudioStreamer) : Prop :=
  Forall (λ frame, length frame = bufferSize st) (frames st).

Definition isComplete (ev : event) : bool :=
  match ev with
  | Complete => true
  | _ => false
  end.

Definition noComplete (trace : list (Q * event)) : Prop :=
  Forall (λ timed, isComplete timed.2 = false) trace.

(** Playbacks that follow one another without overlap: the first starts no
    earlier than [after], each next one no earlier than the end of the one
    before, and the last ends no later than [upto]. *)
Fixpoint sequenced (after : Q) (l : list (list Q * Q * Q)) (upto : Q) : Prop :=
  match l with
  | [] => (after <= upto)%Q
  | (_, startTime, duration) :: rest =>
      (after <= startTime)%Q ∧ sequenced (startTime + duration)%Q rest upto
  end.

(** [complete], [stop] and [resume], the last with the part behind its
    [await]: the calls that end or restart a stream. *)
Definition isControl (ev : event) : bool :=
  match ev with
  | Complete | Stop _ | Resume | ResumeSettled _ => true
  | _ => false
  end.

Definition noControl (trace : list (Q * event)) : Prop :=
  Forall (λ timed, isControl timed.2 = false) trace.

(** A stream that was never completed, stopped or resumed: well-formed, not
    complete, without sources or queued frames before playback begins, and
    with its sources in sequence up to the scheduled time. *)
Definition steady (st : AudioStreamer) : Prop :=
  wf st ∧ isStreamComplete st = false
  ∧ (isPlaying st = false → sourceNodes st = [] ∧ audioQueue st = [])
  ∧ ∃ after, sequenced after (playback <$> sourceNodes st) (scheduledTime st).

(** A session that does not play holds no queued frame and no sample. *)
Definition idleEmpty (st : AudioStreamer) : Prop :=
  isPlaying st = false → audioQueue st = [] ∧ processingBuffer st = [].

(** Every source whose handler is set and whose playback has not ended is
    the end-of-queue source. *)
Definition singleArmed (st : AudioStreamer) : Prop :=
  ∀ i n, sourceNodes st !! i = Some n → onended n = true → ended n = false →
         endOfQueueAudioSource st = Some i.

(** The session plays and no timer for a scheduling pass is pending. *)
Definition stalled (st : AudioStreamer) : Prop :=
  isPlaying st = true
  ∧ Forall (λ t, timerCallback t ≠ ScheduleNextBufferCallback) (timers st).


(** * The WebSocket relay of the server (index.js, lines 18-67)

    [handleWebSocket] upgrades the request to a client socket, opens a
    second socket to the target and installs five handlers that pass
    messages between the two.  A socket is modelled by what the handlers
    read and what they do to it: its ready state, the messages given to
    [send] while it was open, and the number of effective [close] calls.
    The messages themselves are opaque to the relay.  Which event can
    happen in which ready state is the WebSocket interface's: [open] in
    state CONNECTING only, [message] in state OPEN only, [close] once. *)

Inductive ReadyState : Type := CONNECTING | OPEN | CLOSING | CLOSED.

#[global] Instance ReadyState_eq_dec : EqDecision ReadyState.
Proof. solve_decision. Defined.

Section RelayModel.

Context {Message : Type}.

Record WebSocket : Type := mkWebSocket {
  readyState : ReadyState;
  sent : list Message;
  closeCalls : nat
}.

(** [ws.send(data)]: throws while the socket is connecting, hands the
    message over while it is open, and drops it afterwards. *)
Definition send (data : Message) (ws : WebSocket) : exn + WebSocket :=
  match readyState ws with
  | CONNECTING => inl InvalidStateError
  | OPEN => inr (mkWebSocket OPEN (sent ws ++ [data]) (closeCalls ws))
  | _ => inr ws
  end.

(** [ws.close()]: begins the closing handshake unless it has begun. *)
Definition close (ws : WebSocket) : WebSocket :=
  match readyState ws with
  | CONNECTING | OPEN => mkWebSocket CLOSING (sent ws) (S (closeCalls ws))
  | _ => ws
  end.

Definition set_readyState (s : ReadyState) (ws : WebSocket) : WebSocket :=
  mkWebSocket s (sent ws) (closeCalls ws).

(** The closure of [handleWebSocket]: the two sockets and the queue. *)
Record Relay : Type := mkRelay {
  clientWs : WebSocket;
  targetWs : WebSocket;
  pendingMessages : list Message
}.

(** Lines 29-32. *)
Definition newRelay : Relay :=
  mkRelay (mkWebSocket CONNECTING [] 0) (mkWebSocket CONNECTING [] 0) [].

(** [pendingMessages.forEach(msg => targetWs.send(msg))], line 36. *)
Fixpoint forEachSend (msgs : list Message) (ws : WebSocket)
    : exn + WebSocket :=
  match msgs with
  | [] => inr ws
  | msg :: rest =>
      match send msg ws with
      | inl e => inl e
      | inr ws => forEachSend rest ws
      end
  end.

(** [targetWs.onopen], lines 34-38. *)
Definition targetOnopen (r : Relay) : exn + Relay :=
  match forEachSend (pendingMessages r) (targetWs r) with
  | inl e => inl e
  | inr ws => inr (mkRelay (clientWs r) ws [])
  end.

(** [clientWs.onmessage], lines 40-46. *)
Definition clientOnmessage (data : Message) (r : Relay) : exn + Relay :=
  if decide (readyState (targetWs r) = OPEN) then
    match send data (targetWs r) with
    | inl e => inl e
    | inr ws => inr (mkRelay (clientWs r) ws (pendingMessages r))
    end
  else inr (mkRelay (clientWs r) (targetWs r) (pendingMessages r ++ [data])).

(** [targetWs.onmessage], lines 48-52. *)
Definition targetOnmessage (data : Message) (r : Relay) : exn + Relay :=
  if decide (readyState (clientWs r) = OPEN) then
    match send data (clientWs r) with
    | inl e => inl e
    | inr ws => inr (mkRelay ws (targetWs r) (pendingMessages r))
    end
  else inr r.

(** [clientWs.onclose], lines 54-58. *)
Definition clientOnclose (r : Relay) : Relay :=
  if decide (readyState (targetWs r) = OPEN) then
    mkRelay (clientWs r) (close (targetWs r)) (pendingMessages r)
  else r.

(** [targetWs.onclose], lines 60-64. *)
Definition targetOnclose (r : Relay) : Relay :=
  if decide (readyState (clientWs r) = OPEN) then
    mkRelay (close (clientWs r)) (targetWs r) (pendingMessages r)
  else r.

Inductive RelayEvent : Type :=
| ClientOpen
| ClientMessage (data : Message)
| ClientClose
| TargetOpen
| TargetMessage (data : Message)
| TargetClose.

Definition setClientState (s : ReadyState) (r : Relay) : Relay :=
  mkRelay (set_readyState s (clientWs r)) (targetWs r) (pendingMessages r).

Definition setTargetState (s : ReadyState) (r : Relay) : Relay :=
  mkRelay (clientWs r) (set_readyState s (targetWs r)) (pendingMessages r).

(** One event of a socket: the socket's state changes, then its handler
    runs.  [None] when the event cannot happen in the socket's state; an
    exception that escapes the handler is the outcome [inl]. *)
Definition relayDispatch (ev : RelayEvent) (r : Relay) : option (exn + Relay) :=
  match ev with
  | ClientOpen =>
      if decide (readyState (clientWs r) = CONNECTING)
      then Some (inr (setClientState OPEN r)) else None
  | ClientMessage data =>
      if decide (readyState (clientWs r) = OPEN)
      then Some (clientOnmessage data r) else None
  | ClientClose =>
      if decide (readyState (clientWs r) = CLOSED) then None
      else Some (inr (clientOnclose (setClientState CLOSED r)))
  | TargetOpen =>
      if decide (readyState (targetWs r) = CONNECTING)
      then Some (targetOnopen (setTargetState OPEN r)) else None
  | TargetMessage data =>
      if decide (readyState (targetWs r) = OPEN)
      then Some (targetOnmessage data r) else None
  | TargetClose =>
      if decide (readyState (targetWs r) = CLOSED) then None
      else Some (inr (targetOnclose (setTargetState CLOSED r)))
  end.

(** A sequence of events; it ends at the first exception. *)
Fixpoint relayRun (trace : list RelayEvent) (r : Relay) : option (exn + Relay) :=
  match trace with
  | [] => Some (inr r)
  | ev :: rest =>
      match relayDispatch ev r with
      | Some (inr r) => relayRun rest r
      | other => other
      end
  end.

(** The messages the client sent, in order. *)
Definition clientMessages (trace : list RelayEvent) : list Message :=
  omap (λ ev, match ev with ClientMessage data => Some data | _ => None end)
       trace.

(** The messages the target sent, in order. *)
Definition targetMessages (trace : list RelayEvent) : list Message :=
  omap (λ ev, match ev with TargetMessage data => Some data | _ => None end)
       trace.

Definition isTargetOpen (ev : RelayEvent) : bool :=
  match ev with
  | TargetOpen => true
  | _ => false
  end.

(** Nothing was handed to a target that is still connecting, and nothing
    waits in the queue of a target that is open. *)
Definition queueInvariant (r : Relay) : Prop :=
  (readyState (targetWs r) = CONNECTING → sent (targetWs r) = [])
  ∧ (readyState (targetWs r) = OPEN → pendingMessages r = []).

End RelayModel.

Arguments WebSocket : clear implicits.
Arguments Relay : clear implicits.
Arguments RelayEvent : clear implicits.

(** * Static files of the server (index.js, lines 3-16 and 69-109)

    Paths come from [url.pathname], which is ASCII; strings are modelled as
    strings of 8-bit characters and [toLowerCase] acts on the letters A-Z. *)

Definition toLowerCaseAscii (c : ascii) : ascii :=
  let n := nat_of_ascii c in
  if (65 <=? n)%nat && (n <=? 90)%nat then ascii_of_nat (n + 32) else c.

Fixpoint toLowerCase (s : string) : string :=
  match s with
  | EmptyString => EmptyString
  | String c rest => String (toLowerCaseAscii c) (toLowerCase rest)
  end.

(** [s.split(separator)] for a one-character separator: the segments
    between the separators, at least one. *)
Fixpoint split (separator : ascii) (s : string) : list string :=
  match s with
  | EmptyString => [EmptyString]
  | String c rest =>
      if decide (c = separator) then EmptyString :: split separator rest
      else
        match split separator rest with
        | segment :: segments => String c segment :: segments
        | [] => [String c EmptyString]
        end
  end.

(** What a property lookup on the object literal [types] can give: one of
    its own strings, or a member that the object inherits from
    [Object.prototype], which is a function and not a string. *)
Inductive JSValue : Type :=
| JSString (s : string)
| Inherited (name : string).

Definition ownTypes : list (string * string) :=
  [("js", "application/javascript"); ("css", "text/css");
   ("html", "text/html"); ("json", "application/json");
   ("png", "image/png"); ("jpg", "image/jpeg"); ("jpeg", "image/jpeg");
   ("gif", "image/gif")]%string.

(** The property names of [Object.prototype] in a browser, where the
    worklet registry lives. *)
Definition objectPrototype : list string :=
  ["constructor"; "__proto__"; "hasOwnProperty"; "isPrototypeOf";
   "propertyIsEnumerable"; "toLocaleString"; "toString"; "valueOf";
   "__defineGetter__"; "__defineSetter__"; "__lookupGetter__";
   "__lookupSetter__"]%string.

(** The same on the server: [index.js] runs on Deno, which removes
    [__proto__] from [Object.prototype] when it starts. *)
Definition denoObjectPrototype : list string :=
  ["constructor"; "hasOwnProperty"; "isPrototypeOf";
   "propertyIsEnumerable"; "toLocaleString"; "toString"; "valueOf";
   "__defineGetter__"; "__defineSetter__"; "__lookupGetter__";
   "__lookupSetter__"]%string.

Fixpoint assoc (key : string) (entries : list (string * string))
    : option string :=
  match entries with
  | [] => None
  | (k, v) :: rest => if decide (k = key) then Some v else assoc key rest
  end.

(** [types[ext]]: own properties first, then the prototype. *)
Definition types (ext : string) : option JSValue :=
  match assoc ext ownTypes with
  | Some v => Some (JSString v)
  | None =>
      if decide (ext ∈ denoObjectPrototype) then Some (Inherited ext)
      else None
  end.

(** [path.split('.').pop()?.toLowerCase() || ''], line 4. *)
Definition extension (path : string) : string :=
  default EmptyString (toLowerCase <$> last (split "." path)).

(** Lines 3-16.  Every value [types] holds or inherits is truthy. *)
Definition getContentType (path : string) : JSValue :=
  default (JSString "text/plain") (types (extension path)).

Fixpoint contains (c : ascii) (s : string) : bool :=
  match s with
  | EmptyString => false
  | String c' rest => bool_decide (c' = c) || contains c rest
  end.

(** The text a template literal makes of a value. *)
Definition templateValue (v : JSValue) : string :=
  match v with
  | JSString s => s
  | Inherited name =>
      if decide (name = "constructor"%string)
      then "function Object() { [native code] }"
      else "function " +:+ name +:+ "() { [native code] }"
  end.

Inductive Body : Type :=
| BodyText (text : string)
| BodyBytes (content : list byte)
| BodyNone.

Record Response : Type := mkResponse {
  status : nat;
  body : Body;
  headers : list (string * string)
}.

(** What the handlers read of a request: the [Upgrade] header, and the
    path and the query of its URL ([None] when [new URL] throws). *)
Record Request : Type := mkRequest {
  upgradeHeader : option string;
  url : option (string * string)
}.

(** The server's surroundings: the working directory, the files that can be
    read, and whether the upgrade of the connection succeeds. *)
Record Host : Type := mkHost {
  cwd : string;
  readFile : string → option (list byte);
  upgradeOk : bool
}.

(** What becomes of an [async] handler: it answers, and may have set up a
    relay to a target URL, or its promise is rejected. *)
Inductive Outcome : Type :=
| Responds (response : Response) (relay : option (string * Relay string))
| Rejects (e : exn).

(** Lines 18-67; the handlers the relay installs are modelled above. *)
Definition handleWebSocket (host : Host) (request : Request) : Outcome :=
  if decide (upgradeHeader request = Some "websocket"%string) then
    match url request with
    | None => Rejects TypeError
    | Some (pathname, search) =>
        let pathAndQuery := pathname +:+ search in
        let targetUrl :=
          "wss://generativelanguage.googleapis.com" +:+ pathAndQuery in
        if upgradeOk host then
          Responds (mkResponse 101 BodyNone []) (Some (targetUrl, newRelay))
        else Rejects TypeError
    end
  else
    Responds (mkResponse 400 (BodyText "Expected WebSocket connection") [])
             None.

(** Lines 69-109.  The promise of [handleWebSocket] is returned without
    [await], so its rejection passes the [catch]. *)
Definition handleRequest (host : Host) (request : Request) : Outcome :=
  match url request with
  | None =>
      Responds
        (mkResponse 500 (BodyText "Internal Server Error")
           [("content-type", "text/plain;charset=UTF-8")]%string)
        None
  | Some (pathname, search) =>
      if decide (upgradeHeader request = Some "websocket"%string) then
        handleWebSocket host request
      else
        let path :=
          if decide (pathname = "/"%string ∨ pathname = ""%string)
          then "/index.html"%string else pathname in
        let filePath := cwd host +:+ "/src/static" +:+ path in
        match readFile host filePath with
        | Some content =>
            Responds
              (mkResponse 200 (BodyBytes content)
                 [("content-type",
                   templateValue (getContentType path) +:+ ";charset=UTF-8");
                  ("cache-control", "public, max-age=3600")]%string)
              None
        | None =>
            Responds
              (mkResponse 404 (BodyText "Not Found")
                 [("content-type", "text/plain;charset=UTF-8")]%string)
              None
        end
  end.

(** * The recorder (audio-recorder.js, lines 10-214)

    The class [AudioRecorder].  Of the browser the model keeps what the
    methods do to it: the microphone streams obtained, each live until its
    tracks are stopped; the number of worklet nodes created; the calls of
    the recognition engine; and the data handed to the owner's callback.
    Whether the microphone is granted, the audio context can be made, the
    worklet module loads, the node can be created and the engine starts or
    stops is the environment's choice.  [start] is [async] with two [await]s, so it runs in three
    parts, and other events may come between them. *)

Module Recorder.

Inductive ErrorCode : Type :=
| AUDIO_STOP_FAILED
| AUDIO_CONVERSION_FAILED
| AUDIO_NOT_SUPPORTED.

(** What the methods throw: an error of the browser, passed on as it is,
    or the application's own around it. *)
Inductive Thrown : Type :=
| NotAllowedError          (* getUserMedia *)
| ContextError             (* new AudioContext, createMediaStreamSource *)
| AbortError               (* audioWorklet.addModule *)
| NodeError                (* new AudioWorkletNode *)
| RecognitionError         (* recognition.start, recognition.stop *)
| InvalidCharacterError    (* btoa *)
| ApplicationError (message : string) (code : ErrorCode)
    (originalError : Thrown).

(** ** arrayBufferToBase64 (lines 181-197) *)

Definition alphabet : string :=
  "ABCDEFGHIJKLMNOPQRSTUVWXYZabcdefghijklmnopqrstuvwxyz0123456789+/".

Definition base64Char (i : Z) : ascii :=
  default "="%char (String.get (Z.to_nat i) alphabet).

(** Base64 of a string of character codes below 256: three codes give four
    characters, and the last group is padded. *)
Fixpoint encode (codes : list Z) : string :=
  match codes with
  | [] => EmptyString
  | [a] =>
      String (base64Char (a / 4))
        (String (base64Char (a mod 4 * 16)) "==")
  | [a; b] =>
      String (base64Char (a / 4))
        (String (base64Char (a mod 4 * 16 + b / 16))
           (String (base64Char (b mod 16 * 4)) "="))
  | a :: b :: c :: rest =>
      String (base64Char (a / 4))
        (String (base64Char (a mod 4 * 16 + b / 16))
           (String (base64Char (b mod 16 * 4 + c / 64))
              (String (base64Char (c mod 64)) (encode rest))))
  end%Z.

(** [btoa(binary)]: throws when a character's code is above 255. *)
Definition btoa (binary : list Z) : Thrown + string :=
  if forallb (λ code, code <=? 255)%Z binary then inr (encode binary)
  else inl InvalidCharacterError.

(** The loop of lines 185-187 appends [String.fromCharCode(bytes[i])], the
    character whose code is the byte's value. *)
Definition arrayBufferToBase64 (buffer : Uint8Array) : Thrown + string :=
  let binary := byteZ <$> buffer in
  match btoa binary with
  | inr base64 => inr base64
  | inl error =>
      inl (ApplicationError "Failed to convert audio data"
             AUDIO_CONVERSION_FAILED error)
  end.

(** The inverse of [base64Char] on the alphabet, and the decoding of a
    Base64 string: what a receiver of the data computes. *)
Fixpoint indexOf (c : ascii) (s : string) : Z :=
  match s with
  | EmptyString => 0
  | String c' rest => if decide (c' = c) then 0 else 1 + indexOf c rest
  end%Z.

Fixpoint decode (fuel : nat) (base64 : string) : list Z :=
  match fuel, base64 with
  | S fuel, String c1 (String c2 (String c3 (String c4 rest))) =>
      let i1 := indexOf c1 alphabet in
      let i2 := indexOf c2 alphabet in
      let i3 := indexOf c3 alphabet in
      let i4 := indexOf c4 alphabet in
      if decide (c3 = "="%char) then [i1 * 4 + i2 / 16]
      else if decide (c4 = "="%char)
           then [i1 * 4 + i2 / 16; i2 mod 16 * 16 + i3 / 4]
           else (i1 * 4 + i2 / 16) :: (i2 mod 16 * 16 + i3 / 4)
                  :: (i3 mod 4 * 64 + i4) :: decode fuel rest
  | _, _ => []
  end%Z.

(** ** The object *)

Inductive EngineCall : Type := EngineStart | EngineStop.

Record AudioRecorder : Type := mkAudioRecorder {
  sampleRate : Q;
  stream : option nat;            (* index into [streams] *)
  isRecording : bool;
  onAudioData : option nat;       (* the owner's callback *)
  recognition : bool;             (* is there an engine? *)
  processor : option nat;
  (* the browser *)
  streams : list bool;            (* is the stream's track live? *)
  processors : nat;               (* worklet nodes created *)
  engineCalls : list EngineCall;
  delivered : list (nat * string);
  (* parts of [start] that wait for a promise *)
  awaitingMicrophone : nat;
  awaitingModule : nat
}.

Definition set_stream (v : option nat) (r : AudioRecorder) : AudioRecorder :=
  mkAudioRecorder (sampleRate r) v (isRecording r) (onAudioData r)
    (recognition r) (processor r) (streams r) (processors r) (engineCalls r)
    (delivered r) (awaitingMicrophone r) (awaitingModule r).

Definition set_isRecording (v : bool) (r : AudioRecorder) : AudioRecorder :=
  mkAudioRecorder (sampleRate r) (stream r) v (onAudioData r)
    (recognition r) (processor r) (streams r) (processors r) (engineCalls r)
    (delivered r) (awaitingMicrophone r) (awaitingModule r).

Definition set_onAudioData (v : option nat) (r : AudioRecorder)
    : AudioRecorder :=
  mkAudioRecorder (sampleRate r) (stream r) (isRecording r) v
    (recognition r) (processor r) (streams r) (processors r) (engineCalls r)
    (delivered r) (awaitingMicrophone r) (awaitingModule r).

Definition set_processor (v : option nat) (r : AudioRecorder)
    : AudioRecorder :=
  mkAudioRecorder (sampleRate r) (stream r) (isRecording r) (onAudioData r)
    (recognition r) v (streams r) (processors r) (engineCalls r)
    (delivered r) (awaitingMicrophone r) (awaitingModule r).

Definition set_streams (v : list bool) (r : AudioRecorder) : AudioRecorder :=
  mkAudioRecorder (sampleRate r) (stream r) (isRecording r) (onAudioData r)
    (recognition r) (processor r) v (processors r) (engineCalls r)
    (delivered r) (awaitingMicrophone r) (awaitingModule r).

Definition set_processors (v : nat) (r : AudioRecorder) : AudioRecorder :=
  mkAudioRecorder (sampleRate r) (stream r) (isRecording r) (onAudioData r)
    (recognition r) (processor r) (streams r) v (engineCalls r)
    (delivered r) (awaitingMicrophone r) (awaitingModule r).

Definition set_engineCalls (v : list EngineCall) (r : AudioRecorder)
    : AudioRecorder :=
  mkAudioRecorder (sampleRate r) (stream r) (isRecording r) (onAudioData r)
    (recognition r) (processor r) (streams r) (processors r) v
    (delivered r) (awaitingMicrophone r) (awaitingModule r).

Definition set_delivered (v : list (nat * string)) (r : AudioRecorder)
    : AudioRecorder :=
  mkAudioRecorder (sampleRate r) (stream r) (isRecording r) (onAudioData r)
    (recognition r) (processor r) (streams r) (processors r) (engineCalls r)
    v (awaitingMicrophone r) (awaitingModule r).

Definition set_awaitingMicrophone (v : nat) (r : AudioRecorder)
    : AudioRecorder :=
  mkAudioRecorder (sampleRate r) (stream r) (isRecording r) (onAudioData r)
    (recognition r) (processor r) (streams r) (processors r) (engineCalls r)
    (delivered r) v (awaitingModule r).

Definition set_awaitingModule (v : nat) (r : AudioRecorder) : AudioRecorder :=
  mkAudioRecorder (sampleRate r) (stream r) (isRecording r) (onAudioData r)
    (recognition r) (processor r) (streams r) (processors r) (engineCalls r)
    (delivered r) (awaitingMicrophone r) v.

(** A call returns, or throws (a promise is rejected), and the object lives
    on either way. *)
Inductive Result : Type :=
| Ok (r : AudioRecorder)
| Err (e : Thrown) (r : AudioRecorder).

Definition after (res : Result) : AudioRecorder :=
  match res with
  | Ok r => r
  | Err _ r => r
  end.

(** Lines 15-33. *)
Definition constructor (rate : Q) (recognitionSupported : bool)
    : AudioRecorder :=
  mkAudioRecorder rate None false None recognitionSupported None [] 0 [] []
    0 0.

(** ** start (lines 83-134) *)

(** Up to the first [await]: the callback is kept and the microphone is
    asked for. *)
Definition startCall (callback : nat) (r : AudioRecorder) : AudioRecorder :=
  set_awaitingMicrophone (S (awaitingMicrophone r))
    (set_onAudioData (Some callback) r).

(** From the first [await] to the second: the stream is kept, the audio
    context and its source are made, and the worklet module is asked for. *)
Definition microphoneSettled (granted contextOk : bool) (r : AudioRecorder)
    : Result :=
  let r := set_awaitingMicrophone (pred (awaitingMicrophone r)) r in
  if granted then
    let r := set_stream (Some (length (streams r))) r in
    let r := set_streams (streams r ++ [true]) r in
    if contextOk then Ok (set_awaitingModule (S (awaitingModule r)) r)
    else Err ContextError r
  else Err NotAllowedError r.

(** From the second [await] to the end: the node is created and its port
    gets the handler, [isRecording] is set, and then the engine is started,
    if there is one.  A node and its port are objects, so the test of line
    110 holds and the [else] of line 130 is not reached. *)
Definition moduleSettled (loaded nodeOk startOk : bool) (r : AudioRecorder)
    : Result :=
  let r := set_awaitingModule (pred (awaitingModule r)) r in
  if loaded then
    if nodeOk then
      let r := set_processor (Some (processors r)) r in
      let r := set_processors (S (processors r)) r in
      let r := set_isRecording true r in
      if recognition r then
        let r := set_engineCalls (engineCalls r ++ [EngineStart]) r in
        if startOk then Ok r else Err RecognitionError r
      else Ok r
    else Err NodeError r
  else Err AbortError r.

(** ** stop (lines 142-171) *)

Definition stop (stopOk : bool) (r : AudioRecorder) : Result :=
  if negb (isRecording r) then Ok r
  else
    let r :=
      match stream r with
      | Some s => set_stream None (set_streams (<[s := false]> (streams r)) r)
      | None => r
      end in
    if recognition r then
      let r := set_engineCalls (engineCalls r ++ [EngineStop]) r in
      if stopOk then Ok (set_isRecording false r)
      else
        Err (ApplicationError "Failed to stop audio recording"
               AUDIO_STOP_FAILED RecognitionError) r
    else Ok (set_isRecording false r).

(** ** The handler of a node's port (lines 111-117) *)

Definition onmessage (eventName : string) (buffer : Uint8Array)
    (r : AudioRecorder) : Result :=
  match onAudioData r with
  | Some callback =>
      if bool_decide (eventName = "chunk"%string) && isRecording r then
        match arrayBufferToBase64 buffer with
        | inr base64Data =>
            Ok (set_delivered (delivered r ++ [(callback, base64Data)]) r)
        | inl error => Err error r
        end
      else Ok r
  | None => Ok r
  end.

(** ** Events *)

Inductive Event : Type :=
| StartCall (callback : nat)
| MicrophoneSettled (granted contextOk : bool)
| ModuleSettled (loaded nodeOk startOk : bool)
| Stop (stopOk : bool)
| Message (node : nat) (eventName : string) (buffer : Uint8Array).

(** One event; [None] when it cannot happen: a promise settles only when a
    [start] waits for it, and a message comes from a node that exists. *)
Definition dispatch (ev : Event) (r : AudioRecorder) : option Result :=
  match ev with
  | StartCall callback => Some (Ok (startCall callback r))
  | MicrophoneSettled granted contextOk =>
      if (0 <? awaitingMicrophone r)%nat
      then Some (microphoneSettled granted contextOk r) else None
  | ModuleSettled loaded nodeOk startOk =>
      if (0 <? awaitingModule r)%nat
      then Some (moduleSettled loaded nodeOk startOk r) else None
  | Stop stopOk => Some (stop stopOk r)
  | Message node eventName buffer =>
      if (node <? processors r)%nat
      then Some (onmessage eventName buffer r) else None
  end.

Fixpoint run (trace : list Event) (r : AudioRecorder) : option AudioRecorder :=
  match trace with
  | [] => Some r
  | ev :: rest =>
      match dispatch ev r with
      | Some res => run rest (after res)
      | None => None
      end
  end.

End Recorder.

(** * addWorklet (audio-recorder.js, lines 345-381)

    [registeredWorklets] maps an audio context to a record that maps a
    worklet name to its entry.  [addWorklet] is [async] with one [await],
    the load of the module; the part behind it runs when the load settles.
    A record is a plain object, so a name that every object inherits from
    [Object.prototype] is found in a record that does not hold it; for such
    names the model gives no answer. *)

Record WorkletEntry : Type := mkWorkletEntry {
  handlers : list (option nat);
  node : option nat
}.

(** What the closure set as [port.onmessage] holds: the streamer that is
    [this], and the handler of the call. *)
Record PortClosure : Type := mkPortClosure {
  closureStreamer : nat;
  closureHandler : option nat
}.

(** A call of [addWorklet] at its [await]. *)
Record PendingWorklet : Type := mkPendingWorklet {
  pendingStreamer : nat;
  pendingContext : nat;
  pendingName : string;
  pendingHandler : option nat
}.

Record Worklets : Type := mkWorklets {
  registeredWorklets : gmap nat (gmap string WorkletEntry);
  processor : gmap nat nat;                (* [this.processor], by streamer *)
  ports : list PortClosure;                (* by node, in creation order *)
  moduleLoads : list (nat * string * string);  (* context, name, path *)
  pendingWorklets : list PendingWorklet;
  handlerCalls : list (nat * nat * nat)
    (* handler, port that is [this], node whose port got the message *)
}.

Definition noWorklets : Worklets := mkWorklets ∅ ∅ [] [] [] [].

(** [registeredWorklets.get(context)?.[workletName]]. *)
Definition workletEntry (context : nat) (workletName : string)
    (w : Worklets) : option WorkletEntry :=
  registeredWorklets w !! context ≫= (.!! workletName).

Definition set_workletEntry (context : nat) (workletName : string)
    (entry : WorkletEntry) (w : Worklets) : Worklets :=
  let workletsRecord := default ∅ (registeredWorklets w !! context) in
  mkWorklets
    (<[context := <[workletName := entry]> workletsRecord]>
       (registeredWorklets w))
    (processor w) (ports w) (moduleLoads w) (pendingWorklets w)
    (handlerCalls w).

(** Lines 345-361, up to the [await]: an entry that is there gets the
    handler and the call is done; otherwise the entry is made and the
    module is asked for. *)
Definition addWorklet (streamer context : nat) (workletName workletSrc : string)
    (handler : option nat) (w : Worklets) : option Worklets :=
  if decide (workletName ∈ objectPrototype) then None
  else
    match workletEntry context workletName w with
    | Some entry =>
        Some (set_workletEntry context workletName
                (mkWorkletEntry (handlers entry ++ [handler]) (node entry)) w)
    | None =>
        let w :=
          set_workletEntry context workletName
            (mkWorkletEntry [handler] None) w in
        Some (mkWorklets (registeredWorklets w) (processor w) (ports w)
                (moduleLoads w
                   ++ [(context, workletName, "/" +:+ workletSrc)])
                (pendingWorklets w
                   ++ [mkPendingWorklet streamer context workletName handler])
                (handlerCalls w))
    end.

(** Lines 361-380, behind the [await], for the [i]-th waiting call: when
    the module is loaded and the node can be created, the node becomes
    [this.processor] and the entry's node, and its port gets the closure;
    otherwise the error is thrown again.  [inl] is the rejected promise. *)
Definition workletSettled (i : nat) (loaded nodeOk : bool) (w : Worklets)
    : option (exn + Worklets) :=
  match pendingWorklets w !! i with
  | None => None
  | Some call =>
      let w :=
        mkWorklets (registeredWorklets w) (processor w) (ports w)
          (moduleLoads w) (delete i (pendingWorklets w)) (handlerCalls w) in
      if loaded && nodeOk then
        let created := length (ports w) in
        let w :=
          match workletEntry (pendingContext call) (pendingName call) w with
          | Some entry =>
              set_workletEntry (pendingContext call) (pendingName call)
                (mkWorkletEntry (handlers entry) (Some created)) w
          | None => w
          end in
        Some (inr (mkWorklets (registeredWorklets w)
                     (<[pendingStreamer call := created]> (processor w))
                     (ports w
                        ++ [mkPortClosure (pendingStreamer call)
                              (pendingHandler call)])
                     (moduleLoads w) (pendingWorklets w) (handlerCalls w)))
      else Some (inl InvalidStateError)
  end.

(** The closure of lines 370-374 on a message of node [n]. *)
Definition portMessage (n : nat) (w : Worklets) : option Worklets :=
  match ports w !! n with
  | None => None
  | Some closure =>
      match closureHandler closure,
            processor w !! closureStreamer closure with
      | Some handler, Some port =>
          Some (mkWorklets (registeredWorklets w) (processor w) (ports w)
                  (moduleLoads w) (pendingWorklets w)
                  (handlerCalls w ++ [(handler, port, n)]))
      | _, _ => Some w
      end
  end.

Inductive WorkletEvent : Type :=
| AddWorklet (streamer context : nat) (workletName workletSrc : string)
    (handler : option nat)
| WorkletModuleSettled (i : nat) (loaded nodeOk : bool)
| PortMessage (n : nat).

(** One event; a rejected promise leaves the state as the part of the call
    before the throw left it. *)
Definition workletDispatch (ev : WorkletEvent) (w : Worklets)
    : option Worklets :=
  match ev with
  | AddWorklet streamer context workletName workletSrc handler =>
      addWorklet streamer context workletName workletSrc handler w
  | WorkletModuleSettled i loaded nodeOk =>
      match workletSettled i loaded nodeOk w with
      | Some (inr w) => Some w
      | Some (inl _) =>
          Some (mkWorklets (registeredWorklets w) (processor w) (ports w)
                  (moduleLoads w) (delete i (pendingWorklets w))
                  (handlerCalls w))
      | None => None
      end
  | PortMessage n => portMessage n w
  end.

Fixpoint workletRun (trace : list WorkletEvent) (w : Worklets)
    : option Worklets :=
  match trace with
  | [] => Some w
  | ev :: rest =>
      match workletDispatch ev w with
      | Some w => workletRun rest w
      | None => None
      end
  end.

(** Every load on record has its entry, and no context and name was loaded
    twice. *)
Definition loadedOnce (w : Worklets) : Prop :=
  NoDup ((λ load, (load.1.1, load.1.2)) <$> moduleLoads w)
  ∧ ∀ load, load ∈ moduleLoads w →
            is_Some (workletEntry load.1.1 load.1.2 w).

(** What holds of the registry, the waiting calls, the ports and the calls
    made: a waiting call has its entry, with its handler first and no node
    yet, and no two calls wait for the same context and name; the entry of
    the call that made a node holds that node, and the closure of the
    node's port holds the entry's first handler; and every call made by
    the port of a node was of the first handler of the entry that holds
    the node. *)
Definition registryInvariant (w : Worklets) : Prop :=
  (∀ call, call ∈ pendingWorklets w →
     ∃ entry,
       workletEntry (pendingContext call) (pendingName call) w = Some entry
       ∧ head (handlers entry) = Some (pendingHandler call)
       ∧ node entry = None)
  ∧ NoDup ((λ call, (pendingContext call, pendingName call))
             <$> pendingWorklets w)
  ∧ (∀ n closure, ports w !! n = Some closure →
       ∃ context workletName entry,
         workletEntry context workletName w = Some entry
         ∧ node entry = Some n
         ∧ head (handlers entry) = Some (closureHandler closure))
  ∧ (∀ handler port n, (handler, port, n) ∈ handlerCalls w →
       ∃ context workletName entry,
         workletEntry context workletName w = Some entry
         ∧ node entry = Some n
         ∧ head (handlers entry) = Some (Some handler)).
(** ** Conversion of PCM16 bytes *)

Section Conversion.

Lemma pairs_ind {A : Type} (P : list A → Prop) :
  P [] → (∀ x, P [x]) → (∀ x y l, P l → P (x :: y :: l)) → ∀ l, P l.
Proof.
  intros Hnil Hone Hstep l.
  assert (H : P l ∧ ∀ x, P (x :: l)).
  { induction l as [|y l [IH1 IH2]]; split; auto. }
  apply H.
Qed.

Lemma byteZ_range (b : byte) : (0 ≤ byteZ b < 256)%Z.
Proof.
  unfold byteZ. pose proof (Byte.to_N_bounded b) as H.
  split; [apply N2Z.is_nonneg | lia].
Qed.

Lemma lor_shiftl_8 (lo hi : Z) :
  (0 ≤ lo < 256)%Z → Z.lor lo (Z.shiftl hi 8) = (lo + 256 * hi)%Z.
Proof.
  intros Hlo.
  assert (Hland : Z.land lo (Z.shiftl hi 8) = 0%Z).
  { apply Z.bits_inj'. intros n Hn.
    rewrite Z.land_spec, Z.bits_0.
    destruct (Z.lt_ge_cases n 8) as [Hlt | Hge].
    - rewrite (Z.shiftl_spec_low hi 8 n Hlt). apply andb_false_r.
    - replace lo with (lo mod 2 ^ 8)%Z by (apply Z.mod_small; simpl; lia).
      rewrite Z.mod_pow2_bits_high by lia. reflexivity. }
  rewrite <- Z.lxor_lor by exact Hland.
  rewrite <- Z.add_nocarry_lxor by exact Hland.
  rewrite Z.shiftl_mul_pow2 by lia. simpl. lia.
Qed.

Lemma toInt16_range (u : Z) :
  (0 ≤ u < 65536)%Z → (-32768 ≤ toInt16 u < 32768)%Z.
Proof. intros H. unfold toInt16. destruct (Z.ltb_spec u 32768); lia. Qed.

Lemma normalize_range (z : Z) :
  (-32768 ≤ z < 32768)%Z → (-1 <= normalize z)%Q ∧ (normalize z < 1)%Q.
Proof.
  intros H. unfold normalize, Qdiv, Qle, Qlt. simpl. lia.
Qed.

Lemma pcm16Ints_length (chunk : Uint8Array) :
  length (pcm16Ints chunk) = (length chunk / 2)%nat.
Proof.
  induction chunk as [| b | lo hi rest IH] using pairs_ind; [done | done |].
  cbn [pcm16Ints length]. rewrite IH.
  change (S (S (length rest))) with (1 * 2 + length rest)%nat.
  rewrite Nat.div_add_l by lia. lia.
Qed.

Lemma pcm16Ints_range (chunk : Uint8Array) :
  Forall (λ z, (-32768 ≤ z < 32768)%Z) (pcm16Ints chunk).
Proof.
  induction chunk as [| b | lo hi rest IH] using pairs_ind;
    [constructor | constructor |].
  cbn [pcm16Ints]. constructor; [| exact IH].
  apply toInt16_range.
  pose proof (byteZ_range lo). pose proof (byteZ_range hi). lia.
Qed.

(** [getInt16] at an even offset reads the sample with that index, and throws
    exactly where there is none. *)
Lemma getInt16_pcm16Ints (chunk : Uint8Array) (i : nat) :
  getInt16 chunk (i * 2) =
    match pcm16Ints chunk !! i with
    | Some int16 => inr int16
    | None => inl RangeError
    end.
Proof.
  revert i.
  induction chunk as [| b | lo hi rest IH] using pairs_ind; intros i.
  - destruct i; reflexivity.
  - destruct i; reflexivity.
  - destruct i as [|i].
    + unfold getInt16. cbn. rewrite lor_shiftl_8 by apply byteZ_range.
      reflexivity.
    + specialize (IH i). unfold getInt16 in *. cbn in *. exact IH.
Qed.

Lemma insert_take_replicate {A : Type} (l : list A) (i n : nat) (x d : A) :
  l !! i = Some x → (i < n)%nat →
  <[i := x]> (take i l ++ replicate (n - i) d)
  = take (S i) l ++ replicate (n - S i) d.
Proof.
  intros Hx Hi.
  assert (Hlen : length (take i l) = i).
  { rewrite length_take. apply lookup_lt_Some in Hx. lia. }
  rewrite insert_app_r_alt by lia.
  rewrite Hlen, Nat.sub_diag.
  replace (n - i)%nat with (S (n - S i)) by lia. cbn.
  rewrite (take_S_r l i x Hx), <- app_assoc. reflexivity.
Qed.

Lemma convertLoop_spec (chunk : Uint8Array) (fuel i : nat) :
  (length chunk < 2 * (i + fuel))%nat →
  convertLoop fuel chunk i
    (take i (pcm16Samples chunk) ++ replicate (length chunk / 2 - i) 0%Q)
  = Some (pcm16Samples chunk).
Proof.
  revert i. induction fuel as [|fuel IH]; intros i Hfuel.
  - cbn [convertLoop].
    destruct (Nat.ltb_spec (2 * i) (length chunk)); [lia |].
    assert (length chunk / 2 ≤ i)%nat.
    { apply Nat.Div0.div_le_upper_bound. lia. }
    rewrite take_ge
      by (unfold pcm16Samples; rewrite length_fmap, pcm16Ints_length; lia).
    replace (length chunk / 2 - i)%nat with 0%nat by lia.
    cbn [replicate]. rewrite app_nil_r. reflexivity.
  - cbn [convertLoop].
    destruct (Nat.ltb_spec (2 * i) (length chunk)) as [Hlt | Hge].
    + rewrite getInt16_pcm16Ints.
      destruct (pcm16Ints chunk !! i) as [int16|] eqn:Hi.
      * assert (Hs : pcm16Samples chunk !! i = Some (normalize int16)).
        { unfold pcm16Samples. rewrite list_lookup_fmap, Hi. reflexivity. }
        assert (Hin : (i < length chunk / 2)%nat).
        { apply lookup_lt_Some in Hi. rewrite pcm16Ints_length in Hi. exact Hi. }
        rewrite (insert_take_replicate _ _ _ _ _ Hs Hin).
        apply IH. lia.
      * assert (Hout : (length chunk / 2 ≤ i)%nat).
        { apply lookup_ge_None in Hi. rewrite pcm16Ints_length in Hi. exact Hi. }
        specialize (IH (S i) ltac:(lia)).
        rewrite take_ge in IH
          by (unfold pcm16Samples; rewrite length_fmap, pcm16Ints_length; lia).
        rewrite take_ge
          by (unfold pcm16Samples; rewrite length_fmap, pcm16Ints_length; lia).
        replace (length chunk / 2 - i)%nat with 0%nat by lia.
        replace (length chunk / 2 - S i)%nat with 0%nat in IH by lia.
        exact IH.
    + assert (length chunk / 2 ≤ i)%nat.
      { apply Nat.Div0.div_le_upper_bound. lia. }
      rewrite take_ge
        by (unfold pcm16Samples; rewrite length_fmap, pcm16Ints_length; lia).
      replace (length chunk / 2 - i)%nat with 0%nat by lia.
      cbn [replicate]. rewrite app_nil_r. reflexivity.
Qed.

(** The conversion loop ends and yields the samples the chunk encodes. *)
Lemma convert_spec (chunk : Uint8Array) :
  convert chunk = Some (pcm16Samples chunk).
Proof.
  unfold convert.
  pose proof (convertLoop_spec chunk (S (length chunk)) 0) as H.
  cbn [take] in H. rewrite Nat.sub_0_r in H. apply H. lia.
Qed.

End Conversion.

(** ** Re-chunking into frames *)

Section Rechunking.

Lemma slices_length {A : Type} (B k : nat) (l : list A) :
  length (slices B k l) = k.
Proof. revert l. induction k as [|k IH]; intros l; cbn; [done | by rewrite IH]. Qed.

Lemma slices_full {A : Type} (B k : nat) (l : list A) :
  (k * B ≤ length l)%nat → Forall (λ frame, length frame = B) (slices B k l).
Proof.
  revert l. induction k as [|k IH]; intros l Hlen; cbn [slices]; constructor.
  - rewrite length_take. lia.
  - apply IH. rewrite length_drop. lia.
Qed.

Lemma slices_concat {A : Type} (B k : nat) (l : list A) :
  concat (slices B k l) ++ drop (k * B) l = l.
Proof.
  revert l. induction k as [|k IH]; intros l; cbn [slices concat].
  - reflexivity.
  - rewrite <- app_assoc.
    replace (S k * B)%nat with (B + k * B)%nat by lia.
    rewrite <- drop_drop, IH. apply take_drop.
Qed.

Lemma rechunkLoop_spec (fuel : nat) (st : AudioStreamer) :
  (0 < bufferSize st)%nat →
  (length (processingBuffer st) / bufferSize st < fuel)%nat →
  rechunkLoop fuel st =
    Some (set_processingBuffer
            (drop (length (processingBuffer st) / bufferSize st * bufferSize st)
                  (processingBuffer st))
            (set_audioQueue
               (audioQueue st
                  ++ slices (bufferSize st)
                       (length (processingBuffer st) / bufferSize st)
                       (processingBuffer st))
               st)).
Proof.
  revert st. induction fuel as [|fuel IH]; intros st HB Hfuel; [lia |].
  cbn [rechunkLoop].
  destruct (Nat.leb_spec (bufferSize st) (length (processingBuffer st)))
    as [Hle | Hlt].
  - set (st1 := set_processingBuffer
                  (drop (bufferSize st) (processingBuffer st))
                  (set_audioQueue
                     (audioQueue st ++ [take (bufferSize st) (processingBuffer st)])
                     st)).
    assert (Hk : (length (processingBuffer st) / bufferSize st
                  = S (length (processingBuffer st1) / bufferSize st))%nat).
    { subst st1. cbn [processingBuffer set_processingBuffer].
      rewrite length_drop.
      replace (length (processingBuffer st))
        with (1 * bufferSize st
              + (length (processingBuffer st) - bufferSize st))%nat at 1 by lia.
      rewrite Nat.div_add_l by lia. lia. }
    match goal with |- rechunkLoop _ ?s = _ => change s with st1 end.
    rewrite (IH st1) by (subst st1; cbn in *; lia).
    rewrite Hk. subst st1.
    cbn [processingBuffer bufferSize audioQueue set_processingBuffer
         set_audioQueue slices].
    rewrite drop_drop, <- app_assoc. cbn [app].
    replace (bufferSize st
             + length (drop (bufferSize st) (processingBuffer st))
               / bufferSize st * bufferSize st)%nat
      with (S (length (drop (bufferSize st) (processingBuffer st))
               / bufferSize st) * bufferSize st)%nat by lia.
    reflexivity.
  - rewrite Nat.div_small by lia. cbn [slices Nat.mul drop].
    rewrite app_nil_r. destruct st; reflexivity.
Qed.

(** With a buffer size of zero the loop test never fails. *)
Lemma rechunkLoop_zero (fuel : nat) (st : AudioStreamer) :
  bufferSize st = 0%nat → rechunkLoop fuel st = None.
Proof.
  revert st. induction fuel as [|fuel IH]; intros st HB; cbn [rechunkLoop];
    rewrite HB; cbn; [reflexivity |].
  apply IH. exact HB.
Qed.

Lemma typedArraySet_head (source : Float32Array) (n : nat) :
  typedArraySet (replicate (length source + n) 0%Q) source 0
  = inr (source ++ replicate n 0%Q).
Proof.
  unfold typedArraySet. rewrite length_replicate. cbn [Nat.add take app].
  destruct (Nat.leb_spec (length source) (length source + n)); [| lia].
  rewrite drop_replicate.
  replace (length source + n - length source)%nat with n by lia. reflexivity.
Qed.

Lemma typedArraySet_tail (kept source : Float32Array) :
  typedArraySet (kept ++ replicate (length source) 0%Q) source (length kept)
  = inr (kept ++ source).
Proof.
  unfold typedArraySet. rewrite length_app, length_replicate.
  destruct (Nat.leb_spec (length kept + length source)
              (length kept + length source)); [| lia].
  rewrite take_app_length.
  rewrite drop_ge by (rewrite length_app, length_replicate; lia).
  by rewrite app_nil_r.
Qed.

Lemma appendToProcessingBuffer_spec (float32Array : Float32Array)
    (st : AudioStreamer) :
  appendToProcessingBuffer float32Array st
  = Returns (set_processingBuffer (processingBuffer st ++ float32Array) st).
Proof.
  unfold appendToProcessingBuffer.
  rewrite typedArraySet_head, typedArraySet_tail. reflexivity.
Qed.

End Rechunking.

(** ** The scheduling pass *)

Section Scheduling.

Lemma Qlt_bool_iff (x y : Q) : Qlt_bool x y = true ↔ (x < y)%Q.
Proof.
  unfold Qlt_bool. rewrite negb_true_iff. split.
  - intros H. apply Qnot_le_lt. intros Hle.
    apply Qle_bool_iff in Hle. congruence.
  - intros H. destruct (Qle_bool y x) eqn:E; [| reflexivity].
    apply Qle_bool_iff in E. exfalso. exact (Qlt_not_le _ _ H E).
Qed.

Lemma Qlt_bool_false (x y : Q) : Qlt_bool x y = false ↔ (y <= x)%Q.
Proof.
  unfold Qlt_bool. rewrite negb_false_iff. apply Qle_bool_iff.
Qed.

Lemma createAudioBuffer_ok (st : AudioStreamer) (audioData : Float32Array) :
  (0 < sampleRate st)%Q → audioData ≠ [] →
  createAudioBuffer st audioData
  = inr (audioData, frameDuration (sampleRate st) audioData).
Proof.
  intros Hrate Hdata. unfold createAudioBuffer.
  apply Qlt_bool_iff in Hrate. rewrite Hrate.
  destruct audioData; [done | reflexivity].
Qed.

Lemma onlyScheduling_refl (st : AudioStreamer) : onlyScheduling st st.
Proof. unfold onlyScheduling. destruct st; reflexivity. Qed.

Lemma onlyScheduling_trans (st1 st2 st3 : AudioStreamer) :
  onlyScheduling st1 st2 → onlyScheduling st2 st3 → onlyScheduling st1 st3.
Proof.
  unfold onlyScheduling. intros H12 H23. rewrite H12 in H23. exact H23.
Qed.

(** One turn of the loop writes scheduling fields only. *)
Lemma onlyScheduling_turn (st : AudioStreamer) (rest : list Float32Array)
    (last : bool) (t : Q) (node : SourceNode) :
  let st1 := set_audioQueue rest st in
  let st2 := if last then trackEndOfQueue (length (sourceNodes st1)) st1 else st1 in
  onlyScheduling st
    (set_scheduledTime t (set_sourceNodes (sourceNodes st2 ++ [node]) st2)).
Proof.
  unfold onlyScheduling, trackEndOfQueue.
  destruct last; [destruct (endOfQueueAudioSource (set_audioQueue rest st)) eqn:E |];
    destruct st; cbn in *; try rewrite E; reflexivity.
Qed.

(** Whatever the outcome of the loop, only scheduling fields are written. *)
Lemma scheduleWhile_onlyScheduling (queue : list Float32Array)
    (st st' : AudioStreamer) :
  settle (scheduleWhile queue st) = Some st' → onlyScheduling st st'.
Proof.
  revert st. induction queue as [|audioData rest IH]; intros st H.
  - cbn in H. injection H as <-. apply onlyScheduling_refl.
  - cbn [scheduleWhile] in H.
    destruct (Qlt_bool _ _).
    + destruct (createAudioBuffer _ _) as [e | [data duration]].
      * cbn in H. injection H as <-.
        unfold onlyScheduling. destruct st; reflexivity.
      * eapply onlyScheduling_trans; [| apply IH; exact H].
        apply onlyScheduling_turn.
    + cbn in H. injection H as <-. apply onlyScheduling_refl.
Qed.

Lemma fmap_playback_disarm (i : nat) (l : list SourceNode) :
  playback <$> alter disarm i l = playback <$> l.
Proof.
  revert i. induction l as [|n l IH]; intros [|i]; cbn; [done | done | done |].
  f_equal. apply IH.
Qed.

Lemma fmap_playback_markEnded (i : nat) (l : list SourceNode) :
  playback <$> alter markEnded i l = playback <$> l.
Proof.
  revert i. induction l as [|n l IH]; intros [|i]; cbn; [done | done | done |].
  f_equal. apply IH.
Qed.

(** One turn of the loop on a well-formed object, by its effect. *)
Lemma scheduleWhile_cons (audioData : Float32Array)
    (rest : list Float32Array) (st : AudioStreamer) :
  Qlt_bool (scheduledTime st) (currentTime st + SCHEDULE_AHEAD_TIME) = true →
  (0 < sampleRate st)%Q → audioData ≠ [] →
  ∃ st2,
    scheduleWhile (audioData :: rest) st = scheduleWhile rest st2
    ∧ audioQueue st2 = rest
    ∧ sampleRate st2 = sampleRate st
    ∧ currentTime st2 = currentTime st
    ∧ scheduledTime st2
      = (Qmax (scheduledTime st) (currentTime st)
         + frameDuration (sampleRate st) audioData)%Q
    ∧ playback <$> sourceNodes st2
      = (playback <$> sourceNodes st)
          ++ [(audioData, Qmax (scheduledTime st) (currentTime st),
               frameDuration (sampleRate st) audioData)].
Proof.
  intros Hwin Hrate Hdata. cbn [scheduleWhile]. rewrite Hwin.
  rewrite createAudioBuffer_ok by (cbn; assumption).
  eexists. split; [reflexivity |].
  cbn [audioQueue set_audioQueue sourceNodes sampleRate].
  destruct (length rest =? 0)%nat;
    [unfold trackEndOfQueue; destruct (endOfQueueAudioSource _) |];
    cbn; rewrite ?fmap_app, ?fmap_playback_disarm; auto.
Qed.

(** On a well-formed object the loop returns; it hands a head segment of the
    queue to the output, in queue order, as a chain of sources, and stops
    with the queue empty or the scheduled time outside the window. *)
Lemma scheduleWhile_spec (queue : list Float32Array) (st : AudioStreamer) :
  audioQueue st = queue → (0 < sampleRate st)%Q →
  Forall (λ frame, frame ≠ []) queue →
  ∃ st' sched,
    scheduleWhile queue st = Returns st'
    ∧ playback <$> sourceNodes st' = (playback <$> sourceNodes st) ++ sched
    ∧ queue = ((λ p, p.1.1) <$> sched) ++ audioQueue st'
    ∧ chained (sampleRate st) (currentTime st) (scheduledTime st) sched
        (scheduledTime st')
    ∧ (audioQueue st' = []
       ∨ (currentTime st + SCHEDULE_AHEAD_TIME <= scheduledTime st')%Q).
Proof.
  revert st. induction queue as [|audioData rest IH]; intros st Hq Hrate Hne.
  - exists st, []. cbn. rewrite app_nil_r. repeat split; auto.
  - destruct (Qlt_bool (scheduledTime st)
                (currentTime st + SCHEDULE_AHEAD_TIME)) eqn:Hwin.
    + apply Forall_cons in Hne as [Hdata Hrest].
      destruct (scheduleWhile_cons audioData rest st Hwin Hrate Hdata)
        as (st2 & Heq & Hq2 & Hrate2 & Hnow2 & Ht2 & Hnodes2).
      destruct (IH st2) as (st' & sched & Hrun & Hnodes & Hqueue & Hchain & Hexit);
        [exact Hq2 | by rewrite Hrate2 | exact Hrest |].
      exists st', ((audioData, Qmax (scheduledTime st) (currentTime st),
                    frameDuration (sampleRate st) audioData) :: sched).
      rewrite Hrate2, Hnow2, Ht2 in Hchain. rewrite Hnow2 in Hexit.
      split; [by rewrite Heq |]. split; [| split; [| split]].
      * rewrite Hnodes, Hnodes2, <- app_assoc. reflexivity.
      * cbn. f_equal. exact Hqueue.
      * cbn [chained]. apply Qlt_bool_iff in Hwin. repeat split; assumption.
      * exact Hexit.
    + exists st, []. cbn [scheduleWhile]. rewrite Hwin. cbn.
      rewrite app_nil_r, Hq.
      apply Qlt_bool_false in Hwin. repeat split; auto.
Qed.


End Scheduling.

(** ** Whole calls on well-formed objects *)

Section Calls.

Lemma onlyScheduling_fields (st st' : AudioStreamer) :
  onlyScheduling st st' →
  isPlaying st' = isPlaying st ∧ sampleRate st' = sampleRate st
  ∧ bufferSize st' = bufferSize st
  ∧ processingBuffer st' = processingBuffer st
  ∧ isStreamComplete st' = isStreamComplete st
  ∧ currentTime st' = currentTime st ∧ timers st' = timers st
  ∧ onCompleteCalls st' = onCompleteCalls st
  ∧ recognizerCalls st' = recognizerCalls st
  ∧ isRecognitionActive st' = isRecognitionActive st
  ∧ speechRecognizer st' = speechRecognizer st
  ∧ gainNode st' = gainNode st.
Proof. intros H. rewrite H. repeat split; reflexivity. Qed.

Lemma frames_scheduleWhile (st st' : AudioStreamer)
    (sched : list (list Q * Q * Q)) :
  playback <$> sourceNodes st' = (playback <$> sourceNodes st) ++ sched →
  audioQueue st = ((λ p, p.1.1) <$> sched) ++ audioQueue st' →
  frames st' = frames st.
Proof.
  intros Hnodes Hqueue. unfold frames. rewrite Hqueue, app_assoc. f_equal.
  assert (Hbuf : ∀ l : list SourceNode,
             nodeBuffer <$> l = (λ p, p.1.1) <$> (playback <$> l)).
  { intros l. rewrite <- list_fmap_compose. reflexivity. }
  rewrite !Hbuf, Hnodes, fmap_app. reflexivity.
Qed.

Lemma wf_suffix (st st' : AudioStreamer) (front : list (list Q)) :
  wf st → bufferSize st' = bufferSize st → sampleRate st' = sampleRate st →
  audioQueue st = front ++ audioQueue st' → wf st'.
Proof.
  intros (HB & Hrate & Hq) HB' Hrate' Hqueue. unfold wf.
  rewrite HB', Hrate'. repeat split; [assumption | assumption |].
  rewrite Hqueue in Hq. by apply Forall_app in Hq as [_ Hq].
Qed.

Lemma finishOrRearm_fields (st : AudioStreamer) :
  audioQueue (finishOrRearm st) = audioQueue st
  ∧ processingBuffer (finishOrRearm st) = processingBuffer st
  ∧ sourceNodes (finishOrRearm st) = sourceNodes st
  ∧ scheduledTime (finishOrRearm st) = scheduledTime st
  ∧ endOfQueueAudioSource (finishOrRearm st) = endOfQueueAudioSource st
  ∧ bufferSize (finishOrRearm st) = bufferSize st
  ∧ sampleRate (finishOrRearm st) = sampleRate st
  ∧ isStreamComplete (finishOrRearm st) = isStreamComplete st
  ∧ currentTime (finishOrRearm st) = currentTime st
  ∧ onCompleteCalls (finishOrRearm st) = onCompleteCalls st
  ∧ recognizerCalls (finishOrRearm st) = recognizerCalls st
  ∧ isRecognitionActive (finishOrRearm st) = isRecognitionActive st
  ∧ speechRecognizer (finishOrRearm st) = speechRecognizer st
  ∧ gainNode (finishOrRearm st) = gainNode st.
Proof.
  unfold finishOrRearm.
  destruct (_ && _); [destruct (isStreamComplete st) eqn:E |];
    repeat split; try reflexivity; exact E.
Qed.

Lemma finishOrRearm_isPlaying (st : AudioStreamer) :
  isPlaying (finishOrRearm st)
  = isPlaying st
    && negb ((length (audioQueue st) =? 0)%nat
             && (length (processingBuffer st) =? 0)%nat
             && isStreamComplete st).
Proof.
  unfold finishOrRearm.
  destruct (_ && _); [destruct (isStreamComplete st) |]; cbn;
    by rewrite ?andb_true_r, ?andb_false_r.
Qed.

(** A pass on a well-formed object returns: the loop's result, then the
    stop-or-re-arm step. *)
Lemma scheduleNextBuffer_spec (st : AudioStreamer) :
  wf st →
  ∃ st1 sched,
    scheduleNextBuffer st = Returns (finishOrRearm st1)
    ∧ scheduleWhile (audioQueue st) st = Returns st1
    ∧ onlyScheduling st st1
    ∧ playback <$> sourceNodes st1 = (playback <$> sourceNodes st) ++ sched
    ∧ audioQueue st = ((λ p, p.1.1) <$> sched) ++ audioQueue st1
    ∧ chained (sampleRate st) (currentTime st) (scheduledTime st) sched
        (scheduledTime st1)
    ∧ (audioQueue st1 = []
       ∨ (currentTime st + SCHEDULE_AHEAD_TIME <= scheduledTime st1)%Q).
Proof.
  intros (HB & Hrate & Hq).
  destruct (scheduleWhile_spec (audioQueue st) st eq_refl Hrate Hq)
    as (st1 & sched & Hrun & Hrest).
  exists st1, sched. unfold scheduleNextBuffer. rewrite Hrun.
  split; [reflexivity |]. split; [reflexivity |]. split; [| exact Hrest].
  apply (scheduleWhile_onlyScheduling (audioQueue st)). rewrite Hrun. reflexivity.
Qed.

Lemma keepsSources_same (st st' : AudioStreamer) :
  sourceNodes st' = sourceNodes st → keepsSources st st'.
Proof. intros H. exists []. by rewrite H, app_nil_r. Qed.

Lemma nodeBuffer_playback (l : list SourceNode) :
  nodeBuffer <$> l = (λ p, p.1.1) <$> (playback <$> l).
Proof. rewrite <- list_fmap_compose. reflexivity. Qed.

(** The frames that went from the queue to the output between two objects. *)
Lemma startedBetween_frames (st st' : AudioStreamer)
    (newFrames : list (list Q)) :
  keepsSources st st' → frames st' = frames st ++ newFrames →
  (nodeBuffer <$> startedBetween st st') ++ audioQueue st'
  = audioQueue st ++ newFrames.
Proof.
  intros [sched Hnodes] Hframes. unfold startedBetween, frames in *.
  assert (Hbuf : nodeBuffer <$> sourceNodes st'
                 = (nodeBuffer <$> sourceNodes st) ++ ((λ p, p.1.1) <$> sched)).
  { rewrite !nodeBuffer_playback, Hnodes, fmap_app. reflexivity. }
  rewrite fmap_drop, Hbuf.
  rewrite drop_app_length' by (by rewrite length_fmap).
  rewrite Hbuf, <- !app_assoc in Hframes.
  by apply app_inv_head in Hframes.
Qed.

Lemma scheduleNextBuffer_wf (st : AudioStreamer) :
  wf st →
  ∃ st', scheduleNextBuffer st = Returns st' ∧ wf st'
         ∧ frames st' = frames st
         ∧ processingBuffer st' = processingBuffer st
         ∧ keepsSources st st'.
Proof.
  intros Hwf.
  destruct (scheduleNextBuffer_spec st Hwf)
    as (st1 & sched & Hrun & _ & Honly & Hnodes & Hqueue & _ & _).
  destruct (onlyScheduling_fields _ _ Honly)
    as (_ & Hrate & HB & Hpb & _).
  destruct (finishOrRearm_fields st1)
    as (Hq' & Hpb' & Hn' & _ & _ & HB' & Hrate' & _).
  exists (finishOrRearm st1). split; [exact Hrun |].
  split; [| split; [| split]].
  - eapply (wf_suffix st); [exact Hwf | congruence | congruence |].
    rewrite Hq'. exact Hqueue.
  - unfold frames at 1. rewrite Hq', Hn'.
    apply (frames_scheduleWhile st st1 sched Hnodes Hqueue).
  - congruence.
  - exists sched. by rewrite Hn'.
Qed.

Lemma wf_startRecognitionForStream (startOk : bool) (st : AudioStreamer) :
  wf st → wf (startRecognitionForStream startOk st).
Proof.
  unfold startRecognitionForStream.
  destruct (_ && _); [destruct startOk |]; auto.
Qed.

Lemma startRecognitionForStream_fields (startOk : bool) (st : AudioStreamer) :
  let st' := startRecognitionForStream startOk st in
  audioQueue st' = audioQueue st
  ∧ processingBuffer st' = processingBuffer st
  ∧ sourceNodes st' = sourceNodes st
  ∧ bufferSize st' = bufferSize st
  ∧ onCompleteCalls st' = onCompleteCalls st
  ∧ isPlaying st' = isPlaying st
  ∧ isStreamComplete st' = isStreamComplete st.
Proof.
  unfold startRecognitionForStream.
  destruct (_ && _); [destruct startOk |]; repeat split; reflexivity.
Qed.

(** Lines 404-433 on a well-formed object: the call returns; the frames cut
    off the accumulated samples go behind those already there, and the rest
    stays in the accumulation buffer. *)
Lemma enqueuePCM16_spec (chunk : Uint8Array) (st : AudioStreamer) :
  wf st →
  let samples := processingBuffer st ++ pcm16Samples chunk in
  let k := (length samples / bufferSize st)%nat in
  ∃ st',
    enqueuePCM16 chunk st = Returns st' ∧ wf st'
    ∧ frames st' = frames st ++ slices (bufferSize st) k samples
    ∧ processingBuffer st' = drop (k * bufferSize st) samples
    ∧ bufferSize st' = bufferSize st
    ∧ keepsSources st st'
    ∧ (isPlaying st = true →
       audioQueue st' = audioQueue st ++ slices (bufferSize st) k samples
       ∧ sourceNodes st' = sourceNodes st ∧ isPlaying st' = true)
    ∧ (processingBuffer st' ≠ [] ∨ audioQueue st' ≠ []
       ∨ isStreamComplete st = false → isPlaying st' = true).
Proof.
  intros Hwf samples k. pose proof Hwf as (HB & Hrate & Hq).
  unfold enqueuePCM16.
  rewrite convert_spec, appendToProcessingBuffer_spec.
  rewrite rechunkLoop_spec; cbn [bufferSize processingBuffer set_processingBuffer];
    [| exact HB |].
  2:{ fold samples. apply Nat.lt_succ_r, Nat.Div0.div_le_upper_bound.
      destruct (bufferSize st); [lia | cbn; lia]. }
  fold samples. fold k.
  cbn [audioQueue set_processingBuffer set_audioQueue].
  set (st2 := set_processingBuffer _ _).
  assert (Hwf2 : wf st2).
  { subst st2. unfold wf. cbn. repeat split; [assumption | assumption |].
    apply Forall_app. split; [exact Hq |].
    assert (Hfull : (k * bufferSize st ≤ length samples)%nat).
    { subst k. rewrite Nat.mul_comm. apply Nat.Div0.mul_div_le. }
    eapply Forall_impl; [apply (slices_full _ _ _ Hfull) |].
    cbn. intros frame Hlen ->. cbn in Hlen. lia. }
  assert (Hframes2 : frames st2 = frames st ++ slices (bufferSize st) k samples).
  { subst st2. unfold frames. cbn. by rewrite app_assoc. }
  destruct (isPlaying st) eqn:Hplay.
  - change (isPlaying st2) with (isPlaying st). rewrite Hplay. cbn [negb].
    exists st2. split; [reflexivity |]. split; [exact Hwf2 |].
    split; [exact Hframes2 |]. split; [reflexivity |]. split; [reflexivity |].
    split; [by apply keepsSources_same |].
    split; intros _; repeat split; assumption.
  - change (isPlaying st2) with (isPlaying st). rewrite Hplay. cbn [negb].
    set (st3 := set_scheduledTime _ _).
    assert (Hwf3 : wf st3) by exact Hwf2.
    destruct (scheduleNextBuffer_wf st3 Hwf3)
      as (st' & Hrun & Hwf' & Hfr & Hpb & Hkeep).
    exists st'. split; [exact Hrun |]. split; [exact Hwf' |].
    split; [by rewrite Hfr |]. split; [by rewrite Hpb |].
    destruct (scheduleNextBuffer_spec st3 Hwf3)
      as (st1 & ? & Hrun' & _ & Honly & _).
    rewrite Hrun in Hrun'. injection Hrun' as ->.
    destruct (onlyScheduling_fields _ _ Honly)
      as (Hplay1 & _ & HB1 & Hpb1 & Hdone1 & _).
    destruct (finishOrRearm_fields st1)
      as (Hq2 & Hpb2 & _ & _ & _ & HB2 & _).
    split; [by rewrite HB2, HB1 |]. split; [exact Hkeep |]. split; [done |].
    intros Hlive. rewrite finishOrRearm_isPlaying, Hplay1. cbn.
    rewrite Hq2, Hpb2 in Hlive.
    destruct (audioQueue st1) as [|? ?]; [| reflexivity].
    destruct (processingBuffer st1) as [|? ?]; [| reflexivity].
    rewrite Hdone1. cbn.
    destruct Hlive as [? | [? | Hdone]]; [done | done |].
    change (isStreamComplete st3) with (isStreamComplete st).
    by rewrite Hdone.
Qed.

(** [addPCM16] on a well-formed object: as lines 404-433, the attempt to
    start the recognizer having moved no sample. *)
Lemma addPCM16_spec (chunk : Uint8Array) (startOk : bool) (st : AudioStreamer) :
  wf st →
  let samples := processingBuffer st ++ pcm16Samples chunk in
  let k := (length samples / bufferSize st)%nat in
  ∃ st',
    addPCM16 chunk startOk st = Returns st' ∧ wf st'
    ∧ frames st' = frames st ++ slices (bufferSize st) k samples
    ∧ processingBuffer st' = drop (k * bufferSize st) samples
    ∧ bufferSize st' = bufferSize st
    ∧ keepsSources st st'
    ∧ (isPlaying st = true →
       audioQueue st' = audioQueue st ++ slices (bufferSize st) k samples
       ∧ sourceNodes st' = sourceNodes st ∧ isPlaying st' = true)
    ∧ (processingBuffer st' ≠ [] ∨ audioQueue st' ≠ []
       ∨ isStreamComplete st = false → isPlaying st' = true).
Proof.
  intros Hwf. unfold addPCM16.
  destruct (startRecognitionForStream_fields startOk st)
    as (Hq & Hpb & Hn & HB & _ & Hplay & Hdone).
  pose proof (enqueuePCM16_spec chunk _
                (wf_startRecognitionForStream startOk st Hwf)) as H.
  cbn zeta in H. unfold frames, keepsSources in *.
  rewrite Hq, Hpb, Hn, HB, Hplay, Hdone in H. exact H.
Qed.

Lemma addPCM16_heard (chunk : Uint8Array) (startOk : bool) (st : AudioStreamer) :
  wf st →
  ∃ st', addPCM16 chunk startOk st = Returns st' ∧ wf st'
         ∧ heard st' = heard st ++ pcm16Samples chunk.
Proof.
  intros Hwf.
  destruct (addPCM16_spec chunk startOk st Hwf)
    as (st' & Hrun & Hwf' & Hframes & Hpb & _).
  exists st'. split; [exact Hrun |]. split; [exact Hwf' |].
  unfold heard. rewrite Hframes, Hpb, concat_app, <- !app_assoc.
  by rewrite slices_concat.
Qed.

End Calls.

(** ** Events: what every step keeps of the samples *)

Section Events.

Lemma sameSound_refl (st : AudioStreamer) : sameSound st st.
Proof. unfold sameSound. repeat split; reflexivity. Qed.

Lemma sameSound_wf (st st' : AudioStreamer) : sameSound st st' → wf st → wf st'.
Proof.
  intros (Hq & _ & _ & HB & Hrate) (? & ? & ?). unfold wf.
  rewrite Hq, HB, Hrate. auto.
Qed.

Lemma sameSound_frames (st st' : AudioStreamer) :
  sameSound st st' → frames st' = frames st.
Proof.
  intros (Hq & _ & Hn & _). unfold frames.
  by rewrite !nodeBuffer_playback, Hn, Hq.
Qed.

Lemma sameSound_heard (st st' : AudioStreamer) :
  sameSound st st' → heard st' = heard st.
Proof.
  intros H. unfold heard. rewrite (sameSound_frames _ _ H).
  destruct H as (_ & Hpb & _). by rewrite Hpb.
Qed.

Lemma soundStep_sameSound (ev : event) (st st' : AudioStreamer) :
  ingestedBy ev = [] → wf st → sameSound st st' → soundStep ev st st'.
Proof.
  intros Hev Hwf Hsame. split; [by apply (sameSound_wf st) |].
  intros _. rewrite Hev, app_nil_r, (sameSound_heard _ _ Hsame),
    (sameSound_frames _ _ Hsame). done.
Qed.

Lemma complete_sound (st : AudioStreamer) :
  wf st →
  ∃ st', complete st = Returns st' ∧ wf st' ∧ heard st' = heard st
         ∧ frames st `prefix_of` frames st'.
Proof.
  intros Hwf. unfold complete.
  cbn [processingBuffer set_isStreamComplete isPlaying audioQueue
       set_audioQueue set_processingBuffer].
  destruct (processingBuffer st) as [|sample rest] eqn:Hpb; cbn [length Nat.ltb Nat.leb].
  - eexists. split; [reflexivity |].
    split; [exact Hwf |]. split; [reflexivity | done].
  - set (st2 := set_processingBuffer [] _).
    assert (Hwf2 : wf st2).
    { destruct Hwf as (HB & Hrate & Hq). unfold wf. subst st2. cbn.
      repeat split; [assumption | assumption |].
      apply Forall_app. split; [exact Hq | by repeat constructor]. }
    assert (Hframes2 : frames st2 = frames st ++ [sample :: rest]).
    { subst st2. unfold frames. cbn. by rewrite app_assoc. }
    assert (Hheard2 : heard st2 = heard st).
    { unfold heard. rewrite Hframes2, Hpb. subst st2. cbn.
      rewrite concat_app. cbn. by rewrite !app_nil_r. }
    destruct (isPlaying st).
    + destruct (scheduleNextBuffer_wf st2 Hwf2)
        as (st' & Hrun & Hwf' & Hfr & Hpb' & _).
      exists st'. split; [exact Hrun |]. split; [exact Hwf' |]. split.
      * unfold heard. rewrite Hfr, Hpb'. exact Hheard2.
      * rewrite Hfr, Hframes2. by apply prefix_app_r.
    + exists st2. split; [reflexivity |]. split; [exact Hwf2 |].
      split; [exact Hheard2 |]. rewrite Hframes2. by apply prefix_app_r.
Qed.

Lemma resume_sameSound (st : AudioStreamer) :
  ∃ st', resume st = Returns st' ∧ sameSound st st'.
Proof.
  unfold resume.
  destruct (contextState st); eexists; (split; [reflexivity |]); same_sound.
Qed.

Lemma resumeSettled_sameSound (fulfilled : bool) (st st' : AudioStreamer) :
  settle (resumeSettled fulfilled st) = Some st' → sameSound st st'.
Proof.
  unfold resumeSettled. destruct fulfilled; cbn; intros [= <-]; same_sound.
Qed.

Lemma stop_wf (stopOk : bool) (st : AudioStreamer) :
  wf st → ∃ st', stop stopOk st = Returns st' ∧ wf st'.
Proof.
  intros (HB & Hrate & _). unfold stop.
  destruct (_ && _); [destruct stopOk |]; eexists; (split; [reflexivity |]);
    unfold wf; cbn; repeat split; auto.
Qed.

Lemma restartRecognitionCallback_sameSound (startOk : bool)
    (st st' : AudioStreamer) :
  settle (restartRecognitionCallback startOk st) = Some st' → sameSound st st'.
Proof.
  unfold restartRecognitionCallback.
  destruct (negb _); [destruct (speechRecognizer st); [destruct startOk |] |];
    cbn; intros [= <-]; same_sound.
Qed.

Lemma runTimer_sound (callback : TimerCallback) (startOk : bool)
    (ev : event) (st st' : AudioStreamer) :
  ingestedBy ev = [] → wf st →
  settle (runTimer callback startOk st) = Some st' → soundStep ev st st'.
Proof.
  intros Hev Hwf. destruct callback; cbn [runTimer].
  - destruct (scheduleNextBuffer_wf st Hwf)
      as (st1 & Hrun & Hwf1 & Hfr & Hpb & _).
    rewrite Hrun. cbn. intros [= <-]. split; [exact Hwf1 |].
    intros _. unfold heard. by rewrite Hev, app_nil_r, Hfr, Hpb.
  - intros H. apply soundStep_sameSound; [exact Hev | exact Hwf |].
    by apply (restartRecognitionCallback_sameSound startOk).
  - cbn. intros [= <-]. apply soundStep_sameSound; [exact Hev | exact Hwf |].
    same_sound.
Qed.

Lemma onendedHandler_sameSound (source : nat) (st : AudioStreamer) :
  sameSound st (onendedHandler source st).
Proof.
  unfold onendedHandler. destruct (_ && _); same_sound.
Qed.

Lemma onerror_sameSound (noSpeech : bool) (st : AudioStreamer) :
  sameSound st (onerror noSpeech st).
Proof.
  unfold onerror, restartRecognition.
  destruct noSpeech; [destruct (isRecognitionActive st) |]; same_sound.
Qed.

Lemma onend_sameSound (st : AudioStreamer) : sameSound st (onend st).
Proof.
  unfold onend, restartRecognition. cbn.
  destruct (_ && _); same_sound.
Qed.

Lemma sameSound_trans (st1 st2 st3 : AudioStreamer) :
  sameSound st1 st2 → sameSound st2 st3 → sameSound st1 st3.
Proof.
  intros (? & ? & ? & ? & ?) (? & ? & ? & ? & ?). unfold sameSound.
  repeat split; congruence.
Qed.

Lemma dispatch_sound (ev : event) (st st' : AudioStreamer) :
  wf st → dispatch ev st = Some st' → soundStep ev st st'.
Proof.
  intros Hwf.
  destruct ev as [chunk ok | | ok | | i ok | source | noSpeech | | fulfilled];
    cbn [dispatch].
  - destruct (addPCM16_spec chunk ok st Hwf)
      as (st1 & Hrun & Hwf1 & Hframes & _).
    destruct (addPCM16_heard chunk ok st Hwf) as (st2 & Hrun2 & _ & Hheard).
    rewrite Hrun in Hrun2. injection Hrun2 as <-.
    rewrite Hrun. cbn. intros [= <-]. split; [exact Hwf1 |].
    intros _. split; [exact Hheard |]. rewrite Hframes. by apply prefix_app_r.
  - destruct (complete_sound st Hwf) as (st1 & Hrun & Hwf1 & Hheard & Hpre).
    rewrite Hrun. cbn. intros [= <-]. split; [exact Hwf1 |].
    intros _. by rewrite app_nil_r.
  - destruct (stop_wf ok st Hwf) as (st1 & Hrun & Hwf1).
    rewrite Hrun. cbn. intros [= <-]. split; [exact Hwf1 | done].
  - destruct (resume_sameSound st) as (st1 & Hrun & Hsame).
    rewrite Hrun. cbn. intros [= <-]. by apply soundStep_sameSound.
  - destruct (timers st !! i) as [t|]; [| done].
    destruct (Qle_bool _ _); [| done].
    intros H.
    assert (Hstep : soundStep (Timeout i ok)
                      (set_timers (delete i (timers st)) st) st').
    { eapply runTimer_sound; [reflexivity | exact Hwf | exact H]. }
    exact Hstep.
  - destruct (sourceNodes st !! source) as [n|]; [| done].
    destruct (_ && _); [| done].
    intros [= <-]. apply soundStep_sameSound; [reflexivity | exact Hwf |].
    eapply (sameSound_trans _
              (set_sourceNodes (alter markEnded source (sourceNodes st)) st)).
    + unfold sameSound. cbn. rewrite fmap_playback_markEnded.
      repeat split; reflexivity.
    + destruct (onended n);
        [apply onendedHandler_sameSound | apply sameSound_refl].
  - destruct (speechRecognizer st); [| done].
    intros [= <-]. apply soundStep_sameSound; [reflexivity | exact Hwf |].
    apply onerror_sameSound.
  - destruct (speechRecognizer st); [| done].
    intros [= <-]. apply soundStep_sameSound; [reflexivity | exact Hwf |].
    apply onend_sameSound.
  - destruct (0 <? _)%nat; [| done].
    intros H. apply soundStep_sameSound; [reflexivity | exact Hwf |].
    by apply (resumeSettled_sameSound fulfilled).
Qed.

Lemma step_sound (now : Q) (ev : event) (st st' : AudioStreamer) :
  wf st → step now ev st = Some st' → soundStep ev st st'.
Proof.
  intros Hwf. unfold step. destruct (Qle_bool _ _); [| done].
  intros H. exact (dispatch_sound ev (set_currentTime now st) st' Hwf H).
Qed.

Lemma run_sound (trace : list (Q * event)) (st st' : AudioStreamer) :
  wf st → run trace st = Some st' →
  wf st'
  ∧ (noStop trace →
     heard st' = heard st ++ ingested trace
     ∧ frames st `prefix_of` frames st').
Proof.
  revert st. induction trace as [|[now ev] trace IH]; intros st Hwf Hrun.
  - cbn in Hrun. injection Hrun as <-. split; [exact Hwf |].
    intros _. cbn. by rewrite app_nil_r.
  - cbn [run] in Hrun.
    destruct (step now ev st) as [st1|] eqn:Hstep; [| done].
    destruct (step_sound now ev st st1 Hwf Hstep) as [Hwf1 Hone].
    destruct (IH st1 Hwf1 Hrun) as [Hwf' Hrest].
    split; [exact Hwf' |].
    intros Hno. apply Forall_cons in Hno as [Hev Hno]. cbn in Hev.
    destruct (Hone Hev) as [Hheard1 Hpre1].
    destruct (Hrest Hno) as [Hheard' Hpre'].
    split.
    + cbn [ingested]. by rewrite Hheard', Hheard1, app_assoc.
    + by etrans.
Qed.

End Events.

(** ** Events: what every step keeps of the control state *)

Section ControlState.

Lemma onlyPlayback_refl (st : AudioStreamer) : onlyPlayback st st.
Proof. unfold onlyPlayback. destruct st; reflexivity. Qed.

Lemma onlyPlayback_trans (st1 st2 st3 : AudioStreamer) :
  onlyPlayback st1 st2 → onlyPlayback st2 st3 → onlyPlayback st1 st3.
Proof.
  unfold onlyPlayback. intros H12 H23. rewrite H12 in H23. exact H23.
Qed.

Lemma onlyScheduling_onlyPlayback (st st' : AudioStreamer) :
  onlyScheduling st st' → onlyPlayback st st'.
Proof.
  unfold onlyScheduling, onlyPlayback. intros H. rewrite H.
  destruct st; reflexivity.
Qed.

Lemma onlyPlayback_fields (st st' : AudioStreamer) :
  onlyPlayback st st' →
  recognizerCalls st' = recognizerCalls st
  ∧ isRecognitionActive st' = isRecognitionActive st
  ∧ speechRecognizer st' = speechRecognizer st
  ∧ onCompleteCalls st' = onCompleteCalls st
  ∧ isStreamComplete st' = isStreamComplete st.
Proof. intros H. rewrite H. repeat split; reflexivity. Qed.

Lemma finishOrRearm_onlyPlayback (st : AudioStreamer) :
  onlyPlayback st (finishOrRearm st).
Proof.
  unfold finishOrRearm, onlyPlayback.
  destruct (_ && _); [destruct (isStreamComplete st) |];
    destruct st; reflexivity.
Qed.

(** Whatever the outcome of a pass: only playback fields are written, the
    accumulation buffer is not, and [isPlaying] is cleared on a completed
    stream only. *)
Lemma settle_scheduleNextBuffer (st st' : AudioStreamer) :
  settle (scheduleNextBuffer st) = Some st' →
  onlyPlayback st st'
  ∧ (isStreamComplete st = false → isPlaying st' = isPlaying st).
Proof.
  unfold scheduleNextBuffer. intros H.
  destruct (scheduleWhile (audioQueue st) st) as [st1 | e st1 |] eqn:Hloop;
    [| | done].
  - assert (Honly : onlyScheduling st st1).
    { apply (scheduleWhile_onlyScheduling (audioQueue st)). by rewrite Hloop. }
    cbn in H. injection H as <-. split.
    + eapply onlyPlayback_trans;
        [by apply onlyScheduling_onlyPlayback | apply finishOrRearm_onlyPlayback].
    + destruct (onlyScheduling_fields _ _ Honly) as (Hplay & _ & _ & _ & Hdone & _).
      intros Hlive. rewrite finishOrRearm_isPlaying, Hdone, Hlive, Hplay.
      by rewrite andb_false_r, andb_true_r.
  - assert (Honly : onlyScheduling st st1).
    { apply (scheduleWhile_onlyScheduling (audioQueue st)). by rewrite Hloop. }
    cbn in H. injection H as <-. split.
    + by apply onlyScheduling_onlyPlayback.
    + intros _. by destruct (onlyScheduling_fields _ _ Honly) as (Hplay & _).
Qed.

Lemma rechunkLoop_onlyPlayback (fuel : nat) (st st' : AudioStreamer) :
  rechunkLoop fuel st = Some st' →
  onlyPlayback st st' ∧ isPlaying st' = isPlaying st.
Proof.
  revert st. induction fuel as [|fuel IH]; intros st; cbn [rechunkLoop];
    destruct (_ <=? _)%nat; try done.
  - intros [= <-]. split; [apply onlyPlayback_refl | reflexivity].
  - intros H. destruct (IH _ H) as [Honly Hplay]. split; [| exact Hplay].
    eapply onlyPlayback_trans; [| exact Honly].
    unfold onlyPlayback. destruct st; reflexivity.
  - intros [= <-]. split; [apply onlyPlayback_refl | reflexivity].
Qed.

Lemma settle_enqueuePCM16 (chunk : Uint8Array) (st st' : AudioStreamer) :
  settle (enqueuePCM16 chunk st) = Some st' →
  onlyPlayback st st'
  ∧ (isStreamComplete st = false → isPlaying st' = true).
Proof.
  unfold enqueuePCM16.
  rewrite convert_spec, appendToProcessingBuffer_spec.
  destruct (rechunkLoop _ _) as [st2|] eqn:Hloop; [| done].
  destruct (rechunkLoop_onlyPlayback _ _ _ Hloop) as [Honly2 Hplay2].
  cbn in Hplay2.
  assert (Honly : onlyPlayback st st2).
  { eapply onlyPlayback_trans; [| exact Honly2].
    unfold onlyPlayback. destruct st; reflexivity. }
  destruct (onlyPlayback_fields _ _ Honly) as (_ & _ & _ & _ & Hdone2).
  destruct (isPlaying st2) eqn:Hp; cbn [negb].
  - cbn. intros [= <-]. split; [exact Honly | done].
  - intros H. apply settle_scheduleNextBuffer in H as [Hpass Hkeep]. split.
    + eapply onlyPlayback_trans; [exact Honly |].
      eapply onlyPlayback_trans; [| exact Hpass].
      unfold onlyPlayback. destruct st2; reflexivity.
    + intros Hlive. rewrite Hkeep; [reflexivity |]. cbn. congruence.
Qed.

Lemma settle_complete (st st' : AudioStreamer) :
  settle (complete st) = Some st' →
  recognizerCalls st' = recognizerCalls st
  ∧ isRecognitionActive st' = isRecognitionActive st
  ∧ speechRecognizer st' = speechRecognizer st.
Proof.
  unfold complete. cbn [processingBuffer set_isStreamComplete].
  destruct (0 <? _)%nat.
  - cbn [isPlaying set_processingBuffer set_audioQueue set_isStreamComplete].
    destruct (isPlaying st).
    + intros H. apply settle_scheduleNextBuffer in H as [Honly _].
      by destruct (onlyPlayback_fields _ _ Honly) as (? & ? & ? & _).
    + cbn. by intros [= <-].
  - cbn. by intros [= <-].
Qed.

Lemma guardedStarts_same (st st' : AudioStreamer) :
  recognizerCalls st' = recognizerCalls st → guardedStarts st → guardedStarts st'.
Proof. unfold guardedStarts. by intros ->. Qed.

Lemma countStarts_app (calls calls' : list RecognizerCall) :
  countStarts (calls ++ calls') = (countStarts calls + countStarts calls')%nat.
Proof.
  induction calls as [|[active|] calls IH]; cbn; [done | by rewrite IH | exact IH].
Qed.

Lemma guardedStep_same (st st' : AudioStreamer) :
  recognizerCalls st' = recognizerCalls st → guardedStep st st'.
Proof.
  intros H. split; [by apply guardedStarts_same |].
  intros _. unfold startCalls. by rewrite H.
Qed.

Lemma guardedStep_addPCM16 (chunk : Uint8Array) (startOk : bool)
    (st st' : AudioStreamer) :
  settle (addPCM16 chunk startOk st) = Some st' → guardedStep st st'.
Proof.
  unfold addPCM16. intros H.
  apply settle_enqueuePCM16 in H as [Honly _].
  destruct (onlyPlayback_fields _ _ Honly) as (Hcalls & _).
  unfold guardedStep, guardedStarts, startCalls. rewrite Hcalls.
  unfold startRecognitionForStream.
  destruct (speechRecognizer st), (isRecognitionActive st); cbn;
    [done | | done | done].
  split; [| done]. intros Hg.
  destruct startOk; cbn; (apply Forall_app; split; [exact Hg |]);
    by repeat constructor.
Qed.

Lemma guardedStep_restartRecognitionCallback (startOk : bool)
    (st st' : AudioStreamer) :
  settle (restartRecognitionCallback startOk st) = Some st' →
  guardedStep st st'.
Proof.
  unfold restartRecognitionCallback.
  destruct (isRecognitionActive st) eqn:Hactive; cbn [negb].
  - cbn. intros [= <-]. by apply guardedStep_same.
  - destruct (speechRecognizer st); [destruct startOk |]; cbn;
      intros [= <-]; (split; [| intros; congruence]);
      unfold guardedStarts; cbn; try done;
      intros Hg; (apply Forall_app; split; [exact Hg |]);
      by repeat constructor.
Qed.

Lemma guardedStep_stop (stopOk : bool) (st st' : AudioStreamer) :
  settle (stop stopOk st) = Some st' → guardedStep st st'.
Proof.
  unfold stop.
  destruct (_ && _); [destruct stopOk |]; cbn; intros [= <-];
    try (by apply guardedStep_same);
    (split; unfold guardedStarts, startCalls; cbn;
     [intros Hg; apply Forall_app; split; [exact Hg | by repeat constructor]
     | intros _; rewrite countStarts_app; cbn; lia]).
Qed.

Lemma guardedStep_dispatch (ev : event) (st st' : AudioStreamer) :
  dispatch ev st = Some st' → guardedStep st st'.
Proof.
  destruct ev as [chunk ok | | ok | | i ok | source | noSpeech | | fulfilled];
    cbn [dispatch].
  - apply guardedStep_addPCM16.
  - intros H. apply settle_complete in H as (Hcalls & _).
    by apply guardedStep_same.
  - apply guardedStep_stop.
  - unfold resume.
    destruct (contextState st); cbn; intros [= <-]; by apply guardedStep_same.
  - destruct (timers st !! i) as [t|]; [| done].
    destruct (Qle_bool _ _); [| done].
    destruct (timerCallback t); cbn [runTimer].
    + intros H. apply settle_scheduleNextBuffer in H as [Honly _].
      destruct (onlyPlayback_fields _ _ Honly) as (Hcalls & _).
      by apply guardedStep_same.
    + intros H.
      exact (guardedStep_restartRecognitionCallback ok
               (set_timers (delete i (timers st)) st) st' H).
    + cbn. intros [= <-]. by apply guardedStep_same.
  - destruct (sourceNodes st !! source) as [n|]; [| done].
    destruct (_ && _); [| done].
    intros [= <-]. apply guardedStep_same.
    destruct (onended n); [| reflexivity].
    unfold onendedHandler. by destruct (_ && _).
  - destruct (speechRecognizer st); [| done].
    intros [= <-]. apply guardedStep_same.
    unfold onerror, restartRecognition.
    by destruct noSpeech; [destruct (isRecognitionActive st) |].
  - destruct (speechRecognizer st); [| done].
    intros [= <-]. apply guardedStep_same.
    unfold onend, restartRecognition. cbn. by destruct (_ && _).
  - destruct (0 <? _)%nat; [| done]. unfold resumeSettled.
    destruct fulfilled; cbn; intros [= <-]; by apply guardedStep_same.
Qed.

Lemma guardedStep_step (now : Q) (ev : event) (st st' : AudioStreamer) :
  step now ev st = Some st' → guardedStep st st'.
Proof.
  unfold step. destruct (Qle_bool _ _); [| done].
  intros H. exact (guardedStep_dispatch ev (set_currentTime now st) st' H).
Qed.

Lemma guardedStarts_run (trace : list (Q * event)) (st st' : AudioStreamer) :
  guardedStarts st → run trace st = Some st' → guardedStarts st'.
Proof.
  revert st. induction trace as [|[now ev] trace IH]; intros st Hg Hrun.
  - cbn in Hrun. by injection Hrun as <-.
  - cbn [run] in Hrun.
    destruct (step now ev st) as [st1|] eqn:Hstep; [| done].
    apply (IH st1); [| exact Hrun].
    by apply (guardedStep_step now ev st st1 Hstep).
Qed.



(** [addPCM16] as an event, with the conversion and the append done. *)
Lemma enqueuePCM16_eq (chunk : Uint8Array) (st : AudioStreamer) :
  enqueuePCM16 chunk st
  = let samples := processingBuffer st ++ pcm16Samples chunk in
    match rechunkLoop (S (length samples)) (set_processingBuffer samples st) with
    | None => Spins
    | Some st =>
        if negb (isPlaying st) then
          let st := set_isPlaying true st in
          scheduleNextBuffer
            (set_scheduledTime (currentTime st + initialBufferTime st)%Q st)
        else Returns st
    end.
Proof.
  unfold enqueuePCM16.
  rewrite convert_spec, appendToProcessingBuffer_spec. reflexivity.
Qed.

Lemma step_addPCM16 (now : Q) (chunk : Uint8Array) (startOk : bool)
    (st : AudioStreamer) :
  Qle_bool (currentTime st) now = true →
  step now (AddPCM16 chunk startOk) st
  = settle (enqueuePCM16 chunk
              (startRecognitionForStream startOk (set_currentTime now st))).
Proof. intros H. unfold step. rewrite H. reflexivity. Qed.

End ControlState.

Section Gain.

Lemma signedSamples_pcm16Samples (chunk : Uint8Array) :
  signedSamples chunk = pcm16Samples chunk.
Proof.
  induction chunk as [| lo | lo hi rest IH] using pairs_ind;
    [reflexivity | reflexivity |].
  cbn [signedSamples]. rewrite IH. reflexivity.
Qed.








End Gain.

(** * The claims *)

Section Ingestion.

Lemma pcm16Ints_lookup (chunk : Uint8Array) (i : nat) (lo hi : byte) :
  chunk !! (2 * i)%nat = Some lo → chunk !! (2 * i + 1)%nat = Some hi →
  pcm16Ints chunk !! i = Some (toInt16 (byteZ lo + 256 * byteZ hi)).
Proof.
  intros Hlo Hhi. pose proof (getInt16_pcm16Ints chunk i) as H.
  unfold getInt16 in H.
  replace (i * 2)%nat with (2 * i)%nat in H by lia.
  replace (S (2 * i)) with (2 * i + 1)%nat in H by lia.
  rewrite Hlo, Hhi, lor_shiftl_8 in H by apply byteZ_range.
  destruct (pcm16Ints chunk !! i); congruence.
Qed.

(** C7. [addPCM16] does not throw, whatever the bytes and also for an odd
    number of them: on every well-formed object the call returns.  The
    conversion loop yields one sample for every pair of bytes and none for a
    trailing odd byte; the sample of the pair [lo], [hi] is the 16-bit
    integer [lo + 256 * hi] read in two's complement (minus 65536 from
    32768 on), which lies in [[-32768, 32768)], divided by 32768, which
    lies in [[-1, 1)]; and exactly these samples, in order, are added
    behind those the session already holds. *)
Theorem addPCM16_never_throws (chunk : Uint8Array) (startOk : bool)
    (st : AudioStreamer) :
  wf st →
  (∃ st', addPCM16 chunk startOk st = Returns st'
          ∧ heard st' = heard st ++ signedSamples chunk)
  ∧ convert chunk = Some (signedSamples chunk)
  ∧ length (signedSamples chunk) = (length chunk / 2)%nat
  ∧ (∀ i lo hi,
       chunk !! (2 * i)%nat = Some lo → chunk !! (2 * i + 1)%nat = Some hi →
       signedSamples chunk !! i
       = Some (inject_Z (signedInt16 lo hi) / 32768)%Q
       ∧ (-32768 ≤ signedInt16 lo hi < 32768)%Z)
  ∧ Forall (λ sample, (-1 <= sample)%Q ∧ (sample < 1)%Q)
      (signedSamples chunk).
Proof.
  intros Hwf. rewrite signedSamples_pcm16Samples.
  split; [| split; [| split; [| split]]].
  - destruct (addPCM16_heard chunk startOk st Hwf) as (st' & Hrun & _ & Hheard).
    by exists st'.
  - apply convert_spec.
  - unfold pcm16Samples. rewrite length_fmap. apply pcm16Ints_length.
  - intros i lo hi Hlo Hhi. split.
    + unfold pcm16Samples.
      by rewrite list_lookup_fmap, (pcm16Ints_lookup chunk i lo hi Hlo Hhi).
    + pose proof (byteZ_range lo) as Hl. pose proof (byteZ_range hi) as Hh.
      unfold byteZ in Hl, Hh. unfold signedInt16. cbn zeta.
      destruct (Z.ltb_spec
                  (Z.of_N (Byte.to_N lo) + 256 * Z.of_N (Byte.to_N hi))
                  32768); lia.
  - unfold pcm16Samples. apply Forall_fmap.
    eapply Forall_impl; [apply pcm16Ints_range |].
    intros z Hz. apply normalize_range. exact Hz.
Qed.

(** C7, at an input: three bytes on a fresh session; the pair 255, 127 is
    32767 and the third byte is dropped. *)
Lemma addPCM16_never_throws_witness :
  wf (constructor 24000 true running 0)
  ∧ ∃ st', addPCM16 ["255"; "127"; "001"]%byte true
             (constructor 24000 true running 0) = Returns st'
           ∧ heard st' = [(inject_Z 32767 / 32768)%Q].
Proof.
  assert (Hwf : wf (constructor 24000 true running 0)).
  { unfold wf. cbn [bufferSize sampleRate audioQueue constructor].
    split; [apply Nat.ltb_lt; evaluate |].
    split; [reflexivity | constructor]. }
  split; [exact Hwf |].
  destruct (addPCM16_never_throws ["255"; "127"; "001"]%byte true
              (constructor 24000 true running 0) Hwf)
    as ((st' & Hrun & Hheard) & _).
  exists st'. split; [exact Hrun |]. exact Hheard.
Defined.

(** C2. One [addPCM16] call with [N] bytes on a well-formed session whose
    accumulation buffer is empty and whose [bufferSize] is [B > 0] (the
    number of bytes need not even be even): the call returns; exactly
    [floor((N/2)/B)] frames, each of [B] samples, are appended to the frame
    queue (they are behind the frames queued before, and in front are the
    frames the first scheduling pass of the same call has handed to the
    output); and the accumulation buffer holds [(N/2) mod B] samples. *)
Theorem addPCM16_chunking (chunk : Uint8Array) (startOk : bool)
    (st : AudioStreamer) :
  wf st → processingBuffer st = [] →
  ∃ st' newFrames,
    addPCM16 chunk startOk st = Returns st'
    ∧ length newFrames = (length chunk / 2 / bufferSize st)%nat
    ∧ Forall (λ frame, length frame = bufferSize st) newFrames
    ∧ (nodeBuffer <$> startedBetween st st') ++ audioQueue st'
      = audioQueue st ++ newFrames
    ∧ length (processingBuffer st')
      = ((length chunk / 2) mod bufferSize st)%nat.
Proof.
  intros Hwf Hempty. pose proof Hwf as (HB & _).
  destruct (addPCM16_spec chunk startOk st Hwf)
    as (st' & Hrun & _ & Hframes & Hpb & _ & Hkeep & _).
  rewrite Hempty in Hframes, Hpb. cbn [app] in Hframes, Hpb.
  assert (Hlen : length (pcm16Samples chunk) = (length chunk / 2)%nat).
  { unfold pcm16Samples. rewrite length_fmap. apply pcm16Ints_length. }
  rewrite Hlen in Hframes, Hpb.
  exists st', (slices (bufferSize st) (length chunk / 2 / bufferSize st)
                 (pcm16Samples chunk)).
  split; [exact Hrun |]. split; [apply slices_length |].
  split; [| split].
  - apply slices_full. rewrite Hlen, Nat.mul_comm. apply Nat.Div0.mul_div_le.
  - by apply startedBetween_frames.
  - rewrite Hpb, length_drop, Hlen.
    rewrite (Nat.div_mod_eq (length chunk / 2) (bufferSize st)) at 1. lia.
Qed.

(** C2, at an input: ten bytes, frames of two samples. *)
Lemma addPCM16_chunking_witness :
  let st := set_bufferSize 2 (constructor 24000 true running 0) in
  let chunk := replicate 10 "001"%byte in
  wf st ∧ processingBuffer st = []
  ∧ ∃ st' (newFrames : list (list Q)),
      addPCM16 chunk true st = Returns st'
      ∧ length newFrames = 2%nat
      ∧ length (processingBuffer st') = 1%nat.
Proof.
  intros st chunk.
  assert (Hwf : wf st).
  { unfold wf. cbn. split; [lia |]. split; [reflexivity | constructor]. }
  split; [exact Hwf |]. split; [reflexivity |].
  destruct (addPCM16_chunking chunk true st Hwf eq_refl)
    as (st' & newFrames & Hrun & Hlen & _ & _ & Hrest).
  exists st', newFrames. split; [exact Hrun |]. split; [exact Hlen | exact Hrest].
Defined.

Lemma wf_constructor (rate : Q) (recognition : bool) (state : ContextState)
    (time : Q) :
  (0 < rate)%Q → wf (constructor rate recognition state time).
Proof.
  intros Hrate. unfold wf. cbn [bufferSize sampleRate audioQueue constructor].
  split; [apply Nat.ltb_lt; evaluate |].
  split; [exact Hrate | constructor].
Qed.

Lemma wf_set_currentTime (now : Q) (st : AudioStreamer) :
  wf st → wf (set_currentTime now st).
Proof. intros H. exact H. Qed.

(** C3 as stated fails: 15360 bytes are 7680 samples, a whole frame, so the
    first call already yields a frame and buffers nothing. *)
Lemma two_chunks_of_15360_bytes_counterexample :
  ¬ ∃ st1,
      addPCM16 (replicate 15360 "000"%byte) true
        (constructor 24000 true running 0) = Returns st1
      ∧ frames st1 = [] ∧ length (processingBuffer st1) = 3840%nat.
Proof.
  intros (st1 & Hrun & Hnone & _).
  assert (Hwf : wf (constructor 24000 true running 0))
    by (apply wf_constructor; evaluate).
  destruct (addPCM16_spec (replicate 15360 "000"%byte) true _ Hwf)
    as (st' & Hrun' & _ & Hframes & _).
  rewrite Hrun in Hrun'. injection Hrun' as <-.
  rewrite Hnone in Hframes. apply (f_equal length) in Hframes.
  rewrite length_app, slices_length in Hframes.
  vm_compute in Hframes. discriminate Hframes.
Qed.

(** C3, amended.  On a fresh session ([bufferSize] 7680), a first
    [addPCM16] call with a chunk of 7680 bytes (3840 samples) yields no
    frame and leaves 3840 samples in the accumulation buffer; a second call
    with the same chunk then yields exactly one frame, of 7680 samples, in
    the queue and leaves the accumulation buffer empty. *)
Theorem two_chunks_of_7680_bytes (chunk : Uint8Array) (rate : Q)
    (recognition ok1 ok2 : bool) (state : ContextState) (t0 t1 : Q) :
  (0 < rate)%Q → length chunk = 7680%nat →
  ∃ st1 st2,
    addPCM16 chunk ok1 (constructor rate recognition state t0) = Returns st1
    ∧ frames st1 = []
    ∧ length (processingBuffer st1) = 3840%nat
    ∧ addPCM16 chunk ok2 (set_currentTime t1 st1) = Returns st2
    ∧ audioQueue st2 = [pcm16Samples chunk ++ pcm16Samples chunk]
    ∧ length (pcm16Samples chunk ++ pcm16Samples chunk) = 7680%nat
    ∧ sourceNodes st2 = []
    ∧ processingBuffer st2 = [].
Proof.
  intros Hrate Hbytes.
  assert (Hlen : length (pcm16Samples chunk) = 3840%nat).
  { unfold pcm16Samples. rewrite length_fmap, pcm16Ints_length, Hbytes.
    evaluate. }
  assert (Hlen2 : length (pcm16Samples chunk ++ pcm16Samples chunk) = 7680%nat).
  { rewrite length_app, Hlen. evaluate. }
  set (st0 := constructor rate recognition state t0).
  destruct (addPCM16_spec chunk ok1 st0 (wf_constructor _ _ _ _ Hrate))
    as (st1 & Hrun1 & Hwf1 & Hfr1 & Hpb1 & HB1 & _ & _ & Hlive1).
  change (processingBuffer st0) with (@nil Q) in *.
  change (bufferSize st0) with 7680%nat in *.
  change (frames st0) with (@nil (list Q)) in *.
  cbn [app] in Hfr1, Hpb1. rewrite Hlen in Hfr1, Hpb1.
  change (3840 / 7680)%nat with 0%nat in Hfr1, Hpb1.
  cbn [slices Nat.mul] in Hfr1, Hpb1. rewrite drop_0 in Hpb1.
  assert (Hq1 : audioQueue st1 = [] ∧ sourceNodes st1 = []).
  { unfold frames in Hfr1. apply app_eq_nil in Hfr1 as [Hn Hq].
    split; [exact Hq | by apply fmap_nil_inv in Hn]. }
  destruct Hq1 as [Hq1 Hn1].
  assert (Hplay1 : isPlaying st1 = true).
  { apply Hlive1. left. rewrite Hpb1. intros E. rewrite E in Hlen. discriminate Hlen. }
  destruct (addPCM16_spec chunk ok2 (set_currentTime t1 st1)
              (wf_set_currentTime t1 st1 Hwf1))
    as (st2 & Hrun2 & _ & _ & Hpb2 & _ & _ & Hplaying & _).
  destruct (Hplaying Hplay1) as (Hq2 & Hn2 & _).
  change (processingBuffer (set_currentTime t1 st1)) with (processingBuffer st1) in *.
  change (bufferSize (set_currentTime t1 st1)) with (bufferSize st1) in *.
  change (audioQueue (set_currentTime t1 st1)) with (audioQueue st1) in *.
  change (sourceNodes (set_currentTime t1 st1)) with (sourceNodes st1) in *.
  rewrite Hpb1, HB1, Hlen2 in Hq2, Hpb2. rewrite Hq1 in Hq2. rewrite Hn1 in Hn2.
  change (7680 / 7680)%nat with 1%nat in Hq2, Hpb2.
  cbn [slices app] in Hq2. rewrite Nat.mul_1_l in Hpb2.
  rewrite take_ge in Hq2 by (rewrite Hlen2; apply Nat.le_refl).
  rewrite drop_ge in Hpb2 by (rewrite Hlen2; apply Nat.le_refl).
  exists st1, st2.
  split; [exact Hrun1 |]. split; [exact Hfr1 |].
  split; [by rewrite Hpb1 |]. split; [exact Hrun2 |].
  split; [exact Hq2 |]. split; [exact Hlen2 |].
  split; [exact Hn2 | exact Hpb2].
Qed.

(** C3 amended, at an input. *)
Lemma two_chunks_of_7680_bytes_witness :
  (0 < 24000)%Q ∧ length (replicate 7680 "001"%byte) = 7680%nat
  ∧ ∃ st1 st2,
      addPCM16 (replicate 7680 "001"%byte) true
        (constructor 24000 true running 0) = Returns st1
      ∧ length (processingBuffer st1) = 3840%nat
      ∧ addPCM16 (replicate 7680 "001"%byte) true (set_currentTime 0.05 st1)
        = Returns st2
      ∧ length (audioQueue st2) = 1%nat
      ∧ processingBuffer st2 = [].
Proof.
  assert (Hrate : (0 < 24000)%Q) by evaluate.
  assert (Hbytes : length (replicate 7680 "001"%byte) = 7680%nat)
    by apply length_replicate.
  split; [exact Hrate |]. split; [exact Hbytes |].
  destruct (two_chunks_of_7680_bytes (replicate 7680 "001"%byte) 24000
              true true true running 0 0.05 Hrate Hbytes)
    as (st1 & st2 & Hrun1 & _ & Hpb1 & Hrun2 & Hq2 & _ & _ & Hpb2).
  exists st1, st2.
  split; [exact Hrun1 |]. split; [exact Hpb1 |]. split; [exact Hrun2 |].
  split; [by rewrite Hq2 | exact Hpb2].
Defined.

End Ingestion.

Section Pass.

Lemma startedBetween_sched (st st' : AudioStreamer)
    (sched : list (list Q * Q * Q)) :
  playback <$> sourceNodes st' = (playback <$> sourceNodes st) ++ sched →
  playback <$> startedBetween st st' = sched.
Proof.
  intros H. unfold startedBetween.
  rewrite fmap_drop, H. apply drop_app_length'. by rewrite length_fmap.
Qed.

Lemma finishOrRearm_timers (st : AudioStreamer) :
  timers (finishOrRearm st)
  = if (length (audioQueue st) =? 0)%nat
       && (length (processingBuffer st) =? 0)%nat
    then timers st
    else timers st
           ++ [mkTimer ScheduleNextBufferCallback
                 (Qmax 0 ((scheduledTime st - currentTime st) * 1000 - 50))
                 (currentTime st)].
Proof.
  unfold finishOrRearm.
  destruct (_ && _); [destruct (isStreamComplete st) |]; reflexivity.
Qed.

(** C4 as stated fails where playback has fallen behind the clock: the
    session below got two samples at time 0 (scheduled time 0.1) and is
    completed at time 1; the pass that [complete] invokes dequeues the one
    frame and moves the scheduled time to [1 + duration], not to
    [0.1 + duration]. *)
Lemma scheduleNextBuffer_advance_counterexample :
  ∃ st0 st' frame,
    run [(0%Q, AddPCM16 (replicate 4 "001"%byte) true)]
      (constructor 24000 true running 0) = Some st0
    ∧ let st :=
        set_processingBuffer []
          (set_audioQueue [processingBuffer st0]
             (set_isStreamComplete true (set_currentTime 1 st0))) in
      complete (set_currentTime 1 st0) = scheduleNextBuffer st
      ∧ audioQueue st = [frame]
      ∧ (scheduledTime st < currentTime st + SCHEDULE_AHEAD_TIME)%Q
      ∧ scheduleNextBuffer st = Returns st'
      ∧ audioQueue st' = []
      ∧ ¬ (scheduledTime st'
           == scheduledTime st + frameDuration (sampleRate st) frame)%Q.
Proof.
  eexists _, _, _.
  split; [evaluate |].
  cbv zeta.
  split; [evaluate |].
  split; [evaluate |].
  split; [evaluate |].
  split; [evaluate |].
  split; [evaluate |].
  vm_compute. discriminate.
Qed.

(** C4, amended.  A pass on a well-formed object returns.  It dequeues a
    head segment of the frame queue, in order; each frame is dequeued while
    the scheduled time is less than [currentTime + 0.2], its source is
    started at [max(scheduledTime, currentTime)], and the scheduled time is
    set to that start time plus the frame's duration (length over sample
    rate); the loop ends with the queue empty or the scheduled time outside
    the window.  Afterwards, when the queue or the accumulation buffer is
    non-empty, one timer for the next pass is set, with the delay
    [max(0, (scheduledTime - currentTime) * 1000 - 50)] milliseconds, which
    is never negative; otherwise no timer is set. *)
Theorem scheduleNextBuffer_pass (st : AudioStreamer) :
  wf st →
  ∃ st',
    scheduleNextBuffer st = Returns st'
    ∧ audioQueue st = (nodeBuffer <$> startedBetween st st') ++ audioQueue st'
    ∧ chained (sampleRate st) (currentTime st) (scheduledTime st)
        (playback <$> startedBetween st st') (scheduledTime st')
    ∧ (audioQueue st' = []
       ∨ (currentTime st + SCHEDULE_AHEAD_TIME <= scheduledTime st')%Q)
    ∧ let delay :=
        Qmax 0 ((scheduledTime st' - currentTime st) * 1000 - 50) in
      (0 <= delay)%Q
      ∧ (audioQueue st' ≠ [] ∨ processingBuffer st' ≠ [] →
         timers st'
         = timers st
             ++ [mkTimer ScheduleNextBufferCallback delay (currentTime st)])
      ∧ (audioQueue st' = [] → processingBuffer st' = [] →
         timers st' = timers st).
Proof.
  intros Hwf.
  destruct (scheduleNextBuffer_spec st Hwf)
    as (st1 & sched & Hrun & _ & Honly & Hnodes & Hqueue & Hchain & Hexit).
  destruct (onlyScheduling_fields _ _ Honly)
    as (_ & _ & _ & _ & _ & Hnow & Htimers & _).
  destruct (finishOrRearm_fields st1)
    as (Hq & Hpb & Hn & Ht & _).
  pose proof (finishOrRearm_timers st1) as Harm.
  exists (finishOrRearm st1). split; [exact Hrun |].
  assert (Hstarted : playback <$> startedBetween st (finishOrRearm st1) = sched).
  { apply startedBetween_sched. by rewrite Hn. }
  rewrite Hq, Hpb, Ht.
  split; [| split; [| split; [| split; [| split]]]].
  - rewrite nodeBuffer_playback, Hstarted. exact Hqueue.
  - rewrite Hstarted. exact Hchain.
  - exact Hexit.
  - apply Q.le_max_l.
  - intros Hmore. rewrite Harm, Htimers, Hnow.
    destruct (audioQueue st1), (processingBuffer st1); cbn;
      [destruct Hmore; done | reflexivity ..].
  - intros Hq0 Hpb0. rewrite Harm, Hq0, Hpb0, Htimers. reflexivity.
Qed.

(** C4 amended, at an input: one short frame, playback behind the clock. *)
Lemma scheduleNextBuffer_pass_witness :
  let st :=
    set_audioQueue [[1; 1]%Q]
      (set_isPlaying true
         (set_scheduledTime 0.1 (constructor 24000 true running 1))) in
  wf st
  ∧ ∃ st', scheduleNextBuffer st = Returns st'
           ∧ chained 24000 1 0.1 (playback <$> startedBetween st st')
               (scheduledTime st').
Proof.
  intros st.
  assert (Hwf : wf st).
  { unfold wf, st. cbn [bufferSize sampleRate audioQueue constructor
                        set_audioQueue set_isPlaying set_scheduledTime].
    split; [apply Nat.ltb_lt; evaluate |].
    split; [reflexivity |]. by repeat constructor. }
  split; [exact Hwf |].
  destruct (scheduleNextBuffer_pass st Hwf) as (st' & Hrun & _ & Hchain & _).
  exists st'. split; [exact Hrun | exact Hchain].
Defined.




End Pass.

Section Order.

(** C6 as stated fails: frames still in the queue are missing from its
    equation, and they can stay there.  A fresh session gets two chunks of
    exactly one frame each.  The first frame is dequeued by the pass of the
    first call, which finds nothing left and sets no timer; the second call
    finds the session playing and only queues its frame.  When the first
    source has ended, no timer is pending, every source has ended, and the
    second frame is still queued: the dequeued frames followed by the
    accumulation buffer are half of the ingested samples. *)
Lemma ingestion_order_counterexample :
  let chunk := replicate 15360 "000"%byte in
  let trace :=
    [(0, AddPCM16 chunk true); (0.1, AddPCM16 chunk true); (0.42, Ended 0)]%Q in
  ∃ st1 st2 st3,
    step 0 (AddPCM16 chunk true) (constructor 24000 true running 0) = Some st1
    ∧ step 0.1 (AddPCM16 chunk true) st1 = Some st2
    ∧ step 0.42 (Ended 0) st2 = Some st3
    ∧ run trace (constructor 24000 true running 0) = Some st3
    ∧ timers st3 = []
    ∧ ended <$> sourceNodes st3 = [true]
    ∧ length <$> audioQueue st3 = [7680%nat]
    ∧ concat (nodeBuffer <$> sourceNodes st3) ++ processingBuffer st3
      ≠ ingested trace.
Proof.
  intros chunk trace. subst trace chunk.
  assert (H : ∃ st1 st2 st3,
            step 0 (AddPCM16 (replicate 15360 "000"%byte) true)
              (constructor 24000 true running 0) = Some st1
            ∧ step 0.1 (AddPCM16 (replicate 15360 "000"%byte) true) st1
              = Some st2
            ∧ step 0.42 (Ended 0) st2 = Some st3
            ∧ timers st3 = []
            ∧ ended <$> sourceNodes st3 = [true]
            ∧ length <$> audioQueue st3 = [7680%nat]
            ∧ length (concat (nodeBuffer <$> sourceNodes st3)
                      ++ processingBuffer st3) = 7680%nat).
  { eexists _, _, _.
    split.
    { rewrite step_addPCM16 by evaluate.
      rewrite enqueuePCM16_eq. evaluate. }
    split.
    { rewrite step_addPCM16 by evaluate.
      rewrite enqueuePCM16_eq. evaluate. }
    do 4 (split; [evaluate |]).
    evaluate. }
  destruct H as (st1 & st2 & st3 & H1 & H2 & H3 & Htimers & Hended & Hqueue
                 & Hlen).
  exists st1, st2, st3.
  split; [exact H1 |]. split; [exact H2 |]. split; [exact H3 |].
  split; [cbn [run]; by rewrite H1, H2, H3 |].
  split; [exact Htimers |]. split; [exact Hended |]. split; [exact Hqueue |].
  intros Heq. apply (f_equal length) in Heq. rewrite Hlen in Heq.
  vm_compute in Heq. discriminate Heq.
Qed.

(** C6, amended.  From a well-formed session (a fresh one holds no sample),
    after any sequence of events without [stop] (calls of [addPCM16], timer
    passes, ends of playback, [complete], [resume], recognizer events): the
    frames dequeued for scheduling, then the frames still queued, then the
    accumulation buffer, concatenated, are the samples the session held
    before followed by the samples of all ingested chunks in arrival order
    (each chunk without its trailing odd byte); whenever the queue is empty
    this is the dequeued frames followed by the accumulation buffer.  The
    frames the session had at the start, dequeued or queued, are still at
    the front of its frames in the same order: none is reordered or
    dropped. *)
Theorem ingestion_order (trace : list (Q * event)) (st0 st : AudioStreamer) :
  wf st0 → noStop trace → run trace st0 = Some st →
  concat (nodeBuffer <$> sourceNodes st) ++ concat (audioQueue st)
    ++ processingBuffer st
  = heard st0 ++ ingested trace
  ∧ (audioQueue st = [] →
     concat (nodeBuffer <$> sourceNodes st) ++ processingBuffer st
     = heard st0 ++ ingested trace)
  ∧ frames st0 `prefix_of` frames st.
Proof.
  intros Hwf Hno Hrun.
  destruct (run_sound trace st0 st Hwf Hrun) as [_ Hsound].
  destruct (Hsound Hno) as [Hheard Hpre].
  unfold heard at 1, frames at 1 in Hheard.
  rewrite concat_app, <- app_assoc in Hheard.
  split; [exact Hheard |]. split; [| exact Hpre].
  intros Hq. rewrite Hq in Hheard. exact Hheard.
Qed.

(** C6 amended, at an input: four bytes, a timer pass, three bytes,
    [complete]. *)
Lemma ingestion_order_witness :
  let trace :=
    [(0, AddPCM16 ["001"; "000"; "002"; "000"]%byte true);
     (0.05, Timeout 0 true);
     (0.1, AddPCM16 ["003"; "000"; "004"]%byte true);
     (0.1, Complete)]%Q in
  let st0 := constructor 24000 true running 0 in
  wf st0 ∧ noStop trace
  ∧ ∃ st, run trace st0 = Some st
          ∧ concat (nodeBuffer <$> sourceNodes st) ++ concat (audioQueue st)
              ++ processingBuffer st
            = [normalize 1; normalize 2; normalize 3].
Proof.
  intros trace st0.
  assert (Hwf : wf st0) by (apply wf_constructor; reflexivity).
  assert (Hno : noStop trace) by (by repeat constructor).
  assert (Hrun : ∃ st, run trace st0 = Some st)
    by (eexists; evaluate).
  destruct Hrun as [st Hrun].
  split; [exact Hwf |]. split; [exact Hno |].
  exists st. split; [exact Hrun |].
  destruct (ingestion_order trace st0 st Hwf Hno Hrun) as (Hall & _).
  exact Hall.
Defined.

End Order.

Section Control.

(** C9.  [stop] never throws and never calls [onComplete], whatever the
    state, also on a fresh or an already stopped session and whether or not
    the engine's [stop] fails.  A second [stop] right after the first (at
    any later clock reading) leaves the queue, the accumulation buffer,
    [isPlaying] and [isStreamComplete] as the first left them: empty, empty,
    false, true.  [stop] sets no end-of-playback handler and leaves the
    end-of-queue source as it is, so on a session whose queue is already
    empty (stopped or idle) an end of playback after [stop] calls
    [onComplete] exactly when it would have without it. *)
Theorem stop_idempotent (ok1 ok2 : bool) (later : Q) (st : AudioStreamer) :
  ∃ st1 st2,
    stop ok1 st = Returns st1
    ∧ stop ok2 (set_currentTime later st1) = Returns st2
    ∧ onCompleteCalls st1 = onCompleteCalls st
    ∧ onCompleteCalls st2 = onCompleteCalls st
    ∧ (audioQueue st1, processingBuffer st1, isPlaying st1, isStreamComplete st1)
      = ([], [], false, true)
    ∧ (audioQueue st2, processingBuffer st2, isPlaying st2, isStreamComplete st2)
      = (audioQueue st1, processingBuffer st1, isPlaying st1,
         isStreamComplete st1)
    ∧ sourceNodes st1 = sourceNodes st
    ∧ endOfQueueAudioSource st1 = endOfQueueAudioSource st
    ∧ (audioQueue st = [] →
       ∀ source,
         onCompleteCalls (onendedHandler source st1)
         = onCompleteCalls (onendedHandler source st)).
Proof.
  assert (Hstop : ∀ ok s,
            ∃ s', stop ok s = Returns s'
                  ∧ onCompleteCalls s' = onCompleteCalls s
                  ∧ (audioQueue s', processingBuffer s', isPlaying s',
                     isStreamComplete s') = ([], [], false, true)
                  ∧ sourceNodes s' = sourceNodes s
                  ∧ endOfQueueAudioSource s' = endOfQueueAudioSource s).
  { intros ok s. unfold stop.
    destruct (_ && _); [destruct ok |]; eexists;
      (split; [reflexivity |]); repeat split; reflexivity. }
  destruct (Hstop ok1 st) as (st1 & Hrun1 & Hcalls1 & Hstate1 & Hn1 & Heoq1).
  destruct (Hstop ok2 (set_currentTime later st1))
    as (st2 & Hrun2 & Hcalls2 & Hstate2 & _).
  exists st1, st2.
  split; [exact Hrun1 |]. split; [exact Hrun2 |]. split; [exact Hcalls1 |].
  split; [by rewrite Hcalls2 |]. split; [exact Hstate1 |].
  split; [by rewrite Hstate2, Hstate1 |]. split; [exact Hn1 |].
  split; [exact Heoq1 |].
  intros Hq source. unfold onendedHandler.
  injection Hstate1 as Hq1 _ _ _. rewrite Hq1, Hq, Heoq1. cbn.
  destruct (bool_decide _); cbn; [by rewrite Hcalls1 | exact Hcalls1].
Qed.






End Control.

Section Recognition.

(** C8.  In every state a session reaches from one whose engine [start]
    calls were all made with [isRecognitionActive] false (a fresh session
    has made none), through any interleaving of [addPCM16] calls, recognizer
    error and end events (which call [restartRecognition]), restart timers
    and all other events, every [start] call on the engine was made with
    the flag false.  And when the flag is true, [restartRecognition] is a
    no-op (the object is unchanged, no timer is set), a restart timer that
    fires does nothing, the start attempt of [addPCM16] does nothing, and
    no event at all makes a [start] call. *)
Theorem recognition_never_started_twice (trace : list (Q * event))
    (st0 st : AudioStreamer) :
  guardedStarts st0 → run trace st0 = Some st →
  guardedStarts st
  ∧ (isRecognitionActive st = true →
     restartRecognition st = st
     ∧ (∀ startOk, restartRecognitionCallback startOk st = Returns st)
     ∧ (∀ startOk, startRecognitionForStream startOk st = st)
     ∧ (∀ now ev st', step now ev st = Some st' →
                      startCalls st' = startCalls st)).
Proof.
  intros Hg Hrun. split; [exact (guardedStarts_run trace st0 st Hg Hrun) |].
  intros Hactive. split; [| split; [| split]].
  - unfold restartRecognition. by rewrite Hactive.
  - intros startOk. unfold restartRecognitionCallback. by rewrite Hactive.
  - intros startOk. unfold startRecognitionForStream.
    by rewrite Hactive, andb_false_r.
  - intros now ev st' Hstep.
    destruct (guardedStep_step now ev st st' Hstep) as [_ Hsame].
    assert (Hactive' : isRecognitionActive (set_currentTime now st) = true)
      by exact Hactive.
    exact (Hsame Hactive').
Qed.

(** C8, at an input: the recognizer ends while the session plays, a chunk
    arrives before the restart timer fires, then the timer fires. *)
Lemma recognition_never_started_twice_witness :
  let trace :=
    [(0, AddPCM16 ["001"; "000"]%byte true); (0.01, RecognitionEnd);
     (0.02, AddPCM16 ["002"; "000"]%byte true); (0.2, Timeout 1 true)]%Q in
  let st0 := constructor 24000 true running 0 in
  guardedStarts st0
  ∧ ∃ st, run trace st0 = Some st
          ∧ isRecognitionActive st = true
          ∧ recognizerCalls st = [RecognizerStart false; RecognizerStart false]
          ∧ guardedStarts st
          ∧ restartRecognition st = st.
Proof.
  intros trace st0.
  assert (Hg : guardedStarts st0) by constructor.
  split; [exact Hg |].
  assert (Hrun : ∃ st, run trace st0 = Some st
                       ∧ isRecognitionActive st = true
                       ∧ recognizerCalls st
                         = [RecognizerStart false; RecognizerStart false]).
  { eexists. split; [evaluate |].
    split; evaluate. }
  destruct Hrun as (st & Hrun & Hactive & Hcalls).
  exists st. split; [exact Hrun |]. split; [exact Hactive |].
  split; [exact Hcalls |].
  destruct (recognition_never_started_twice trace st0 st Hg Hrun)
    as (Hguarded & Hnoop).
  split; [exact Hguarded |]. by destruct (Hnoop Hactive).
Defined.

End Recognition.

Section Completion.

(** C1 fails on the code.  A fresh session gets one chunk of 15360 bytes,
    exactly one frame, which is scheduled at once as the end-of-queue source
    (handler set, to end at 0.42 s); [complete] is called right after: the
    accumulation buffer is empty, so [onComplete] is called at once, while
    that source has not ended; when the source ends, its handler calls
    [onComplete] a second time. *)
Theorem complete_fires_twice :
  ∃ st1 st2 st3,
    step 0 (AddPCM16 (replicate 15360 "000"%byte) true)
      (constructor 24000 true running 0) = Some st1
    ∧ audioQueue st1 = [] ∧ processingBuffer st1 = []
    ∧ (λ n, (length (nodeBuffer n), onended n, ended n)) <$> sourceNodes st1
      = [(7680%nat, true, false)]
    ∧ (λ n, Qeq_bool (nodeStartTime n + nodeDuration n) 0.42) <$> sourceNodes st1
      = [true]
    ∧ onCompleteCalls st1 = 0%nat
    ∧ step 0 Complete st1 = Some st2
    ∧ onCompleteCalls st2 = 1%nat
    ∧ ended <$> sourceNodes st2 = [false]
    ∧ step 0.42 (Ended 0) st2 = Some st3
    ∧ onCompleteCalls st3 = 2%nat.
Proof.
  eexists _, _, _.
  split.
  { rewrite step_addPCM16 by evaluate.
    rewrite enqueuePCM16_eq. evaluate. }
  do 9 (split; [evaluate |]).
  evaluate.
Qed.

End Completion.

(** * Further properties of the streamer *)

Section FrameSizes.

Lemma scheduleNextBuffer_same (st : AudioStreamer) :
  wf st →
  ∃ st', scheduleNextBuffer st = Returns st' ∧ wf st'
         ∧ frames st' = frames st
         ∧ processingBuffer st' = processingBuffer st
         ∧ bufferSize st' = bufferSize st.
Proof.
  intros Hwf.
  destruct (scheduleNextBuffer_wf st Hwf) as (st' & Hrun & Hwf' & Hfr & Hpb & _).
  exists st'. split; [exact Hrun |]. split; [exact Hwf' |].
  split; [exact Hfr |]. split; [exact Hpb |].
  destruct (scheduleNextBuffer_spec st Hwf) as (st1 & ? & Hrun' & _ & Honly & _).
  rewrite Hrun in Hrun'. injection Hrun' as ->.
  destruct (onlyScheduling_fields _ _ Honly) as (_ & _ & HB1 & _).
  destruct (finishOrRearm_fields st1) as (_ & _ & _ & _ & _ & HB2 & _).
  by rewrite HB2, HB1.
Qed.

(** [complete] on a well-formed object: the accumulation buffer, when it is
    not empty, becomes the last frame. *)
Lemma complete_frames (st : AudioStreamer) :
  wf st →
  ∃ st', complete st = Returns st'
         ∧ bufferSize st' = bufferSize st
         ∧ processingBuffer st' = []
         ∧ frames st'
           = frames st
               ++ (if processingBuffer st is [] then []
                   else [processingBuffer st]).
Proof.
  intros Hwf. unfold complete.
  cbn [processingBuffer set_isStreamComplete isPlaying audioQueue
       set_audioQueue set_processingBuffer].
  destruct (processingBuffer st) as [|sample rest] eqn:Hpb;
    cbn [length Nat.ltb Nat.leb].
  - eexists. split; [reflexivity |]. split; [reflexivity |].
    split; [exact Hpb |]. by rewrite app_nil_r.
  - set (st2 := set_processingBuffer [] _).
    assert (Hwf2 : wf st2).
    { destruct Hwf as (HB & Hrate & Hq). unfold wf. subst st2. cbn.
      repeat split; [assumption | assumption |].
      apply Forall_app. split; [exact Hq | by repeat constructor]. }
    assert (Hframes2 : frames st2 = frames st ++ [sample :: rest]).
    { subst st2. unfold frames. cbn. by rewrite app_assoc. }
    destruct (isPlaying st).
    + destruct (scheduleNextBuffer_same st2 Hwf2)
        as (st' & Hrun & _ & Hfr & Hpb' & HB').
      exists st'. split; [exact Hrun |]. split; [exact HB' |].
      split; [exact Hpb' |]. by rewrite Hfr.
    + exists st2. split; [reflexivity |]. split; [reflexivity |].
      split; [reflexivity | exact Hframes2].
Qed.

(** Events that bring in and flush no sample leave frames, accumulation
    buffer and buffer size as they are. *)
Lemma dispatch_quiet (ev : event) (st st' : AudioStreamer) :
  wf st → dispatch ev st = Some st' →
  match ev with
  | AddPCM16 _ _ | Complete | Stop _ => True
  | _ => frames st' = frames st
         ∧ processingBuffer st' = processingBuffer st
         ∧ bufferSize st' = bufferSize st
  end.
Proof.
  intros Hwf.
  assert (Hsame : ∀ s, sameSound st s →
            frames s = frames st ∧ processingBuffer s = processingBuffer st
            ∧ bufferSize s = bufferSize st).
  { intros s H. split; [by apply sameSound_frames |].
    by destruct H as (_ & ? & _ & ? & _). }
  destruct ev as [chunk ok | | ok | | i ok | source | noSpeech | | fulfilled];
    cbn [dispatch]; try done.
  - destruct (resume_sameSound st) as (st1 & Hrun & Hs).
    rewrite Hrun. cbn. intros [= <-]. by apply Hsame.
  - destruct (timers st !! i) as [t|]; [| done].
    destruct (Qle_bool _ _); [| done].
    destruct (timerCallback t); cbn [runTimer].
    + destruct (scheduleNextBuffer_same
                  (set_timers (delete i (timers st)) st) Hwf)
        as (st1 & Hrun & _ & Hfr & Hpb & HB).
      rewrite Hrun. cbn. by intros [= <-].
    + intros H. apply Hsame.
      apply (sameSound_trans _ (set_timers (delete i (timers st)) st));
        [same_sound |].
      by apply (restartRecognitionCallback_sameSound ok).
    + cbn. intros [= <-]. apply Hsame. same_sound.
  - destruct (sourceNodes st !! source) as [n|]; [| done].
    destruct (_ && _); [| done].
    intros [= <-]. apply Hsame.
    eapply (sameSound_trans _
              (set_sourceNodes (alter markEnded source (sourceNodes st)) st)).
    + unfold sameSound. cbn. rewrite fmap_playback_markEnded.
      repeat split; reflexivity.
    + destruct (onended n);
        [apply onendedHandler_sameSound | apply sameSound_refl].
  - destruct (speechRecognizer st); [| done].
    intros [= <-]. apply Hsame, onerror_sameSound.
  - destruct (speechRecognizer st); [| done].
    intros [= <-]. apply Hsame, onend_sameSound.
  - destruct (0 <? _)%nat; [| done].
    intros H. by apply Hsame, (resumeSettled_sameSound fulfilled).
Qed.

Lemma stop_frames (ok : bool) (st : AudioStreamer) :
  ∃ st', stop ok st = Returns st'
         ∧ bufferSize st' = bufferSize st
         ∧ processingBuffer st' = []
         ∧ frames st' = nodeBuffer <$> sourceNodes st.
Proof.
  unfold stop, frames.
  destruct (_ && _); [destruct ok |]; eexists; (split; [reflexivity |]);
    cbn [bufferSize processingBuffer sourceNodes audioQueue
         set_isRecognitionActive set_recognizerCalls logRecognizerCall
         set_isPlaying set_isStreamComplete set_audioQueue
         set_processingBuffer set_timers set_gainNode setTimeout];
    rewrite ?app_nil_r; done.
Qed.

(** What one event does to the frames and to the accumulation buffer: the
    frames it adds are full frames, or, for [complete], the accumulation
    buffer; the buffer stays short of a frame. *)
Lemma dispatch_frames (P : list Q → Prop) (ev : event)
    (st st' : AudioStreamer) :
  wf st → dispatch ev st = Some st' →
  bufferSize st' = bufferSize st
  ∧ (Forall P (frames st) →
     (∀ frame, length frame = bufferSize st → P frame) →
     (isComplete ev = true → processingBuffer st ≠ [] →
      P (processingBuffer st)) →
     Forall P (frames st'))
  ∧ ((length (processingBuffer st) < bufferSize st)%nat →
     (length (processingBuffer st') < bufferSize st)%nat).
Proof.
  intros Hwf. pose proof Hwf as (HB & _).
  destruct ev as [chunk ok | | ok | | i ok | source | noSpeech | | fulfilled];
    try (intros Hstep;
         destruct (dispatch_quiet _ st st' Hwf Hstep) as (Hfr & Hpb & HB');
         rewrite Hfr, Hpb; split; [exact HB' |]; split; intros; assumption);
    cbn [dispatch].
  - destruct (addPCM16_spec chunk ok st Hwf)
      as (st1 & Hrun & _ & Hfr & Hpb & HB' & _).
    rewrite Hrun. cbn. intros [= <-].
    split; [exact HB' |]. split.
    + intros Hold Hfull _. rewrite Hfr. apply Forall_app. split; [exact Hold |].
      eapply Forall_impl; [apply slices_full | exact Hfull].
      rewrite Nat.mul_comm. apply Nat.Div0.mul_div_le.
    + intros _. rewrite Hpb, length_drop.
      set (n := length (processingBuffer st ++ pcm16Samples chunk)).
      pose proof (Nat.div_mod_eq n (bufferSize st)) as Hdiv.
      pose proof (Nat.mod_upper_bound n (bufferSize st) ltac:(lia)) as Hmod.
      lia.
  - destruct (complete_frames st Hwf) as (st1 & Hrun & HB' & Hpb & Hfr).
    rewrite Hrun. cbn. intros [= <-].
    split; [exact HB' |]. split.
    + intros Hold _ Hlast. rewrite Hfr. apply Forall_app. split; [exact Hold |].
      destruct (processingBuffer st) eqn:E; [constructor |].
      repeat constructor. by apply Hlast.
    + intros _. rewrite Hpb. exact HB.
  - destruct (stop_frames ok st) as (st1 & Hrun & HB' & Hpb & Hfr).
    rewrite Hrun. cbn. intros [= <-].
    split; [exact HB' |]. split.
    + intros Hold _ _. rewrite Hfr. unfold frames in Hold.
      by apply Forall_app in Hold as [Hold _].
    + intros _. rewrite Hpb. exact HB.
Qed.

Lemma step_wf (now : Q) (ev : event) (st st' : AudioStreamer) :
  wf st → step now ev st = Some st' → wf st'.
Proof.
  intros Hwf Hstep. by destruct (step_sound now ev st st' Hwf Hstep).
Qed.

Lemma step_dispatch (now : Q) (ev : event) (st st' : AudioStreamer) :
  step now ev st = Some st' → dispatch ev (set_currentTime now st) = Some st'.
Proof. unfold step. by destruct (Qle_bool _ _). Qed.

(** X1.  Through every sequence of events, [stop] and [complete] included,
    a well-formed session keeps its accumulation buffer shorter than one
    frame, and every frame it has played or queued is non-empty and at most
    [bufferSize] samples long. *)
Theorem frames_and_buffer_bounded (trace : list (Q * event))
    (st0 st : AudioStreamer) :
  wf st0 → bounded st0 → run trace st0 = Some st →
  bufferSize st = bufferSize st0 ∧ bounded st.
Proof.
  revert st0. induction trace as [|[now ev] trace IH]; intros st0 Hwf Hb Hrun.
  - cbn in Hrun. by injection Hrun as <-.
  - cbn [run] in Hrun.
    destruct (step now ev st0) as [st1|] eqn:Hstep; [| done].
    pose proof (step_wf now ev st0 st1 Hwf Hstep) as Hwf1.
    apply step_dispatch in Hstep.
    destruct (dispatch_frames
                (λ frame, (0 < length frame ≤ bufferSize st0)%nat)
                ev (set_currentTime now st0) st1 Hwf Hstep)
      as (HB & Hframes & Hbuffer).
    change (bufferSize (set_currentTime now st0)) with (bufferSize st0) in *.
    change (frames (set_currentTime now st0)) with (frames st0) in *.
    change (processingBuffer (set_currentTime now st0))
      with (processingBuffer st0) in *.
    destruct Hb as [Hpb Hfr]. pose proof Hwf as (HB0 & _).
    destruct (IH st1 Hwf1) as [HB' Hb']; [| exact Hrun | ].
    + unfold bounded. rewrite HB. split; [by apply Hbuffer |].
      apply Hframes; [exact Hfr | intros; lia |].
      intros _ Hne. destruct (processingBuffer st0); [done | cbn in *; lia].
    + split; [congruence | exact Hb'].
Qed.

(** X2.  As long as [complete] is not called, every frame a well-formed
    session plays or queues has exactly [bufferSize] samples. *)
Theorem frames_uniform (trace : list (Q * event)) (st0 st : AudioStreamer) :
  wf st0 → uniform st0 → noComplete trace → run trace st0 = Some st →
  uniform st.
Proof.
  revert st0. induction trace as [|[now ev] trace IH];
    intros st0 Hwf Hu Hno Hrun.
  - cbn in Hrun. by injection Hrun as <-.
  - cbn [run] in Hrun. apply Forall_cons in Hno as [Hev Hno]. cbn in Hev.
    destruct (step now ev st0) as [st1|] eqn:Hstep; [| done].
    pose proof (step_wf now ev st0 st1 Hwf Hstep) as Hwf1.
    apply step_dispatch in Hstep.
    destruct (dispatch_frames (λ frame, length frame = bufferSize st0)
                ev (set_currentTime now st0) st1 Hwf Hstep)
      as (HB & Hframes & _).
    change (bufferSize (set_currentTime now st0)) with (bufferSize st0) in *.
    change (frames (set_currentTime now st0)) with (frames st0) in *.
    apply (IH st1 Hwf1); [| exact Hno | exact Hrun].
    unfold uniform. rewrite HB.
    apply Hframes; [exact Hu | done | congruence].
Qed.

End FrameSizes.

Section Sequencing.

Lemma frameDuration_pos (rate : Q) (frame : Float32Array) :
  (0 < rate)%Q → frame ≠ [] → (0 < frameDuration rate frame)%Q.
Proof.
  intros Hrate Hne. unfold frameDuration, Qdiv.
  apply Qmult_lt_0_compat; [| by apply Qinv_lt_0_compat].
  destruct frame; [done |]. unfold Qlt. cbn. lia.
Qed.

Lemma sequenced_after (a b upto : Q) (l : list (list Q * Q * Q)) :
  (a <= b)%Q → sequenced b l upto → sequenced a l upto.
Proof.
  destruct l as [|[[frame s] d] l]; cbn.
  - apply Qle_trans.
  - intros Hab [Hbs Hrest]. split; [by apply (Qle_trans _ b) | exact Hrest].
Qed.

Lemma sequenced_app (l1 l2 : list (list Q * Q * Q)) (a m upto : Q) :
  sequenced a l1 m → sequenced m l2 upto → sequenced a (l1 ++ l2) upto.
Proof.
  revert a. induction l1 as [|[[frame s] d] l1 IH]; cbn; intros a.
  - apply sequenced_after.
  - intros [Has Hrest] H2. split; [exact Has | by apply IH].
Qed.

Lemma chained_sequenced (rate now : Q) (sched : list (list Q * Q * Q)) :
  ∀ t tEnd, chained rate now t sched tEnd → sequenced t sched tEnd.
Proof.
  induction sched as [|[[frame s] d] sched IH]; cbn; intros t tEnd.
  - intros ->. apply Qle_refl.
  - intros (_ & -> & _ & Hrest). split; [apply Q.le_max_l | by apply IH].
Qed.

Lemma sequenced_lookup (l : list (list Q * Q * Q)) :
  ∀ a upto i x y,
    sequenced a l upto → l !! i = Some x → l !! S i = Some y →
    (x.1.2 + x.2 <= y.1.2)%Q.
Proof.
  induction l as [|[[frame s] d] l IH]; intros a upto i x y Hseq Hx Hy;
    [done |].
  destruct Hseq as [_ Hrest]. destruct i as [|i].
  - injection Hx as <-. destruct l as [|[[frame' s'] d'] l]; [done |].
    injection Hy as <-. by destruct Hrest.
  - exact (IH _ _ i x y Hrest Hx Hy).
Qed.

Lemma sequenced_last (l : list (list Q * Q * Q)) :
  ∀ a upto x, sequenced a l upto → last l = Some x → (x.1.2 + x.2 <= upto)%Q.
Proof.
  induction l as [|[[frame s] d] l IH]; intros a upto x Hseq Hx; [done |].
  destruct Hseq as [_ Hrest]. destruct l as [|p l].
  - injection Hx as <-. exact Hrest.
  - exact (IH _ _ x Hrest Hx).
Qed.

(** Within one pass the sources follow one another without a gap, the
    scheduled time does not go back, and it ends ahead of the clock when a
    source was started. *)
Lemma chained_gapless (rate now : Q) (sched : list (list Q * Q * Q)) :
  (0 < rate)%Q →
  ∀ t tEnd,
    Forall (λ p, p.1.1 ≠ []) sched → chained rate now t sched tEnd →
    (t <= tEnd)%Q
    ∧ (sched ≠ [] → (now < tEnd)%Q)
    ∧ ∀ i x y, sched !! i = Some x → sched !! S i = Some y →
               (y.1.2 == x.1.2 + x.2)%Q.
Proof.
  intros Hrate.
  induction sched as [|[[frame s] d] sched IH]; cbn [chained];
    intros t tEnd Hne.
  - intros ->. split; [apply Qle_refl |]. by split.
  - intros (_ & -> & -> & Hrest).
    apply Forall_cons in Hne as [Hframe Hne]. cbn in Hframe.
    pose proof (frameDuration_pos rate frame Hrate Hframe) as Hd.
    destruct (IH _ _ Hne Hrest) as (Hle & _ & Hgap).
    pose proof (Q.le_max_l t now) as Ht. pose proof (Q.le_max_r t now) as Hn.
    split; [lra |]. split; [intros _; lra |].
    intros [|i] x y Hx Hy.
    + injection Hx as <-. cbn [fst snd].
      destruct sched as [|[[frame' s'] d'] sched]; [done |].
      injection Hy as <-. cbn [fst snd]. cbn [chained] in Hrest.
      destruct Hrest as (_ & -> & _). apply Q.max_l. lra.
    + exact (Hgap i x y Hx Hy).
Qed.

(** X3.  One scheduling pass on a well-formed object never moves the
    scheduled time backwards; when it has started a source, the scheduled
    time ends ahead of the clock; and the sources it starts play back to
    back: each starts exactly when the one before it ends. *)
Theorem scheduleNextBuffer_gapless (st : AudioStreamer) :
  wf st →
  ∃ st',
    scheduleNextBuffer st = Returns st'
    ∧ (scheduledTime st <= scheduledTime st')%Q
    ∧ (startedBetween st st' ≠ [] → (currentTime st < scheduledTime st')%Q)
    ∧ ∀ i a b,
        startedBetween st st' !! i = Some a →
        startedBetween st st' !! S i = Some b →
        (nodeStartTime b == nodeStartTime a + nodeDuration a)%Q.
Proof.
  intros Hwf. pose proof Hwf as (_ & Hrate & Hq).
  destruct (scheduleNextBuffer_spec st Hwf)
    as (st1 & sched & Hrun & _ & _ & Hnodes & Hqueue & Hchain & _).
  exists (finishOrRearm st1). split; [exact Hrun |].
  destruct (finishOrRearm_fields st1) as (_ & _ & Hn & Ht & _).
  assert (Hsched : playback <$> startedBetween st (finishOrRearm st1) = sched).
  { apply startedBetween_sched. by rewrite Hn. }
  assert (Hne : Forall (λ p : list Q * Q * Q, p.1.1 ≠ []) sched).
  { rewrite Hqueue in Hq. apply Forall_app in Hq as [Hq _].
    rewrite Forall_fmap in Hq. exact Hq. }
  destruct (chained_gapless _ _ sched Hrate _ _ Hne Hchain)
    as (Hle & Hahead & Hgap).
  rewrite Ht. split; [exact Hle |]. split.
  - intros Hstarted. apply Hahead. intros ->.
    by apply fmap_nil_inv in Hsched.
  - intros i a b Ha Hb.
    apply (Hgap i (playback a) (playback b));
      rewrite <- Hsched, list_lookup_fmap; [by rewrite Ha | by rewrite Hb].
Qed.

Lemma scheduleNextBuffer_sequenced (st : AudioStreamer) (a : Q) :
  wf st → sequenced a (playback <$> sourceNodes st) (scheduledTime st) →
  ∃ st',
    scheduleNextBuffer st = Returns st' ∧ wf st'
    ∧ sequenced a (playback <$> sourceNodes st') (scheduledTime st')
    ∧ isStreamComplete st' = isStreamComplete st
    ∧ (isStreamComplete st = false → isPlaying st' = isPlaying st)
    ∧ (audioQueue st = [] → sourceNodes st = [] →
       audioQueue st' = [] ∧ sourceNodes st' = []).
Proof.
  intros Hwf Hseq.
  destruct (scheduleNextBuffer_wf st Hwf) as (st' & Hrun & Hwf' & _).
  exists st'. split; [exact Hrun |]. split; [exact Hwf' |].
  destruct (scheduleNextBuffer_spec st Hwf)
    as (st1 & sched & Hrun' & _ & Honly & Hnodes & Hqueue & Hchain & _).
  rewrite Hrun in Hrun'. injection Hrun' as ->.
  destruct (finishOrRearm_fields st1)
    as (Hq & _ & Hn & Ht & _ & _ & _ & Hc & _).
  destruct (onlyScheduling_fields _ _ Honly) as (_ & _ & _ & _ & Hc1 & _).
  rewrite Hn, Ht, Hq, Hc, Hc1, Hnodes.
  split; [| split; [reflexivity |]; split].
  - eapply sequenced_app; [exact Hseq |]. by eapply chained_sequenced.
  - intros Hlive.
    assert (Hs : settle (scheduleNextBuffer st) = Some (finishOrRearm st1))
      by (by rewrite Hrun).
    by destruct (settle_scheduleNextBuffer _ _ Hs) as [_ ->].
  - intros Hempty Hnone. rewrite Hempty in Hqueue. symmetry in Hqueue.
    apply app_eq_nil in Hqueue as [Hsched Hq1].
    apply fmap_nil_inv in Hsched. subst sched.
    rewrite Hnone in Hnodes. cbn in Hnodes. apply fmap_nil_inv in Hnodes.
    by split.
Qed.

(** What the engine start at the head of [addPCM16] may write. *)
Lemma startRecognitionForStream_only (startOk : bool) (st : AudioStreamer) :
  let st' := startRecognitionForStream startOk st in
  st' = set_isRecognitionActive (isRecognitionActive st')
          (set_recognizerCalls (recognizerCalls st') st).
Proof.
  unfold startRecognitionForStream.
  destruct (_ && _); [destruct startOk |]; by destruct st.
Qed.

(** [addPCM16] after the engine start: the frames cut come to the end of the
    queue, and when the session does not play yet, playback is anchored at
    the clock plus the initial buffer time and a pass runs. *)
Lemma enqueuePCM16_cases (chunk : Uint8Array) (st : AudioStreamer) :
  wf st →
  ∃ new buffer,
    let st2 :=
      set_processingBuffer buffer (set_audioQueue (audioQueue st ++ new) st) in
    wf st2
    ∧ enqueuePCM16 chunk st
      = if isPlaying st then Returns st2
        else scheduleNextBuffer
               (set_scheduledTime (currentTime st + initialBufferTime st)%Q
                  (set_isPlaying true st2)).
Proof.
  intros Hwf. pose proof Hwf as (HB & Hrate & Hq).
  set (samples := processingBuffer st ++ pcm16Samples chunk).
  set (k := (length samples / bufferSize st)%nat).
  exists (slices (bufferSize st) k samples), (drop (k * bufferSize st) samples).
  intros st2. split.
  - subst st2. unfold wf. cbn. split; [exact HB |]. split; [exact Hrate |].
    apply Forall_app. split; [exact Hq |].
    assert (Hfull : (k * bufferSize st ≤ length samples)%nat).
    { subst k. rewrite Nat.mul_comm. apply Nat.Div0.mul_div_le. }
    eapply Forall_impl; [apply (slices_full _ _ _ Hfull) |].
    cbn. intros frame Hlen ->. cbn in Hlen. lia.
  - rewrite enqueuePCM16_eq. cbn zeta. fold samples.
    rewrite rechunkLoop_spec;
      cbn [bufferSize processingBuffer set_processingBuffer]; [| exact HB |].
    2:{ apply Nat.lt_succ_r, Nat.Div0.div_le_upper_bound.
        destruct (bufferSize st); [lia | cbn; lia]. }
    fold k. cbn [audioQueue set_processingBuffer set_audioQueue].
    change (isPlaying (set_processingBuffer _ _)) with (isPlaying st).
    destruct (isPlaying st); reflexivity.
Qed.

Lemma steady_eq (st st' : AudioStreamer) :
  steady st →
  audioQueue st' = audioQueue st → bufferSize st' = bufferSize st →
  sampleRate st' = sampleRate st →
  isStreamComplete st' = isStreamComplete st →
  isPlaying st' = isPlaying st →
  playback <$> sourceNodes st' = playback <$> sourceNodes st →
  scheduledTime st' = scheduledTime st →
  steady st'.
Proof.
  intros (Hwf & Hc & Hidle & a & Hseq) Hq HB Hrate Hc' Hplay Hn Ht.
  unfold steady, wf. rewrite Hq, HB, Hrate, Hc', Hplay, Hn, Ht.
  split; [exact Hwf |]. split; [exact Hc |]. split; [| by exists a].
  intros Hoff. destruct (Hidle Hoff) as [Hnone Hempty].
  split; [| exact Hempty]. rewrite Hnone in Hn. by apply fmap_nil_inv in Hn.
Qed.

Lemma dispatch_steady (ev : event) (st st' : AudioStreamer) :
  isControl ev = false → steady st → dispatch ev st = Some st' → steady st'.
Proof.
  intros Hev Hsteady. pose proof Hsteady as (Hwf & Hc & Hidle & a & Hseq).
  destruct ev as [chunk ok | | ok | | i ok | source | noSpeech | | fulfilled];
    try discriminate Hev; cbn [dispatch].
  - unfold addPCM16.
    pose proof (startRecognitionForStream_only ok st) as Honly.
    set (st1 := startRecognitionForStream ok st) in *. cbn zeta in Honly.
    assert (Hsteady1 : steady st1)
      by (apply (steady_eq st); [exact Hsteady | by rewrite Honly ..]).
    destruct Hsteady1 as (Hwf1 & Hc1 & Hidle1 & a1 & Hseq1).
    destruct (enqueuePCM16_cases chunk st1 Hwf1)
      as (new & buffer & Hwf2 & Hrun).
    rewrite Hrun. destruct (isPlaying st1) eqn:Hplay.
    + cbn. intros [= <-]. split; [exact Hwf2 |]. split; [exact Hc1 |].
      split; [| by exists a1]. cbn. by rewrite Hplay.
    + destruct (Hidle1 eq_refl) as [Hnone Hempty].
      set (st3 := set_scheduledTime _ _).
      destruct (scheduleNextBuffer_sequenced st3 (scheduledTime st3))
        as (st4 & Hrun4 & Hwf4 & Hseq4 & Hc4 & Hplay4 & _).
      { exact Hwf2. }
      { subst st3. cbn. rewrite Hnone. apply Qle_refl. }
      rewrite Hrun4. cbn. intros [= <-].
      split; [exact Hwf4 |]. split; [by rewrite Hc4 |].
      split; [| by eexists]. rewrite Hplay4 by exact Hc1. done.
  - destruct (timers st !! i) as [t|]; [| done].
    destruct (Qle_bool _ _); [| done].
    destruct (timerCallback t); cbn [runTimer].
    + set (s := set_timers _ st).
      destruct (scheduleNextBuffer_sequenced s a Hwf Hseq)
        as (st4 & Hrun4 & Hwf4 & Hseq4 & Hc4 & Hplay4 & Hnone4).
      rewrite Hrun4. cbn. intros [= <-].
      split; [exact Hwf4 |]. split; [by rewrite Hc4 |].
      split; [| by eexists]. rewrite Hplay4 by exact Hc. intros Hoff.
      destruct (Hidle Hoff) as [Hnone Hempty].
      by destruct (Hnone4 Hempty Hnone).
    + unfold restartRecognitionCallback.
      destruct (negb _); [destruct (speechRecognizer _); [destruct ok |] |];
        cbn; intros [= <-]; by apply (steady_eq st).
    + cbn. intros [= <-]. by apply (steady_eq st).
  - destruct (sourceNodes st !! source) as [n|]; [| done].
    destruct (_ && _); [| done].
    intros [= <-]. unfold onendedHandler.
    destruct (onended n); [destruct (_ && _) |];
      (apply (steady_eq st); [exact Hsteady | try reflexivity ..]);
      cbn; apply fmap_playback_markEnded.
  - destruct (speechRecognizer st); [| done].
    intros [= <-]. unfold onerror, restartRecognition.
    destruct noSpeech; [destruct (isRecognitionActive st) |];
      by apply (steady_eq st).
  - destruct (speechRecognizer st); [| done].
    intros [= <-]. unfold onend, restartRecognition. cbn.
    destruct (_ && _); by apply (steady_eq st).
Qed.

Lemma run_steady (trace : list (Q * event)) (st0 st : AudioStreamer) :
  noControl trace → steady st0 → run trace st0 = Some st → steady st.
Proof.
  revert st0. induction trace as [|[now ev] trace IH]; intros st0 Hno Hs Hrun.
  - cbn in Hrun. by injection Hrun as <-.
  - cbn [run] in Hrun. apply Forall_cons in Hno as [Hev Hno]. cbn in Hev.
    destruct (step now ev st0) as [st1|] eqn:Hstep; [| done].
    apply step_dispatch in Hstep.
    apply (IH st1 Hno); [| exact Hrun].
    apply (dispatch_steady ev (set_currentTime now st0)); [exact Hev | | exact Hstep].
    by apply (steady_eq st0).
Qed.

(** X4.  While a stream is neither completed, stopped nor resumed, the
    sources handed to the output never overlap: each source starts no
    earlier than the one created before it ends, and the last one ends no
    later than the scheduled time.  This holds in every state reached from a
    session with that property, a fresh one for instance. *)
Theorem sources_never_overlap (trace : list (Q * event))
    (st0 st : AudioStreamer) :
  steady st0 → noControl trace → run trace st0 = Some st →
  steady st
  ∧ (∀ i a b,
       sourceNodes st !! i = Some a → sourceNodes st !! S i = Some b →
       (nodeStartTime a + nodeDuration a <= nodeStartTime b)%Q)
  ∧ (∀ n, last (sourceNodes st) = Some n →
          (nodeStartTime n + nodeDuration n <= scheduledTime st)%Q).
Proof.
  intros Hs0 Hno Hrun.
  pose proof (run_steady trace st0 st Hno Hs0 Hrun) as Hs.
  split; [exact Hs |]. destruct Hs as (_ & _ & _ & a & Hseq). split.
  - intros i x y Hx Hy.
    apply (sequenced_lookup _ _ _ i (playback x) (playback y) Hseq);
      rewrite list_lookup_fmap; [by rewrite Hx | by rewrite Hy].
  - intros n Hn.
    apply (sequenced_last _ _ _ (playback n) Hseq).
    by rewrite fmap_last, Hn.
Qed.

Lemma steady_constructor (rate : Q) (recognition : bool)
    (state : ContextState) (time : Q) :
  (0 < rate)%Q → steady (constructor rate recognition state time).
Proof.
  intros Hrate. split; [by apply wf_constructor |]. split; [reflexivity |].
  split; [done |]. exists 0%Q. cbn. apply Qle_refl.
Qed.

End Sequencing.

Section Idle.

Lemma wf_flush (st : AudioStreamer) :
  wf st → processingBuffer st ≠ [] →
  wf (set_processingBuffer []
        (set_audioQueue (audioQueue st ++ [processingBuffer st])
           (set_isStreamComplete true st))).
Proof.
  intros (HB & Hrate & Hq) Hne. unfold wf. cbn.
  split; [exact HB |]. split; [exact Hrate |].
  apply Forall_app. split; [exact Hq | by repeat constructor].
Qed.

(** [complete], method by method: with an empty accumulation buffer the
    callback is called at once; otherwise the buffer is queued as the last
    frame and, when the session plays, a pass runs. *)
Lemma complete_cases (st : AudioStreamer) :
  complete st
  = if decide (processingBuffer st = []) then
      Returns (onComplete (set_isStreamComplete true st))
    else
      let st2 :=
        set_processingBuffer []
          (set_audioQueue (audioQueue st ++ [processingBuffer st])
             (set_isStreamComplete true st)) in
      if isPlaying st then scheduleNextBuffer st2 else Returns st2.
Proof.
  unfold complete. cbn [processingBuffer set_isStreamComplete].
  destruct (processingBuffer st); reflexivity.
Qed.

Lemma scheduleNextBuffer_idle (st : AudioStreamer) :
  wf st →
  ∃ st',
    scheduleNextBuffer st = Returns st'
    ∧ processingBuffer st' = processingBuffer st
    ∧ (audioQueue st = [] → audioQueue st' = [])
    ∧ (isPlaying st' = false →
       isPlaying st = false
       ∨ (audioQueue st' = [] ∧ processingBuffer st' = [])).
Proof.
  intros Hwf.
  destruct (scheduleNextBuffer_spec st Hwf)
    as (st1 & sched & Hrun & _ & Honly & _ & Hqueue & _).
  exists (finishOrRearm st1). split; [exact Hrun |].
  destruct (finishOrRearm_fields st1) as (Hq & Hpb & _).
  destruct (onlyScheduling_fields _ _ Honly) as (Hplay1 & _ & _ & Hpb1 & _).
  rewrite Hq, Hpb, finishOrRearm_isPlaying, Hplay1.
  split; [exact Hpb1 |]. split.
  - intros Hempty. rewrite Hempty in Hqueue. symmetry in Hqueue.
    by apply app_eq_nil in Hqueue as [_ ?].
  - destruct (isPlaying st); [| by left]. cbn. intros Hoff. right.
    destruct (audioQueue st1); [| done].
    destruct (processingBuffer st1); [done |]. cbn in Hoff. congruence.
Qed.

Lemma stop_fields (ok : bool) (st : AudioStreamer) :
  ∃ st', stop ok st = Returns st'
         ∧ isPlaying st' = false
         ∧ audioQueue st' = [] ∧ processingBuffer st' = []
         ∧ sourceNodes st' = sourceNodes st
         ∧ endOfQueueAudioSource st' = endOfQueueAudioSource st.
Proof.
  unfold stop.
  destruct (_ && _); [destruct ok |]; eexists; (split; [reflexivity |]);
    done.
Qed.

Lemma dispatch_idleEmpty (ev : event) (st st' : AudioStreamer) :
  wf st → idleEmpty st → dispatch ev st = Some st' → idleEmpty st'.
Proof.
  intros Hwf Hidle.
  assert (Heq : ∀ s, isPlaying s = isPlaying st →
                     audioQueue s = audioQueue st →
                     processingBuffer s = processingBuffer st → idleEmpty s).
  { intros s Hp Hq Hb. unfold idleEmpty. by rewrite Hp, Hq, Hb. }
  destruct ev as [chunk ok | | ok | | i ok | source | noSpeech | | fulfilled];
    cbn [dispatch].
  - unfold addPCM16.
    pose proof (startRecognitionForStream_only ok st) as Honly.
    pose proof (wf_startRecognitionForStream ok st Hwf) as Hwf1.
    set (st1 := startRecognitionForStream ok st) in *. cbn zeta in Honly.
    destruct (enqueuePCM16_cases chunk st1 Hwf1)
      as (new & buffer & Hwf2 & Hrun).
    rewrite Hrun. destruct (isPlaying st1) eqn:Hplay.
    + cbn. intros [= <-]. unfold idleEmpty. cbn. by rewrite Hplay.
    + set (st3 := set_scheduledTime _ _).
      destruct (scheduleNextBuffer_idle st3 Hwf2)
        as (st4 & Hrun4 & _ & _ & Hoff4).
      rewrite Hrun4. cbn. intros [= <-]. intros Hoff.
      by destruct (Hoff4 Hoff) as [? | ?].
  - rewrite complete_cases.
    destruct (decide (processingBuffer st = [])) as [Hnil | Hne].
    + cbn. intros [= <-]. by apply Heq.
    + cbn zeta. destruct (isPlaying st) eqn:Hplay.
      * destruct (scheduleNextBuffer_idle _ (wf_flush st Hwf Hne))
          as (st4 & Hrun4 & _ & _ & Hoff4).
        rewrite Hrun4. cbn. intros [= <-]. intros Hoff.
        destruct (Hoff4 Hoff) as [Hoff' | ?]; [| done].
        cbn in Hoff'. congruence.
      * by destruct (Hidle Hplay).
  - destruct (stop_fields ok st) as (st1 & Hrun & _ & Hq & Hpb & _).
    rewrite Hrun. cbn. intros [= <-]. by intros _.
  - unfold resume.
    destruct (contextState st); cbn; intros [= <-]; by apply Heq.
  - destruct (timers st !! i) as [t|]; [| done].
    destruct (Qle_bool _ _); [| done].
    destruct (timerCallback t); cbn [runTimer].
    + set (s := set_timers _ st).
      destruct (scheduleNextBuffer_idle s Hwf)
        as (st4 & Hrun4 & Hpb4 & Hq4 & Hoff4).
      rewrite Hrun4. cbn. intros [= <-]. intros Hoff.
      destruct (Hoff4 Hoff) as [Hoff' | ?]; [| done].
      destruct (Hidle Hoff') as [Hq Hpb]. split; [by apply Hq4 |].
      by rewrite Hpb4.
    + unfold restartRecognitionCallback.
      destruct (negb _); [destruct (speechRecognizer _); [destruct ok |] |];
        cbn; intros [= <-]; by apply Heq.
    + cbn. intros [= <-]. by apply Heq.
  - destruct (sourceNodes st !! source) as [n|]; [| done].
    destruct (_ && _); [| done].
    intros [= <-]. unfold onendedHandler.
    destruct (onended n); [destruct (_ && _) |]; by apply Heq.
  - destruct (speechRecognizer st); [| done].
    intros [= <-]. unfold onerror, restartRecognition.
    destruct noSpeech; [destruct (isRecognitionActive st) |]; by apply Heq.
  - destruct (speechRecognizer st); [| done].
    intros [= <-]. unfold onend, restartRecognition. cbn.
    destruct (_ && _); by apply Heq.
  - destruct (0 <? _)%nat; [| done]. unfold resumeSettled.
    destruct fulfilled; cbn; intros [= <-]; by apply Heq.
Qed.

(** X5.  A session that is not playing holds no queued frame and no
    buffered sample, in every state reached by any sequence of events from
    a well-formed session of which this holds (a fresh one for instance).
    So whenever [complete] flushes a non-empty accumulation buffer, the
    session plays and the scheduling pass runs on the flushed frame. *)
Theorem idle_session_is_empty (trace : list (Q * event))
    (st0 st : AudioStreamer) :
  wf st0 → idleEmpty st0 → run trace st0 = Some st →
  idleEmpty st
  ∧ (processingBuffer st ≠ [] →
     complete st
     = scheduleNextBuffer
         (set_processingBuffer []
            (set_audioQueue (audioQueue st ++ [processingBuffer st])
               (set_isStreamComplete true st)))).
Proof.
  intros Hwf0 Hidle0 Hrun.
  assert (Hidle : idleEmpty st).
  { revert st0 Hwf0 Hidle0 Hrun.
    induction trace as [|[now ev] trace IH]; intros st0 Hwf Hidle Hrun.
    - cbn in Hrun. by injection Hrun as <-.
    - cbn [run] in Hrun.
      destruct (step now ev st0) as [st1|] eqn:Hstep; [| done].
      pose proof (step_wf now ev st0 st1 Hwf Hstep) as Hwf1.
      apply step_dispatch in Hstep.
      apply (IH st1 Hwf1); [| exact Hrun].
      by apply (dispatch_idleEmpty ev (set_currentTime now st0)). }
  split; [exact Hidle |]. intros Hne. rewrite complete_cases.
  destruct (decide _) as [? | _]; [done |]. cbn zeta.
  destruct (isPlaying st) eqn:Hplay; [reflexivity |].
  by destruct (Hidle Hplay).
Qed.

End Idle.

Section Handlers.

Lemma singleArmed_eq (st st' : AudioStreamer) :
  singleArmed st → sourceNodes st' = sourceNodes st →
  endOfQueueAudioSource st' = endOfQueueAudioSource st → singleArmed st'.
Proof. intros H Hn He. unfold singleArmed. by rewrite Hn, He. Qed.

(** The loop keeps at most one live handler: a source that empties the
    queue takes the handler from the end-of-queue source before it. *)
Lemma scheduleWhile_singleArmed (queue : list Float32Array) :
  ∀ st st', singleArmed st → audioQueue st = queue →
            scheduleWhile queue st = Returns st' → singleArmed st'.
Proof.
  induction queue as [|audioData rest IH]; intros st st' Hone Hq;
    cbn [scheduleWhile].
  - by intros [= <-].
  - destruct (Qlt_bool _ _); [| by intros [= <-]].
    cbn zeta. destruct (createAudioBuffer _ _) as [e | [data duration]];
      [done |].
    intros Hrun. eapply IH; [| | exact Hrun].
    2:{ destruct rest; cbn; [unfold trackEndOfQueue |]; cbn;
          [by destruct (endOfQueueAudioSource st) | done]. }
    clear Hrun. destruct rest as [|next rest]; cbn [length Nat.eqb].
    + intros i n Hi Harmed Hlive. unfold trackEndOfQueue in Hi |- *.
      cbn in Hi |- *.
      destruct (endOfQueueAudioSource st) as [previous|] eqn:Heoq;
        cbn in Hi |- *.
      * apply lookup_app_Some in Hi as [Hi | [Hlen Hi]].
        -- exfalso. destruct (decide (i = previous)) as [-> | Hne].
           ++ rewrite list_lookup_alter_eq in Hi.
              destruct (sourceNodes st !! previous); cbn in Hi; [| done].
              injection Hi as <-. done.
           ++ rewrite list_lookup_alter_ne in Hi by done.
              pose proof (Hone i n Hi Harmed Hlive). congruence.
        -- rewrite length_alter in Hlen, Hi.
           apply lookup_lt_Some in Hi. cbn in Hi. f_equal. lia.
      * apply lookup_app_Some in Hi as [Hi | [Hlen Hi]].
        -- pose proof (Hone i n Hi Harmed Hlive). congruence.
        -- apply lookup_lt_Some in Hi. cbn in Hi. f_equal. lia.
    + intros i n Hi Harmed Hlive. cbn in Hi |- *.
      apply lookup_app_Some in Hi as [Hi | [Hlen Hi]].
      * exact (Hone i n Hi Harmed Hlive).
      * destruct (i - length (sourceNodes st))%nat; [| done].
        injection Hi as <-. done.
Qed.

Lemma scheduleNextBuffer_singleArmed (st : AudioStreamer) :
  wf st → singleArmed st →
  ∃ st', scheduleNextBuffer st = Returns st' ∧ singleArmed st'.
Proof.
  intros Hwf Hone.
  destruct (scheduleNextBuffer_spec st Hwf) as (st1 & _ & Hrun & Hloop & _).
  exists (finishOrRearm st1). split; [exact Hrun |].
  destruct (finishOrRearm_fields st1) as (_ & _ & Hn & _ & He & _).
  apply (singleArmed_eq st1); [| exact Hn | exact He].
  by apply (scheduleWhile_singleArmed (audioQueue st) st).
Qed.

Lemma dispatch_singleArmed (ev : event) (st st' : AudioStreamer) :
  wf st → singleArmed st → dispatch ev st = Some st' → singleArmed st'.
Proof.
  intros Hwf Hone.
  destruct ev as [chunk ok | | ok | | i ok | source | noSpeech | | fulfilled];
    cbn [dispatch].
  - unfold addPCM16.
    pose proof (startRecognitionForStream_only ok st) as Honly.
    pose proof (wf_startRecognitionForStream ok st Hwf) as Hwf1.
    set (st1 := startRecognitionForStream ok st) in *. cbn zeta in Honly.
    assert (Hone1 : singleArmed st1)
      by (apply (singleArmed_eq st); [exact Hone | by rewrite Honly ..]).
    destruct (enqueuePCM16_cases chunk st1 Hwf1)
      as (new & buffer & Hwf2 & Hrun).
    rewrite Hrun. destruct (isPlaying st1).
    + cbn. intros [= <-]. by apply (singleArmed_eq st1).
    + set (st3 := set_scheduledTime _ _).
      destruct (scheduleNextBuffer_singleArmed st3 Hwf2)
        as (st4 & Hrun4 & Hone4); [by apply (singleArmed_eq st1) |].
      rewrite Hrun4. cbn. by intros [= <-].
  - rewrite complete_cases.
    destruct (decide (processingBuffer st = [])) as [Hnil | Hne].
    + cbn. intros [= <-]. by apply (singleArmed_eq st).
    + cbn zeta. destruct (isPlaying st).
      * destruct (scheduleNextBuffer_singleArmed _ (wf_flush st Hwf Hne))
          as (st4 & Hrun4 & Hone4); [by apply (singleArmed_eq st) |].
        rewrite Hrun4. cbn. by intros [= <-].
      * cbn. intros [= <-]. by apply (singleArmed_eq st).
  - destruct (stop_fields ok st) as (st1 & Hrun & _ & _ & _ & Hn & He).
    rewrite Hrun. cbn. intros [= <-]. by apply (singleArmed_eq st).
  - unfold resume.
    destruct (contextState st); cbn; intros [= <-];
      by apply (singleArmed_eq st).
  - destruct (timers st !! i) as [t|]; [| done].
    destruct (Qle_bool _ _); [| done].
    destruct (timerCallback t); cbn [runTimer].
    + destruct (scheduleNextBuffer_singleArmed
                  (set_timers (delete i (timers st)) st) Hwf Hone)
        as (st4 & Hrun4 & Hone4).
      rewrite Hrun4. cbn. by intros [= <-].
    + unfold restartRecognitionCallback.
      destruct (negb _); [destruct (speechRecognizer _); [destruct ok |] |];
        cbn; intros [= <-]; by apply (singleArmed_eq st).
    + cbn. intros [= <-]. by apply (singleArmed_eq st).
  - destruct (sourceNodes st !! source) as [n|] eqn:Hsource; [| done].
    destruct (_ && _); [| done].
    intros [= <-].
    assert (Hmarked : ∀ j m,
              alter markEnded source (sourceNodes st) !! j = Some m →
              onended m = true → ended m = false →
              j ≠ source ∧ endOfQueueAudioSource st = Some j).
    { intros j m Hj Harmed Hlive.
      destruct (decide (j = source)) as [-> | Hne].
      - rewrite list_lookup_alter_eq, Hsource in Hj. injection Hj as <-. done.
      - rewrite list_lookup_alter_ne in Hj by done.
        split; [exact Hne | exact (Hone j m Hj Harmed Hlive)]. }
    unfold onendedHandler.
    destruct (onended n); [destruct (_ && bool_decide _) eqn:Hlast |];
      intros j m Hj Harmed Hlive; cbn in Hj |- *;
      destruct (Hmarked j m Hj Harmed Hlive) as [Hne He]; [| done | done].
    apply andb_true_iff in Hlast as [_ Hlast].
    apply bool_decide_eq_true in Hlast. cbn in Hlast. congruence.
  - destruct (speechRecognizer st); [| done].
    intros [= <-]. unfold onerror, restartRecognition.
    destruct noSpeech; [destruct (isRecognitionActive st) |];
      by apply (singleArmed_eq st).
  - destruct (speechRecognizer st); [| done].
    intros [= <-]. unfold onend, restartRecognition. cbn.
    destruct (_ && _); by apply (singleArmed_eq st).
  - destruct (0 <? _)%nat; [| done]. unfold resumeSettled.
    destruct fulfilled; cbn; intros [= <-]; by apply (singleArmed_eq st).
Qed.

(** X6.  At most one source carries a live end-of-playback handler, and it
    is the end-of-queue source: in every state reached by any sequence of
    events from a well-formed session of which this holds (a fresh one has
    no source), a source whose handler is set and whose playback has not
    ended is [endOfQueueAudioSource]. *)
Theorem one_live_handler (trace : list (Q * event))
    (st0 st : AudioStreamer) :
  wf st0 → singleArmed st0 → run trace st0 = Some st → singleArmed st.
Proof.
  revert st0. induction trace as [|[now ev] trace IH]; intros st0 Hwf Hone Hrun.
  - cbn in Hrun. by injection Hrun as <-.
  - cbn [run] in Hrun.
    destruct (step now ev st0) as [st1|] eqn:Hstep; [| done].
    pose proof (step_wf now ev st0 st1 Hwf Hstep) as Hwf1.
    apply step_dispatch in Hstep.
    apply (IH st1 Hwf1); [| exact Hrun].
    by apply (dispatch_singleArmed ev (set_currentTime now st0)).
Qed.

End Handlers.

Section Stall.

Lemma stalled_eq (st st' : AudioStreamer) :
  stalled st → isPlaying st' = isPlaying st → timers st' = timers st →
  stalled st'.
Proof. intros H Hp Ht. unfold stalled. by rewrite Hp, Ht. Qed.

Lemma dispatch_stalled (ev : event) (st st' : AudioStreamer) :
  isCompleteOrStop ev = false → wf st → stalled st →
  dispatch ev st = Some st' →
  stalled st' ∧ playback <$> sourceNodes st' = playback <$> sourceNodes st.
Proof.
  intros Hev Hwf Hstall. pose proof Hstall as [Hplay Htimers].
  destruct ev as [chunk ok | | ok | | i ok | source | noSpeech | | fulfilled];
    try discriminate Hev; cbn [dispatch].
  - unfold addPCM16.
    pose proof (startRecognitionForStream_only ok st) as Honly.
    pose proof (wf_startRecognitionForStream ok st Hwf) as Hwf1.
    set (st1 := startRecognitionForStream ok st) in *. cbn zeta in Honly.
    destruct (enqueuePCM16_cases chunk st1 Hwf1)
      as (new & buffer & Hwf2 & Hrun).
    rewrite Hrun.
    replace (isPlaying st1) with true by (by rewrite Honly).
    cbn. intros [= <-].
    split; [apply (stalled_eq st); [exact Hstall | ..] |]; cbn;
      by rewrite Honly.
  - unfold resume.
    destruct (contextState st); cbn; intros [= <-];
      (split; [by apply (stalled_eq st) | done]).
  - destruct (timers st !! i) as [t|] eqn:Ht; [| done].
    destruct (Qle_bool _ _); [| done].
    assert (Hrest : stalled (set_timers (delete i (timers st)) st)).
    { split; [exact Hplay |]. cbn. by apply Forall_delete. }
    pose proof (Forall_lookup_1 _ _ _ _ Htimers Ht) as Hcb. cbn beta in Hcb.
    destruct (timerCallback t); [done | |]; cbn [runTimer].
    + unfold restartRecognitionCallback.
      destruct (negb _); [destruct (speechRecognizer _); [destruct ok |] |];
        cbn; intros [= <-]; (split; [by eapply stalled_eq | done]).
    + cbn. intros [= <-]. split; [by eapply stalled_eq | done].
  - destruct (sourceNodes st !! source) as [n|]; [| done].
    destruct (_ && _); [| done].
    intros [= <-]. unfold onendedHandler.
    destruct (onended n); [destruct (_ && _) |];
      (split; [by apply (stalled_eq st) |]);
      cbn; apply fmap_playback_markEnded.
  - destruct (speechRecognizer st); [| done].
    intros [= <-]. unfold onerror, restartRecognition.
    destruct noSpeech; [destruct (isRecognitionActive st) |];
      (split; [| done]); try (by apply (stalled_eq st));
      split; [exact Hplay |]; cbn; apply Forall_app; split;
      [exact Htimers | by repeat constructor].
  - destruct (speechRecognizer st); [| done].
    intros [= <-]. unfold onend, restartRecognition. cbn.
    destruct (_ && _); (split; [| done]); try (by apply (stalled_eq st));
      split; [exact Hplay |]; cbn; apply Forall_app; split;
      [exact Htimers | by repeat constructor].
  - destruct (0 <? _)%nat; [| done]. unfold resumeSettled.
    destruct fulfilled; cbn; intros [= <-];
      (split; [by apply (stalled_eq st) | done]).
Qed.

(** X7.  Once a session plays with no timer for a scheduling pass pending
    (the pass sets none when it finds queue and accumulation buffer empty),
    nothing but [complete] or [stop] brings the scheduler back: through
    every sequence of other events, further chunks of audio included, the
    session stays in that condition and no new source is handed to the
    output. *)
Theorem stalled_until_complete_or_stop (trace : list (Q * event))
    (st0 st : AudioStreamer) :
  wf st0 → stalled st0 → noCompleteNoStop trace → run trace st0 = Some st →
  stalled st ∧ playback <$> sourceNodes st = playback <$> sourceNodes st0.
Proof.
  revert st0.
  induction trace as [|[now ev] trace IH]; intros st0 Hwf Hstall Hno Hrun.
  - cbn in Hrun. by injection Hrun as <-.
  - cbn [run] in Hrun. apply Forall_cons in Hno as [Hev Hno]. cbn in Hev.
    destruct (step now ev st0) as [st1|] eqn:Hstep; [| done].
    pose proof (step_wf now ev st0 st1 Hwf Hstep) as Hwf1.
    apply step_dispatch in Hstep.
    destruct (dispatch_stalled ev (set_currentTime now st0) st1 Hev Hwf)
      as [Hstall1 Hnodes1]; [by apply (stalled_eq st0) | exact Hstep |].
    destruct (IH st1 Hwf1 Hstall1 Hno Hrun) as [Hstall' Hnodes'].
    split; [exact Hstall' |]. by rewrite Hnodes', Hnodes1.
Qed.

End Stall.
Lemma wf_set_bufferSize (size : nat) (st : AudioStreamer) :
  (0 < size)%nat → wf st → wf (set_bufferSize size st).
Proof. intros Hsize (_ & Hrate & Hq). by split. Qed.

(** X1, at an input: frames of two samples; three samples arrive, the
    stream is completed and stopped. *)
Lemma frames_and_buffer_bounded_witness :
  let st0 := set_bufferSize 2 (constructor 24000 true running 0) in
  let trace :=
    [(0, AddPCM16 ["001"; "000"; "002"; "000"; "003"; "000"]%byte true);
     (0.05, Complete); (0.1, Stop true)]%Q in
  wf st0 ∧ bounded st0
  ∧ ∃ st, run trace st0 = Some st ∧ bufferSize st = 2%nat ∧ bounded st.
Proof.
  intros st0 trace.
  assert (Hwf : wf st0)
    by (apply wf_set_bufferSize; [lia | by apply wf_constructor]).
  assert (Hb : bounded st0) by (split; [cbn; lia | constructor]).
  assert (Hrun : ∃ st, run trace st0 = Some st) by (eexists; evaluate).
  destruct Hrun as [st Hrun].
  split; [exact Hwf |]. split; [exact Hb |].
  exists st. split; [exact Hrun |].
  exact (frames_and_buffer_bounded trace st0 st Hwf Hb Hrun).
Defined.

(** X2, at an input: frames of two samples; three samples arrive and the
    timer of the first pass fires. *)
Lemma frames_uniform_witness :
  let st0 := set_bufferSize 2 (constructor 24000 true running 0) in
  let trace :=
    [(0, AddPCM16 ["001"; "000"; "002"; "000"; "003"; "000"]%byte true);
     (0.06, Timeout 0 true)]%Q in
  wf st0 ∧ uniform st0 ∧ noComplete trace
  ∧ ∃ st, run trace st0 = Some st ∧ uniform st.
Proof.
  intros st0 trace.
  assert (Hwf : wf st0)
    by (apply wf_set_bufferSize; [lia | by apply wf_constructor]).
  assert (Hu : uniform st0) by constructor.
  assert (Hno : noComplete trace) by (by repeat constructor).
  assert (Hrun : ∃ st, run trace st0 = Some st) by (eexists; evaluate).
  destruct Hrun as [st Hrun].
  split; [exact Hwf |]. split; [exact Hu |]. split; [exact Hno |].
  exists st. split; [exact Hrun |].
  exact (frames_uniform trace st0 st Hwf Hu Hno Hrun).
Defined.

(** X3, at an input: two short frames, playback behind the clock. *)
Lemma scheduleNextBuffer_gapless_witness :
  let st :=
    set_audioQueue [[1; 1]; [1; 1; 1]]%Q
      (set_isPlaying true
         (set_scheduledTime 0.1 (constructor 24000 true running 1))) in
  wf st
  ∧ ∃ st', scheduleNextBuffer st = Returns st'
           ∧ (scheduledTime st <= scheduledTime st')%Q
           ∧ (currentTime st < scheduledTime st')%Q.
Proof.
  intros st.
  assert (Hwf : wf st).
  { unfold wf, st. cbn [bufferSize sampleRate audioQueue constructor
                        set_audioQueue set_isPlaying set_scheduledTime].
    split; [apply Nat.ltb_lt; evaluate |].
    split; [reflexivity |]. by repeat constructor. }
  split; [exact Hwf |].
  destruct (scheduleNextBuffer_gapless st Hwf)
    as (st' & Hrun & Hle & Hahead & _).
  exists st'. split; [exact Hrun |]. split; [exact Hle |].
  apply Hahead. intros Hnone.
  assert (Hlen : length (startedBetween st st') = 2%nat).
  { revert Hrun. vm_compute. intros [= <-]. reflexivity. }
  by rewrite Hnone in Hlen.
Defined.

(** X4, at an input: a fresh session with frames of two samples; three
    samples, the timer of the first pass, three samples more and the next
    timer: three sources from two passes, one behind the other. *)
Lemma sources_never_overlap_witness :
  let st0 := set_bufferSize 2 (constructor 24000 true running 0) in
  let trace :=
    [(0, AddPCM16 ["001"; "000"; "002"; "000"; "003"; "000"]%byte true);
     (0.06, Timeout 0 true);
     (0.07, AddPCM16 ["004"; "000"; "005"; "000"; "006"; "000"]%byte true);
     (0.08, Timeout 0 true)]%Q in
  steady st0 ∧ noControl trace
  ∧ ∃ st a b c,
      run trace st0 = Some st
      ∧ sourceNodes st = [a; b; c]
      ∧ (nodeStartTime a + nodeDuration a <= nodeStartTime b)%Q
      ∧ (nodeStartTime b + nodeDuration b <= nodeStartTime c)%Q
      ∧ (nodeStartTime c + nodeDuration c <= scheduledTime st)%Q.
Proof.
  intros st0 trace.
  assert (Hs : steady st0).
  { split; [apply wf_set_bufferSize; [lia | by apply wf_constructor] |].
    split; [reflexivity |]. split; [done |]. exists 0%Q. apply Qle_refl. }
  assert (Hno : noControl trace) by (by repeat constructor).
  assert (Hrun : ∃ st a b c, run trace st0 = Some st
                             ∧ sourceNodes st = [a; b; c]).
  { eexists _, _, _, _. split; evaluate. }
  destruct Hrun as (st & a & b & c & Hrun & Hnodes).
  split; [exact Hs |]. split; [exact Hno |].
  exists st, a, b, c. split; [exact Hrun |]. split; [exact Hnodes |].
  destruct (sources_never_overlap trace st0 st Hs Hno Hrun)
    as (_ & Hpairs & Hlast).
  split; [apply (Hpairs 0%nat); by rewrite Hnodes |].
  split; [apply (Hpairs 1%nat); by rewrite Hnodes |].
  apply Hlast. by rewrite Hnodes.
Defined.

(** X5, at an input: one sample on a fresh session. *)
Lemma idle_session_is_empty_witness :
  let st0 := constructor 24000 true running 0 in
  let trace := [(0%Q, AddPCM16 ["001"; "000"]%byte true)] in
  wf st0 ∧ idleEmpty st0
  ∧ ∃ st, run trace st0 = Some st ∧ processingBuffer st = [normalize 1]
          ∧ idleEmpty st.
Proof.
  intros st0 trace.
  assert (Hwf : wf st0) by (by apply wf_constructor).
  assert (Hidle : idleEmpty st0) by done.
  assert (Hrun : ∃ st, run trace st0 = Some st
                       ∧ processingBuffer st = [normalize 1]).
  { eexists. split; evaluate. }
  destruct Hrun as (st & Hrun & Hpb).
  split; [exact Hwf |]. split; [exact Hidle |].
  exists st. split; [exact Hrun |]. split; [exact Hpb |].
  by destruct (idle_session_is_empty trace st0 st Hwf Hidle Hrun).
Defined.

(** X6, at an input: frames of two samples; three samples, the timer of
    the first pass, then the stream is completed. *)
Lemma one_live_handler_witness :
  let st0 := set_bufferSize 2 (constructor 24000 true running 0) in
  let trace :=
    [(0, AddPCM16 ["001"; "000"; "002"; "000"; "003"; "000"]%byte true);
     (0.06, Timeout 0 true); (0.2, Complete)]%Q in
  wf st0 ∧ singleArmed st0
  ∧ ∃ st, run trace st0 = Some st
          ∧ endOfQueueAudioSource st = Some 1%nat ∧ singleArmed st.
Proof.
  intros st0 trace.
  assert (Hwf : wf st0)
    by (apply wf_set_bufferSize; [lia | by apply wf_constructor]).
  assert (Hone : singleArmed st0) by (by intros i n Hi).
  assert (Hrun : ∃ st, run trace st0 = Some st
                       ∧ endOfQueueAudioSource st = Some 1%nat).
  { eexists. split; evaluate. }
  destruct Hrun as (st & Hrun & Heoq).
  split; [exact Hwf |]. split; [exact Hone |].
  exists st. split; [exact Hrun |]. split; [exact Heoq |].
  exact (one_live_handler trace st0 st Hwf Hone Hrun).
Defined.

(** X7, at an input: a fresh session with frames of two samples gets an
    empty chunk, which begins playback with nothing to play and no timer;
    two samples that arrive later are queued and never played. *)
Lemma stalled_until_complete_or_stop_witness :
  let fresh := set_bufferSize 2 (constructor 24000 false running 0) in
  let st0 := set_isPlaying true (set_scheduledTime 0.1 fresh) in
  let trace :=
    [(1, AddPCM16 ["001"; "000"; "002"; "000"]%byte true); (2, Resume)]%Q in
  run [(0%Q, AddPCM16 [] true)] fresh = Some st0
  ∧ wf st0 ∧ stalled st0 ∧ noCompleteNoStop trace
  ∧ ∃ st, run trace st0 = Some st
          ∧ audioQueue st = [[normalize 1; normalize 2]]
          ∧ sourceNodes st = [] ∧ stalled st.
Proof.
  intros fresh st0 trace.
  assert (Hwf : wf st0)
    by (apply wf_set_bufferSize; [lia | by apply wf_constructor]).
  assert (Hstall : stalled st0) by (split; [reflexivity | constructor]).
  assert (Hno : noCompleteNoStop trace) by (by repeat constructor).
  assert (Hrun : ∃ st, run trace st0 = Some st
                       ∧ audioQueue st = [[normalize 1; normalize 2]]).
  { eexists. split; evaluate. }
  destruct Hrun as (st & Hrun & Hq).
  split; [evaluate |]. split; [exact Hwf |]. split; [exact Hstall |].
  split; [exact Hno |].
  exists st. split; [exact Hrun |]. split; [exact Hq |].
  destruct (stalled_until_complete_or_stop trace st0 st Hwf Hstall Hno Hrun)
    as [Hstall' Hnodes].
  split; [| exact Hstall']. by apply fmap_nil_inv in Hnodes.
Defined.

(** * The relay *)

Section RelayProperties.

Context {Message : Type}.

Implicit Types (r : Relay Message) (ws : WebSocket Message).
Implicit Types (trace : list (RelayEvent Message)) (msgs : list Message).

Lemma forEachSend_open msgs ws :
  readyState ws = OPEN →
  forEachSend msgs ws
  = inr (mkWebSocket OPEN (sent ws ++ msgs) (closeCalls ws)).
Proof.
  revert ws. induction msgs as [|msg rest IH]; intros ws Hopen; cbn.
  - rewrite app_nil_r. destruct ws. cbn in Hopen. by subst.
  - unfold send. rewrite Hopen. rewrite IH by reflexivity. cbn.
    by rewrite <- app_assoc.
Qed.

(** One event: no handler throws, and the messages handed to the target
    followed by the queue grow by the client's message. *)
Lemma relayDispatch_fifo (ev : RelayEvent Message) r res :
  queueInvariant r → relayDispatch ev r = Some res →
  ∃ r', res = inr r' ∧ queueInvariant r'
        ∧ sent (targetWs r') ++ pendingMessages r'
          = (sent (targetWs r) ++ pendingMessages r) ++ clientMessages [ev].
Proof.
  intros [Hconnecting Hopen]. unfold queueInvariant.
  destruct ev as [| data | | | data |]; cbn [relayDispatch clientMessages omap];
    rewrite ?app_nil_r.
  - destruct (decide _); [| done]. intros [= <-]. by eexists.
  - destruct (decide _); [| done]. intros [= <-]. unfold clientOnmessage.
    destruct (decide (readyState (targetWs r) = OPEN)) as [Ho | Hno].
    + unfold send. rewrite Ho. eexists. split; [reflexivity |]. cbn.
      split; [split; [done | by auto] |].
      by rewrite (Hopen Ho), !app_nil_r.
    + eexists. split; [reflexivity |]. cbn.
      split; [split; [done | by intros ?] |]. by rewrite app_assoc.
  - destruct (decide _); [done |]. intros [= <-]. unfold clientOnclose. cbn.
    destruct (decide (readyState (targetWs r) = OPEN)) as [Ho | Hno].
    + eexists. split; [reflexivity |]. unfold close. rewrite Ho. cbn.
      split; [by split |]. done.
    + eexists. split; [reflexivity |]. cbn. by split.
  - destruct (decide _) as [Hc |]; [| done]. intros [= <-].
    unfold targetOnopen. cbn.
    rewrite forEachSend_open by reflexivity. cbn.
    eexists. split; [reflexivity |]. cbn.
    split; [by split |]. by rewrite app_nil_r.
  - destruct (decide _); [| done]. intros [= <-]. unfold targetOnmessage.
    destruct (decide (readyState (clientWs r) = OPEN)) as [Ho | Hno].
    + unfold send. rewrite Ho. eexists. split; [reflexivity |]. by cbn.
    + eexists. by split.
  - destruct (decide _); [done |]. intros [= <-]. unfold targetOnclose. cbn.
    destruct (decide (readyState (clientWs r) = OPEN));
      eexists; (split; [reflexivity |]); cbn; by split.
Qed.

Lemma clientMessages_cons (ev : RelayEvent Message) trace :
  clientMessages (ev :: trace) = clientMessages [ev] ++ clientMessages trace.
Proof. unfold clientMessages. cbn. by destruct ev. Qed.

Lemma relayRun_fifo trace r res :
  queueInvariant r → relayRun trace r = Some res →
  ∃ r', res = inr r' ∧ queueInvariant r'
        ∧ sent (targetWs r') ++ pendingMessages r'
          = (sent (targetWs r) ++ pendingMessages r) ++ clientMessages trace.
Proof.
  revert r. induction trace as [|ev trace IH]; intros r Hinv; cbn [relayRun].
  - intros [= <-]. exists r. split; [done |]. split; [done |].
    by rewrite app_nil_r.
  - destruct (relayDispatch ev r) as [res1|] eqn:Hstep; [| done].
    destruct (relayDispatch_fifo ev r res1 Hinv Hstep)
      as (r1 & -> & Hinv1 & Hq1).
    intros Hrun. destruct (IH r1 Hinv1 Hrun) as (r' & -> & Hinv' & Hq').
    exists r'. split; [done |]. split; [done |].
    by rewrite Hq', Hq1, (clientMessages_cons ev trace), !app_assoc.
Qed.

(** X8.  Whatever the order of the sockets' events, no handler of the relay
    throws ([send] is never called on a connecting socket), and the
    messages handed to the target, followed by those still queued, are
    exactly the client's messages, in the order the client sent them:
    nothing is lost, duplicated or reordered.  While the target is open the
    queue is empty, so all of them have been handed over. *)
Theorem relay_keeps_client_order trace res :
  relayRun trace newRelay = Some res →
  ∃ r, res = inr r
       ∧ sent (targetWs r) ++ pendingMessages r = clientMessages trace
       ∧ (readyState (targetWs r) = OPEN →
          sent (targetWs r) = clientMessages trace).
Proof.
  intros Hrun.
  destruct (relayRun_fifo trace newRelay res) as (r & -> & [_ Hopen] & Hq);
    [by split | exact Hrun |].
  change (sent (targetWs r) ++ pendingMessages r = clientMessages trace) in Hq.
  exists r. split; [done |]. split; [exact Hq |].
  intros Ho. rewrite <- Hq, (Hopen Ho). by rewrite app_nil_r.
Qed.

(** Once the client socket is closed, no event closes the target: the only
    [close] of the target is in the client's [onclose]. *)
Lemma relayRun_client_closed trace r r' :
  readyState (clientWs r) = CLOSED → relayRun trace r = Some (inr r') →
  readyState (clientWs r') = CLOSED
  ∧ closeCalls (targetWs r') = closeCalls (targetWs r).
Proof.
  revert r. induction trace as [|ev trace IH]; intros r Hclosed; cbn [relayRun].
  - by intros [= <-].
  - destruct (relayDispatch ev r) as [[e | r1]|] eqn:Hstep; [done | | done].
    intros Hrun.
    assert (H1 : readyState (clientWs r1) = CLOSED
                 ∧ closeCalls (targetWs r1) = closeCalls (targetWs r)).
    { revert Hstep.
      destruct ev as [| data | | | data |]; cbn [relayDispatch];
        rewrite ?Hclosed.
      - by destruct (decide _).
      - by destruct (decide _).
      - by destruct (decide _).
      - destruct (decide _); [| done]. unfold targetOnopen. cbn.
        rewrite forEachSend_open by reflexivity. by intros [= <-].
      - destruct (decide _); [| done]. unfold targetOnmessage.
        rewrite Hclosed. by intros [= <-].
      - destruct (decide _); [done |]. unfold targetOnclose. cbn.
        rewrite Hclosed. by intros [= <-]. }
    destruct H1 as [Hc1 Hn1].
    destruct (IH r1 Hc1 Hrun) as [Hc' Hn']. split; [done | congruence].
Qed.

(** While the target has not opened, the relay does not close it. *)
Lemma relayRun_target_unopened trace r r' :
  readyState (targetWs r) ≠ OPEN →
  Forall (λ ev, isTargetOpen ev = false) trace →
  relayRun trace r = Some (inr r') →
  readyState (targetWs r') ≠ OPEN
  ∧ closeCalls (targetWs r') = closeCalls (targetWs r).
Proof.
  revert r. induction trace as [|ev trace IH]; intros r Hno Hevs;
    cbn [relayRun].
  - by intros [= <-].
  - apply Forall_cons in Hevs as [Hev Hevs].
    destruct (relayDispatch ev r) as [[e | r1]|] eqn:Hstep; [done | | done].
    intros Hrun.
    assert (H1 : readyState (targetWs r1) ≠ OPEN
                 ∧ closeCalls (targetWs r1) = closeCalls (targetWs r)).
    { revert Hstep.
      destruct ev as [| data | | | data |]; try discriminate Hev;
        cbn [relayDispatch].
      - destruct (decide _); [| done]. by intros [= <-].
      - destruct (decide _); [| done]. unfold clientOnmessage.
        destruct (decide _); [done |]. by intros [= <-].
      - destruct (decide _); [done |]. unfold clientOnclose. cbn.
        destruct (decide _); [done |]. by intros [= <-].
      - by destruct (decide _).
      - destruct (decide _); [done |]. unfold targetOnclose. cbn.
        destruct (decide _); by intros [= <-]. }
    destruct H1 as [Hno1 Hn1].
    destruct (IH r1 Hno1 Hevs Hrun) as [Hno' Hn']. split; [done | congruence].
Qed.

(** X9.  When the client's socket closes before the target has opened, the
    relay never closes the target: not at the client's close, where the
    target is not open, and not later, whatever follows, the target's
    [open] included. *)
Theorem relay_leaves_target_open (before after : list (RelayEvent Message))
    (r : Relay Message) :
  Forall (λ ev, isTargetOpen ev = false) before →
  relayRun (before ++ ClientClose :: after) newRelay = Some (inr r) →
  closeCalls (targetWs r) = 0%nat.
Proof.
  intros Hbefore Hrun.
  assert (Hsplit : ∀ (l1 l2 : list (RelayEvent Message)) r0 r2,
            relayRun (l1 ++ l2) r0 = Some (inr r2) →
            ∃ r1, relayRun l1 r0 = Some (inr r1)
                  ∧ relayRun l2 r1 = Some (inr r2)).
  { induction l1 as [|ev l1 IH]; intros l2 r0 r2; cbn [app relayRun].
    - intros H. by exists r0.
    - destruct (relayDispatch ev r0) as [[e | r1]|]; [done | | done].
      apply IH. }
  destruct (Hsplit _ _ _ _ Hrun) as (r1 & Hrun1 & Hrun2).
  destruct (relayRun_target_unopened before newRelay r1) as [Hno1 Hn1];
    [done | exact Hbefore | exact Hrun1 |].
  cbn [relayRun relayDispatch] in Hrun2.
  destruct (decide (readyState (clientWs r1) = CLOSED)) as [|_]; [done |].
  unfold clientOnclose in Hrun2. cbn in Hrun2.
  destruct (decide (readyState (targetWs r1) = OPEN)) as [|_]; [done |].
  set (r2 := setClientState CLOSED r1) in Hrun2.
  destruct (relayRun_client_closed after r2 r eq_refl Hrun2) as [_ Hn].
  rewrite Hn. exact Hn1.
Qed.

End RelayProperties.

(** X8, at an input: two messages before the target opens, one after. *)
Lemma relay_keeps_client_order_witness :
  let trace :=
    [ClientOpen; ClientMessage 1%nat; ClientMessage 2%nat; TargetOpen;
     ClientMessage 3%nat; TargetMessage 7%nat; ClientClose] in
  ∃ r, relayRun trace newRelay = Some (inr r)
       ∧ sent (clientWs r) = [7%nat]
       ∧ sent (targetWs r) ++ pendingMessages r = [1; 2; 3]%nat.
Proof.
  intros trace.
  assert (Hrun : ∃ r, relayRun trace newRelay = Some (inr r)
                      ∧ sent (clientWs r) = [7%nat]).
  { eexists. split; evaluate. }
  destruct Hrun as (r & Hrun & Hclient).
  exists r. split; [exact Hrun |]. split; [exact Hclient |].
  destruct (relay_keeps_client_order trace _ Hrun) as (r' & Heq & Hq & _).
  injection Heq as <-. exact Hq.
Defined.

(** X9, at an input: the client sends a message and goes away, then the
    target opens and gets the message. *)
Lemma relay_leaves_target_open_witness :
  let before := [ClientOpen; ClientMessage 1%nat] in
  let after := [TargetOpen; TargetMessage 5%nat] in
  Forall (λ ev, isTargetOpen ev = false) before
  ∧ ∃ r, relayRun (before ++ ClientClose :: after) newRelay = Some (inr r)
         ∧ readyState (targetWs r) = OPEN
         ∧ sent (targetWs r) = [1%nat]
         ∧ closeCalls (targetWs r) = 0%nat.
Proof.
  intros before after.
  assert (Hbefore : Forall (λ ev : RelayEvent nat, isTargetOpen ev = false)
                      before)
    by (by repeat constructor).
  assert (Hrun : ∃ r, relayRun (before ++ ClientClose :: after) newRelay
                      = Some (inr r)
                      ∧ readyState (targetWs r) = OPEN
                      ∧ sent (targetWs r) = [1%nat]).
  { eexists. split; [evaluate |]. split; evaluate. }
  destruct Hrun as (r & Hrun & Hopen & Hsent).
  split; [exact Hbefore |].
  exists r. split; [exact Hrun |]. split; [exact Hopen |].
  split; [exact Hsent |].
  exact (relay_leaves_target_open before after r Hbefore Hrun).
Defined.

(** * Static files *)

Section StaticFiles.

Lemma split_nonempty (separator : ascii) (s : string) :
  split separator s ≠ [].
Proof.
  destruct s as [|c s]; cbn; [done |].
  destruct (decide _); [done |]. by destruct (split separator s).
Qed.

Lemma split_app (separator : ascii) (s t : string) :
  split separator (s +:+ String separator t)
  = split separator s ++ split separator t.
Proof.
  induction s as [|c s IH].
  - change (split separator (String separator t)
            = EmptyString :: split separator t).
    cbn. by destruct (decide (separator = separator)).
  - change (split separator (String c (s +:+ String separator t))
            = split separator (String c s) ++ split separator t).
    cbn. destruct (decide (c = separator)); [by rewrite IH |].
    rewrite IH. pose proof (split_nonempty separator s).
    by destruct (split separator s).
Qed.

Lemma split_none (separator : ascii) (s : string) :
  contains separator s = false → split separator s = [s].
Proof.
  induction s as [|c s IH]; cbn; [done |].
  intros [Hc Hs]%orb_false_iff. apply bool_decide_eq_false in Hc.
  destruct (decide _); [done |]. by rewrite IH.
Qed.

(** The extension is the lower-cased text behind the last dot. *)
Lemma extension_app (path ext : string) :
  contains "." ext = false →
  extension (path +:+ String "." ext) = toLowerCase ext.
Proof.
  intros Hext. unfold extension.
  rewrite split_app, (split_none _ ext Hext), last_snoc. reflexivity.
Qed.

Lemma toLowerCaseAscii_idemp (c : ascii) :
  toLowerCaseAscii (toLowerCaseAscii c) = toLowerCaseAscii c.
Proof.
  destruct c as [[] [] [] [] [] [] [] []]; vm_compute; reflexivity.
Qed.

Lemma toLowerCase_idemp (s : string) :
  toLowerCase (toLowerCase s) = toLowerCase s.
Proof.
  induction s as [|c s IH]; cbn; [done |].
  by rewrite toLowerCaseAscii_idemp, IH.
Qed.

Lemma extension_lower (path : string) :
  toLowerCase (extension path) = extension path.
Proof.
  unfold extension. destruct (last _); cbn; [apply toLowerCase_idemp | done].
Qed.

(** X10.  The content type depends only on the text behind the last dot of
    the path, and not on the case of its letters: two paths whose last
    segments are equal up to case get the same type. *)
Theorem getContentType_extension (path path' ext ext' : string) :
  contains "." ext = false → contains "." ext' = false →
  toLowerCase ext = toLowerCase ext' →
  getContentType (path +:+ String "." ext)
  = getContentType (path' +:+ String "." ext').
Proof.
  intros Hext Hext' Hsame. unfold getContentType.
  by rewrite !extension_app, Hsame.
Qed.

(** X11.  The content type is a string, one of the eight of the table or
    [text/plain], except for the one all-lower-case name that the table
    inherits from [Object.prototype] on the server: for the extension
    [constructor] the lookup gives the inherited function, and only for
    it.  (The extension [__proto__] gets [text/plain]: the server's
    [Object.prototype] has no such member.) *)
Theorem getContentType_inherited (path : string) :
  match getContentType path with
  | JSString s =>
      s ∈ "text/plain"%string :: (snd <$> ownTypes)
      ∧ extension path ≠ "constructor"%string
      ∧ (extension path = "__proto__"%string → s = "text/plain"%string)
  | Inherited name =>
      name = extension path ∧ name = "constructor"%string
  end.
Proof.
  unfold getContentType, types.
  pose proof (extension_lower path) as Hlower.
  destruct (assoc (extension path) ownTypes) as [v|] eqn:Hown.
  - cbn. revert Hown. cbn.
    repeat (destruct (decide _) as [<- | _];
            [intros [= <-]; split; [set_solver | done] |]).
    done.
  - destruct (decide (extension path ∈ denoObjectPrototype)) as [Hin | Hnot].
    + cbn. split; [reflexivity |].
      unfold denoObjectPrototype in Hin.
      repeat (apply elem_of_cons in Hin as [Hin | Hin];
              [first [exact Hin
                     | rewrite Hin in Hlower; by vm_compute in Hlower] |]).
      by apply elem_of_nil in Hin.
    + cbn. split; [set_solver |].
      split; [intros Heq; apply Hnot; rewrite Heq; set_solver | done].
Qed.

(** X12.  [handleRequest] answers with status 101, 200, 404 or 500, never
    with the 400 of [handleWebSocket], whose header test it has already
    made; it sets up a relay exactly when it answers 101, which needs the
    header [Upgrade: websocket] in exactly this spelling; and every other
    answer carries a content type with the charset. *)
Theorem handleRequest_status (host : Host) (request : Request)
    (response : Response) (relay : option (string * Relay string)) :
  handleRequest host request = Responds response relay →
  status response ∈ [101; 200; 404; 500]%nat
  ∧ (is_Some relay ↔ status response = 101%nat)
  ∧ (status response = 101%nat →
     upgradeHeader request = Some "websocket"%string)
  ∧ (status response ≠ 101%nat →
     ∃ type, headers response !! 0%nat
             = Some ("content-type", type +:+ ";charset=UTF-8")%string).
Proof.
  unfold handleRequest, handleWebSocket.
  destruct (url request) as [[pathname search]|].
  - destruct (decide (upgradeHeader request = Some "websocket"%string))
      as [Hup | Hno].
    + destruct (upgradeOk host); [| done]. intros [= <- <-]. cbn.
      split; [set_solver |]. split; [by split |]. split; [done |]. done.
    + cbn zeta. destruct (readFile host _); intros [= <- <-]; cbn.
      * split; [set_solver |]. split; [split; [by intros [? ?] | done] |].
        split; [done |]. intros _. by eexists.
      * split; [set_solver |]. split; [split; [by intros [? ?] | done] |].
        split; [done |]. intros _. by exists "text/plain"%string.
  - intros [= <- <-]. cbn.
    split; [set_solver |]. split; [split; [by intros [? ?] | done] |].
    split; [done |]. intros _. by exists "text/plain"%string.
Qed.

End StaticFiles.

(** X10, at an input. *)
Lemma getContentType_extension_witness :
  getContentType ("/static/App" +:+ String "." "JS")
  = getContentType ("/x" +:+ String "." "js")
  ∧ getContentType ("/x" +:+ String "." "js")
    = JSString "application/javascript".
Proof.
  split; [| reflexivity].
  apply getContentType_extension; reflexivity.
Defined.

(** X12, at an input: the root path, with the index file in place. *)
Lemma handleRequest_status_witness :
  let host :=
    mkHost "/srv"
      (λ filePath,
         if decide (filePath = "/srv/src/static/index.html"%string)
         then Some [] else None)
      true in
  let request := mkRequest None (Some ("/", "")%string) in
  ∃ response,
    handleRequest host request = Responds response None
    ∧ status response = 200%nat
    ∧ headers response !! 0%nat
      = Some ("content-type", "text/html;charset=UTF-8")%string
    ∧ status response ∈ [101; 200; 404; 500]%nat.
Proof.
  intros host request.
  assert (Hrun : ∃ response,
            handleRequest host request = Responds response None
            ∧ status response = 200%nat
            ∧ headers response !! 0%nat
              = Some ("content-type", "text/html;charset=UTF-8")%string).
  { eexists. split; [evaluate |]. split; evaluate. }
  destruct Hrun as (response & Hrun & Hstatus & Hheader).
  exists response. split; [exact Hrun |]. split; [exact Hstatus |].
  split; [exact Hheader |].
  by destruct (handleRequest_status host request response None Hrun).
Defined.

(** * The recorder *)

Section Base64.

Lemma triples_ind {A : Type} (P : list A → Prop) :
  P [] → (∀ a, P [a]) → (∀ a b, P [a; b]) →
  (∀ a b c l, P l → P (a :: b :: c :: l)) → ∀ l, P l.
Proof.
  intros Hnil Hone Htwo Hstep l.
  assert (H : P l ∧ (∀ a, P (a :: l)) ∧ ∀ a b, P (a :: b :: l)).
  { induction l as [|c l (IH1 & IH2 & IH3)]; repeat split; auto. }
  apply H.
Qed.

Lemma base64Char_indexOf (i : Z) :
  (0 ≤ i < 64)%Z →
  Recorder.indexOf (Recorder.base64Char i) Recorder.alphabet = i
  ∧ Recorder.base64Char i ≠ "="%char.
Proof.
  intros Hi.
  assert (H : ∀ n, (n < 64)%nat →
              Recorder.indexOf (Recorder.base64Char (Z.of_nat n))
                Recorder.alphabet = Z.of_nat n
              ∧ Recorder.base64Char (Z.of_nat n) ≠ "="%char).
  { intros n Hn.
    do 64 (destruct n as [|n]; [split; [vm_compute; reflexivity |];
                                vm_compute; discriminate |]).
    lia. }
  rewrite <- (Z2Nat.id i) by lia. apply H. lia.
Qed.

Lemma encode_length (codes : list Z) :
  String.length (Recorder.encode codes)
  = (4 * ((length codes + 2) / 3))%nat.
Proof.
  induction codes as [| a | a b | a b c l IH] using triples_ind;
    [reflexivity .. |].
  cbn [Recorder.encode String.length length]. rewrite IH.
  replace (S (S (S (length l))) + 2)%nat with (1 * 3 + (length l + 2))%nat
    by lia.
  rewrite Nat.div_add_l by lia. lia.
Qed.

Lemma decode_encode (codes : list Z) :
  Forall (λ code, 0 ≤ code < 256)%Z codes →
  ∀ fuel, (length codes < fuel)%nat →
          Recorder.decode fuel (Recorder.encode codes) = codes.
Proof.
  assert (Hindex : ∀ i, (0 ≤ i < 64)%Z →
            Recorder.indexOf (Recorder.base64Char i) Recorder.alphabet = i)
    by (intros i Hi; by destruct (base64Char_indexOf i Hi)).
  assert (Hpad : ∀ i, (0 ≤ i < 64)%Z → Recorder.base64Char i ≠ "="%char)
    by (intros i Hi; by destruct (base64Char_indexOf i Hi)).
  induction codes as [| a | a b | a b c l IH] using triples_ind;
    intros Hcodes fuel Hfuel.
  - by destruct fuel.
  - apply Forall_cons in Hcodes as [Ha _].
    destruct fuel as [|fuel]; [cbn in Hfuel; lia |].
    cbn [Recorder.encode Recorder.decode].
    destruct (decide ("="%char = "="%char)); [| done].
    rewrite !Hindex by (Z.div_mod_to_equations; lia).
    f_equal. Z.div_mod_to_equations; lia.
  - apply Forall_cons in Hcodes as [Ha Hcodes].
    apply Forall_cons in Hcodes as [Hb _].
    destruct fuel as [|fuel]; [cbn in Hfuel; lia |].
    cbn [Recorder.encode Recorder.decode].
    destruct (decide (Recorder.base64Char (b mod 16 * 4) = "="%char))
      as [Heq |_];
      [exfalso; revert Heq; apply Hpad; Z.div_mod_to_equations; lia |].
    destruct (decide ("="%char = "="%char)); [| done].
    rewrite !Hindex by (Z.div_mod_to_equations; lia).
    f_equal; [| f_equal]; Z.div_mod_to_equations; lia.
  - apply Forall_cons in Hcodes as [Ha Hcodes].
    apply Forall_cons in Hcodes as [Hb Hcodes].
    apply Forall_cons in Hcodes as [Hc Hcodes].
    destruct fuel as [|fuel]; [cbn in Hfuel; lia |].
    cbn [Recorder.encode Recorder.decode].
    destruct (decide (Recorder.base64Char (b mod 16 * 4 + c / 64) = "="%char))
      as [Heq |_];
      [exfalso; revert Heq; apply Hpad; Z.div_mod_to_equations; lia |].
    destruct (decide (Recorder.base64Char (c mod 64) = "="%char))
      as [Heq |_];
      [exfalso; revert Heq; apply Hpad; Z.div_mod_to_equations; lia |].
    rewrite !Hindex by (Z.div_mod_to_equations; lia).
    rewrite IH; [| exact Hcodes | cbn in Hfuel; lia].
    f_equal; [| f_equal; [| f_equal]]; Z.div_mod_to_equations; lia.
Qed.

Lemma btoa_bytes (buffer : Uint8Array) :
  Recorder.btoa (byteZ <$> buffer) = inr (Recorder.encode (byteZ <$> buffer)).
Proof.
  unfold Recorder.btoa.
  replace (forallb _ _) with true; [reflexivity |].
  symmetry. apply forallb_forall. intros code Hin.
  apply in_map_iff in Hin as (b & <- & _).
  pose proof (byteZ_range b). apply Z.leb_le. lia.
Qed.

Lemma arrayBufferToBase64_encode (buffer : Uint8Array) :
  Recorder.arrayBufferToBase64 buffer
  = inr (Recorder.encode (byteZ <$> buffer)).
Proof.
  unfold Recorder.arrayBufferToBase64. cbn zeta. by rewrite btoa_bytes.
Qed.

(** X13.  [arrayBufferToBase64] never throws: every character it hands to
    [btoa] has a code below 256, so the [catch] of lines 189-196 is never
    entered.  The text it returns has four characters for every three bytes
    of the buffer, the last group filled up. *)
Theorem arrayBufferToBase64_total (buffer : Uint8Array) :
  ∃ base64,
    Recorder.arrayBufferToBase64 buffer = inr base64
    ∧ String.length base64 = (4 * ((length buffer + 2) / 3))%nat.
Proof.
  exists (Recorder.encode (byteZ <$> buffer)).
  split; [apply arrayBufferToBase64_encode |].
  by rewrite encode_length, length_fmap.
Qed.

(** X14.  The text [arrayBufferToBase64] returns holds the whole buffer:
    decoding it gives back the bytes, each as its value, in order. *)
Theorem arrayBufferToBase64_decode (buffer : Uint8Array) :
  ∃ base64,
    Recorder.arrayBufferToBase64 buffer = inr base64
    ∧ Recorder.decode (S (length buffer)) base64 = byteZ <$> buffer.
Proof.
  exists (Recorder.encode (byteZ <$> buffer)).
  split; [apply arrayBufferToBase64_encode |]. apply decode_encode.
  - apply Forall_fmap, Forall_forall. intros b _. apply byteZ_range.
  - rewrite length_fmap. lia.
Qed.

End Base64.

Section RecorderProperties.

(** X15.  [stop] does not cancel a [start] that is under way.  Called
    between the parts of [start], while [isRecording] is still false, it
    returns at once: the microphone stream that [start] has obtained stays
    live, and when the worklet module has loaded the recorder records, as
    if [stop] had not been called. *)
Theorem stop_does_not_cancel_start (callback : nat) (ok1 ok2 startOk : bool)
    (r : Recorder.AudioRecorder) :
  Recorder.isRecording r = false →
  ∃ r',
    Recorder.run
      [Recorder.StartCall callback; Recorder.Stop ok1;
       Recorder.MicrophoneSettled true true; Recorder.Stop ok2;
       Recorder.ModuleSettled true true startOk] r = Some r'
    ∧ Recorder.run
        [Recorder.StartCall callback; Recorder.MicrophoneSettled true true;
         Recorder.ModuleSettled true true startOk] r = Some r'
    ∧ Recorder.isRecording r' = true
    ∧ Recorder.stream r' = Some (length (Recorder.streams r))
    ∧ Recorder.streams r' !! length (Recorder.streams r) = Some true.
Proof.
  intros Hidle.
  set (r1 := Recorder.startCall callback r).
  set (r2 := Recorder.after (Recorder.microphoneSettled true true r1)).
  set (r3 := Recorder.after (Recorder.moduleSettled true true startOk r2)).
  assert (Hstop : ∀ ok r0, Recorder.isRecording r0 = false →
            Recorder.dispatch (Recorder.Stop ok) r0
            = Some (Recorder.Ok r0)).
  { intros ok r0 H. cbn [Recorder.dispatch]. unfold Recorder.stop.
    by rewrite H. }
  assert (Hmic : Recorder.dispatch (Recorder.MicrophoneSettled true true) r1
                 = Some (Recorder.microphoneSettled true true r1))
    by reflexivity.
  assert (Hmod : Recorder.dispatch
                   (Recorder.ModuleSettled true true startOk) r2
                 = Some (Recorder.moduleSettled true true startOk r2))
    by reflexivity.
  assert (Hidle1 : Recorder.isRecording r1 = false) by exact Hidle.
  assert (Hidle2 : Recorder.isRecording r2 = false) by exact Hidle.
  exists r3. split; [| split].
  - cbn [Recorder.run].
    change (Recorder.dispatch (Recorder.StartCall callback) r)
      with (Some (Recorder.Ok r1)).
    cbn [Recorder.after]. rewrite (Hstop ok1 r1 Hidle1).
    cbn [Recorder.after]. rewrite Hmic. fold r2.
    rewrite (Hstop ok2 r2 Hidle2). cbn [Recorder.after]. rewrite Hmod.
    reflexivity.
  - cbn [Recorder.run].
    change (Recorder.dispatch (Recorder.StartCall callback) r)
      with (Some (Recorder.Ok r1)).
    cbn [Recorder.after]. rewrite Hmic. fold r2. rewrite Hmod. reflexivity.
  - assert (Hlast : (Recorder.streams r ++ [true])
                      !! length (Recorder.streams r) = Some true)
      by (by rewrite lookup_app_r, Nat.sub_diag by lia).
    subst r3. unfold Recorder.moduleSettled.
    cbn [Recorder.recognition Recorder.set_awaitingModule
         Recorder.set_processor Recorder.set_processors
         Recorder.set_isRecording].
    change (Recorder.recognition r2) with (Recorder.recognition r).
    destruct (Recorder.recognition r); [destruct startOk |];
      (split; [reflexivity |]); (split; [reflexivity | exact Hlast]).
Qed.

(** A live stream that the recorder no longer holds. *)
Lemma dispatch_orphaned (ev : Recorder.Event) (r : Recorder.AudioRecorder)
    (res : Recorder.Result) (s : nat) :
  Recorder.streams r !! s = Some true → Recorder.stream r ≠ Some s →
  Recorder.dispatch ev r = Some res →
  Recorder.streams (Recorder.after res) !! s = Some true
  ∧ Recorder.stream (Recorder.after res) ≠ Some s.
Proof.
  intros Hlive Hother.
  destruct ev as [callback | granted contextOk | loaded nodeOk startOk | stopOk
                 | node eventName buffer]; cbn [Recorder.dispatch].
  - by intros [= <-].
  - destruct (_ <? _)%nat; [| done]. intros [= <-].
    unfold Recorder.microphoneSettled.
    destruct granted; [destruct contextOk |]; cbn; [| | done];
      (split; [by apply lookup_app_l_Some |]);
      apply lookup_lt_Some in Hlive; intros [= Heq]; lia.
  - destruct (_ <? _)%nat; [| done]. intros [= <-].
    unfold Recorder.moduleSettled.
    destruct loaded; [destruct nodeOk |]; cbn; [| done | done].
    destruct (Recorder.recognition r); [destruct startOk |]; done.
  - intros [= <-]. unfold Recorder.stop.
    destruct (Recorder.isRecording r); cbn; [| done].
    destruct (Recorder.stream r) as [current|] eqn:Hcurrent; cbn.
    + assert (Hkept : <[current := false]> (Recorder.streams r) !! s
                      = Some true)
        by (rewrite list_lookup_insert_ne; [done | congruence]).
      destruct (Recorder.recognition r); [destruct stopOk |]; done.
    + destruct (Recorder.recognition r); [destruct stopOk |]; cbn;
        by rewrite ?Hcurrent.
  - destruct (_ <? _)%nat; [| done]. intros [= <-].
    unfold Recorder.onmessage.
    destruct (Recorder.onAudioData r); [| done].
    destruct (_ && _); [| done].
    by destruct (Recorder.arrayBufferToBase64 buffer).
Qed.

(** X16.  The recorder stops only the stream it holds.  When the
    microphone is granted to a [start] while the recorder still holds a
    live stream of an earlier [start] (one that failed later on, or one
    that was not stopped), the earlier stream is dropped without being
    stopped, and nothing the recorder does afterwards stops it: it is live
    after every further sequence of events. *)
Theorem earlier_stream_never_stopped (trace : list Recorder.Event)
    (contextOk : bool) (r r' : Recorder.AudioRecorder) (s : nat) :
  Recorder.stream r = Some s → Recorder.streams r !! s = Some true →
  Recorder.run (Recorder.MicrophoneSettled true contextOk :: trace) r
  = Some r' →
  Recorder.streams r' !! s = Some true ∧ Recorder.stream r' ≠ Some s.
Proof.
  intros Hheld Hlive. cbn [Recorder.run Recorder.dispatch].
  destruct (_ <? _)%nat; [| done].
  set (r1 := Recorder.after (Recorder.microphoneSettled true contextOk r)).
  assert (H1 : Recorder.streams r1 !! s = Some true
               ∧ Recorder.stream r1 ≠ Some s).
  { subst r1. unfold Recorder.microphoneSettled.
    destruct contextOk; cbn; (split; [by apply lookup_app_l_Some |]);
      apply lookup_lt_Some in Hlive; intros [= Heq]; lia. }
  clearbody r1. revert r1 H1.
  induction trace as [|ev trace IH]; intros r1 [Hlive1 Hother1];
    cbn [Recorder.run].
  - by intros [= <-].
  - destruct (Recorder.dispatch ev r1) as [res|] eqn:Hstep; [| done].
    apply IH. by apply (dispatch_orphaned ev r1).
Qed.

(** X17.  When the engine's [start] throws at the end of [start], the
    promise is rejected with the engine's error, but [isRecording] is
    already true and the node's port already has its handler: the next
    chunk of the node is encoded and handed to the callback. *)
Theorem start_rejected_but_recording (callback : nat) (buffer : Uint8Array)
    (r : Recorder.AudioRecorder) :
  Recorder.recognition r = true → Recorder.onAudioData r = Some callback →
  ∃ r' base64,
    Recorder.moduleSettled true true false r
    = Recorder.Err Recorder.RecognitionError r'
    ∧ Recorder.isRecording r' = true
    ∧ Recorder.arrayBufferToBase64 buffer = inr base64
    ∧ Recorder.dispatch (Recorder.Message (Recorder.processors r) "chunk"
                           buffer) r'
      = Some (Recorder.Ok
                (Recorder.set_delivered
                   (Recorder.delivered r ++ [(callback, base64)]) r')).
Proof.
  intros Hengine Hcallback.
  pose proof (arrayBufferToBase64_encode buffer) as Hencode.
  set (base64 := Recorder.encode (byteZ <$> buffer)) in Hencode.
  set (r' := Recorder.after (Recorder.moduleSettled true true false r)).
  assert (Hrun : Recorder.moduleSettled true true false r
                 = Recorder.Err Recorder.RecognitionError r').
  { subst r'. unfold Recorder.moduleSettled. cbn. by rewrite Hengine. }
  assert (Hfields : Recorder.isRecording r' = true
                    ∧ Recorder.onAudioData r' = Some callback
                    ∧ Recorder.processors r' = S (Recorder.processors r)
                    ∧ Recorder.delivered r' = Recorder.delivered r).
  { subst r'. unfold Recorder.moduleSettled. cbn. rewrite Hengine. cbn.
    by rewrite Hcallback. }
  destruct Hfields as (Hrec & Hcb & Hnodes & Hdelivered).
  exists r', base64. split; [exact Hrun |]. split; [exact Hrec |].
  split; [exact Hencode |].
  cbn [Recorder.dispatch]. rewrite Hnodes.
  rewrite (proj2 (Nat.ltb_lt _ _)) by lia.
  unfold Recorder.onmessage.
  rewrite Hcb, Hrec, Hencode, Hdelivered. reflexivity.
Qed.

End RecorderProperties.

(** X15, at an input: a new recorder. *)
Lemma stop_does_not_cancel_start_witness :
  let r := Recorder.constructor 16000 true in
  Recorder.isRecording r = false
  ∧ ∃ r',
      Recorder.run
        [Recorder.StartCall 0; Recorder.Stop true;
         Recorder.MicrophoneSettled true true; Recorder.Stop true;
         Recorder.ModuleSettled true true true] r = Some r'
      ∧ Recorder.isRecording r' = true
      ∧ Recorder.streams r' = [true].
Proof.
  intros r. split; [reflexivity |].
  destruct (stop_does_not_cancel_start 0 true true true r eq_refl)
    as (r' & Hrun & _ & Hrec & _).
  exists r'. split; [exact Hrun |]. split; [exact Hrec |].
  revert Hrun. vm_compute. by intros [= <-].
Defined.

(** X16, at an input: a [start] whose module load fails, then a second
    [start] that succeeds, then [stop]: the first stream is still live. *)
Lemma earlier_stream_never_stopped_witness :
  let r0 := Recorder.constructor 16000 true in
  let trace := [Recorder.ModuleSettled true true true; Recorder.Stop true] in
  ∃ r r',
    Recorder.run
      [Recorder.StartCall 0; Recorder.MicrophoneSettled true true;
       Recorder.ModuleSettled false true true; Recorder.StartCall 1] r0
    = Some r
    ∧ Recorder.stream r = Some 0%nat
    ∧ Recorder.streams r !! 0%nat = Some true
    ∧ Recorder.run (Recorder.MicrophoneSettled true true :: trace) r = Some r'
    ∧ Recorder.isRecording r' = false
    ∧ Recorder.streams r' !! 0%nat = Some true.
Proof.
  intros r0 trace.
  assert (Hrun : ∃ r r',
            Recorder.run
              [Recorder.StartCall 0; Recorder.MicrophoneSettled true true;
               Recorder.ModuleSettled false true true; Recorder.StartCall 1]
              r0 = Some r
            ∧ Recorder.stream r = Some 0%nat
            ∧ Recorder.streams r !! 0%nat = Some true
            ∧ Recorder.run (Recorder.MicrophoneSettled true true :: trace) r
              = Some r'
            ∧ Recorder.isRecording r' = false).
  { eexists _, _. do 4 (split; [evaluate |]). evaluate. }
  destruct Hrun as (r & r' & Hrun0 & Hheld & Hlive & Hrun & Hrec).
  exists r, r'. do 5 (split; [assumption |]).
  by destruct (earlier_stream_never_stopped trace true r r' 0 Hheld Hlive Hrun).
Defined.

(** X17, at an input: three bytes. *)
Lemma start_rejected_but_recording_witness :
  let r :=
    Recorder.after
      (Recorder.microphoneSettled true true
         (Recorder.startCall 5 (Recorder.constructor 16000 true))) in
  Recorder.recognition r = true ∧ Recorder.onAudioData r = Some 5%nat
  ∧ ∃ r',
      Recorder.moduleSettled true true false r
      = Recorder.Err Recorder.RecognitionError r'
      ∧ Recorder.dispatch
          (Recorder.Message 0 "chunk" ["001"; "002"; "003"]%byte) r'
        = Some (Recorder.Ok
                  (Recorder.set_delivered [(5%nat, "AQID"%string)] r')).
Proof.
  intros r. split; [reflexivity |]. split; [reflexivity |].
  destruct (start_rejected_but_recording 5 ["001"; "002"; "003"]%byte r
              eq_refl eq_refl)
    as (r' & base64 & Hrun & _ & Hencode & Hmessage).
  exists r'. split; [exact Hrun |].
  assert (Hbase64 : base64 = "AQID"%string).
  { revert Hencode. vm_compute. by intros [= <-]. }
  subst base64. exact Hmessage.
Defined.

(** * The worklet registry *)

Section WorkletRegistry.

Implicit Types (w : Worklets) (entry : WorkletEntry).

Lemma workletEntry_set (c c' : nat) (n n' : string) entry w :
  workletEntry c n (set_workletEntry c' n' entry w)
  = if decide (c = c' ∧ n = n') then Some entry else workletEntry c n w.
Proof.
  unfold workletEntry, set_workletEntry. cbn.
  destruct (decide (c = c')) as [-> | Hc].
  - rewrite lookup_insert_eq. cbn.
    destruct (decide (n = n')) as [-> | Hn].
    + rewrite lookup_insert_eq. by rewrite decide_True.
    + rewrite lookup_insert_ne by done.
      rewrite decide_False by (by intros [_ ?]).
      by destruct (registeredWorklets w !! c').
  - rewrite lookup_insert_ne by done.
    by rewrite decide_False by (by intros [? _]).
Qed.

Lemma workletEntry_registry (c : nat) (n : string) w' w :
  registeredWorklets w' = registeredWorklets w →
  workletEntry c n w' = workletEntry c n w.
Proof. unfold workletEntry. by intros ->. Qed.

(** No event removes an entry or changes its first handler. *)
Lemma workletDispatch_entries (ev : WorkletEvent) w w' (c : nat) (n : string)
    entry :
  workletDispatch ev w = Some w' → workletEntry c n w = Some entry →
  ∃ entry', workletEntry c n w' = Some entry'
            ∧ ∀ h, head (handlers entry) = Some h →
                   head (handlers entry') = Some h.
Proof.
  intros Hstep Hentry.
  destruct ev as [s c0 n0 src h0 | i loaded nodeOk | p];
    cbn [workletDispatch] in Hstep.
  - unfold addWorklet in Hstep.
    destruct (decide (n0 ∈ objectPrototype)); [done |].
    destruct (workletEntry c0 n0 w) as [entry0|] eqn:Hentry0;
      injection Hstep as <-.
    + rewrite workletEntry_set.
      destruct (decide (c = c0 ∧ n = n0)) as [[-> ->] | _].
      * eexists. split; [reflexivity |]. cbn. intros h Hh.
        rewrite Hentry in Hentry0. injection Hentry0 as ->.
        by destruct (handlers entry0).
      * by exists entry.
    + exists entry. split; [| done].
      change (workletEntry c n
                (set_workletEntry c0 n0 (mkWorkletEntry [h0] None) w)
              = Some entry).
      rewrite workletEntry_set.
      destruct (decide (c = c0 ∧ n = n0)) as [[-> ->] | _]; [| done].
      congruence.
  - unfold workletSettled in Hstep.
    destruct (pendingWorklets w !! i) as [call|]; [| done].
    destruct (loaded && nodeOk); injection Hstep as <-; [| by exists entry].
    cbn [registeredWorklets processor ports moduleLoads pendingWorklets
         handlerCalls].
    set (w0 := mkWorklets _ _ _ _ (delete i _) _).
    assert (Hw0 : ∀ c1 n1, workletEntry c1 n1 w0 = workletEntry c1 n1 w)
      by done.
    rewrite Hw0.
    destruct (workletEntry (pendingContext call) (pendingName call) w)
      as [entry0|] eqn:Hentry0.
    + erewrite (workletEntry_registry c n _
                  (set_workletEntry (pendingContext call) (pendingName call)
                     _ w)) by reflexivity.
      rewrite workletEntry_set.
      destruct (decide (c = pendingContext call ∧ n = pendingName call))
        as [[-> ->] | _]; [| by exists entry].
      eexists. split; [reflexivity |]. cbn. congruence.
    + exists entry. split; [| done].
      by rewrite (workletEntry_registry c n _ w).
  - unfold portMessage in Hstep.
    destruct (ports w !! p) as [closure|]; [| done].
    destruct (closureHandler closure), (processor w !! closureStreamer closure);
      injection Hstep as <-; by exists entry.
Qed.

(** An event starts at most one load, and only for a context and a name
    that have no entry yet. *)
Lemma workletDispatch_loads (ev : WorkletEvent) w w' :
  workletDispatch ev w = Some w' →
  moduleLoads w' = moduleLoads w
  ∨ ∃ c n path,
      moduleLoads w' = moduleLoads w ++ [(c, n, path)]
      ∧ workletEntry c n w = None ∧ is_Some (workletEntry c n w').
Proof.
  intros Hstep.
  destruct ev as [s c0 n0 src h0 | i loaded nodeOk | p];
    cbn [workletDispatch] in Hstep.
  - unfold addWorklet in Hstep.
    destruct (decide (n0 ∈ objectPrototype)); [done |].
    destruct (workletEntry c0 n0 w) as [entry0|] eqn:Hentry0;
      injection Hstep as <-; [by left |].
    right. exists c0, n0, ("/" +:+ src). split; [reflexivity |].
    split; [exact Hentry0 |].
    change (is_Some (workletEntry c0 n0
                       (set_workletEntry c0 n0 (mkWorkletEntry [h0] None) w))).
    rewrite workletEntry_set. by rewrite decide_True.
  - unfold workletSettled in Hstep.
    destruct (pendingWorklets w !! i) as [call|]; [| done].
    destruct (loaded && nodeOk); injection Hstep as <-; [| by left].
    left. cbn.
    by destruct (workletEntry (pendingContext call) (pendingName call) _).
  - unfold portMessage in Hstep.
    destruct (ports w !! p) as [closure|]; [| done].
    destruct (closureHandler closure), (processor w !! closureStreamer closure);
      injection Hstep as <-; by left.
Qed.

Lemma workletDispatch_loadedOnce (ev : WorkletEvent) w w' :
  workletDispatch ev w = Some w' → loadedOnce w → loadedOnce w'.
Proof.
  intros Hstep [Hnodup Hentries].
  assert (Hkept : ∀ load, load ∈ moduleLoads w →
                          is_Some (workletEntry load.1.1 load.1.2 w')).
  { intros load Hin. destruct (Hentries load Hin) as [entry Hentry].
    destruct (workletDispatch_entries ev w w' _ _ entry Hstep Hentry)
      as (entry' & Hentry' & _).
    by exists entry'. }
  destruct (workletDispatch_loads ev w w' Hstep)
    as [Hsame | (c & n & path & Hmore & Hnone & Hnew)].
  - split; rewrite Hsame; done.
  - split; rewrite Hmore.
    + rewrite fmap_app. apply NoDup_app. split; [exact Hnodup |].
      split; [| apply NoDup_singleton].
      intros key Hold Hkey. cbn in Hkey. apply list_elem_of_singleton in Hkey.
      subst key. apply list_elem_of_fmap in Hold as (load & Hkey & Hin).
      destruct (Hentries load Hin) as [entry Hentry].
      injection Hkey as Hc Hn. rewrite <- Hc, <- Hn in Hentry. congruence.
    + intros load [Hin | Hin]%elem_of_app; [by apply Hkept |].
      apply list_elem_of_singleton in Hin. by subst load.
Qed.

(** X18.  A worklet module is loaded at most once for a context and a
    worklet name, whether the load succeeds or fails: the entry is made
    before the load begins and is never removed, so every later call for
    the same context and name finds it, adds its handler and is done
    without loading.  A failed load is therefore never tried again. *)
Theorem module_loaded_at_most_once (trace : list WorkletEvent) (w : Worklets) :
  workletRun trace noWorklets = Some w →
  NoDup ((λ load, (load.1.1, load.1.2)) <$> moduleLoads w)
  ∧ ∀ load, load ∈ moduleLoads w →
            is_Some (workletEntry load.1.1 load.1.2 w).
Proof.
  assert (Hrun : ∀ w0, loadedOnce w0 → workletRun trace w0 = Some w →
                       loadedOnce w).
  { induction trace as [|ev trace IH]; intros w0 Hinv; cbn [workletRun].
    - by intros [= <-].
    - destruct (workletDispatch ev w0) as [w1|] eqn:Hstep; [| done].
      apply IH. by apply (workletDispatch_loadedOnce ev w0). }
  apply Hrun. split; [constructor | by intros load Hin%elem_of_nil].
Qed.

(** An entry other than the one an event writes stays as it is. *)
Lemma workletEntry_set_ne (c c' : nat) (n n' : string) entry w :
  (c, n) ≠ (c', n') →
  workletEntry c n (set_workletEntry c' n' entry w) = workletEntry c n w.
Proof.
  intros Hne. rewrite workletEntry_set.
  destruct (decide (c = c' ∧ n = n')) as [[-> ->] | _]; done.
Qed.

Lemma workletEntry_set_eq (c : nat) (n : string) entry w :
  workletEntry c n (set_workletEntry c n entry w) = Some entry.
Proof. rewrite workletEntry_set. by rewrite decide_True. Qed.

(** The keys of the calls that wait besides the [i]-th differ from its
    key. *)
Lemma pending_key_unique (pending : list PendingWorklet) (i : nat)
    (call call' : PendingWorklet) :
  NoDup ((λ call, (pendingContext call, pendingName call)) <$> pending) →
  pending !! i = Some call → call' ∈ delete i pending →
  (pendingContext call', pendingName call')
  ≠ (pendingContext call, pendingName call).
Proof.
  intros Hnodup Hcall Hin Heq.
  rewrite <- (take_drop_middle pending i call Hcall) in Hnodup.
  rewrite delete_take_drop in Hin.
  rewrite fmap_app, fmap_cons in Hnodup.
  apply NoDup_app in Hnodup as (_ & Hfront & Hback).
  apply NoDup_cons in Hback as [Hback _].
  apply elem_of_app in Hin as [Hin | Hin].
  - apply (Hfront (pendingContext call, pendingName call)).
    + rewrite <- Heq. apply list_elem_of_fmap. by exists call'.
    + apply list_elem_of_here.
  - apply Hback. rewrite <- Heq. apply list_elem_of_fmap. by exists call'.
Qed.

Lemma workletDispatch_invariant (ev : WorkletEvent) w w' :
  registryInvariant w → workletDispatch ev w = Some w' →
  registryInvariant w'.
Proof.
  intros (Hpending & Hnodup & Hports & Hcalled) Hstep.
  (* Every entry of [w] is still there in [w'], with the same node and the
     same first handler: this carries the invariant over. *)
  assert (Hcarry : ∀ pending' ports' calls',
            pendingWorklets w' = pending' → ports w' = ports' →
            handlerCalls w' = calls' →
            (∀ c nm entry,
               workletEntry c nm w = Some entry →
               (∃ call, call ∈ pending'
                        ∧ (pendingContext call, pendingName call) = (c, nm))
               ∨ node entry ≠ None →
               ∃ entry', workletEntry c nm w' = Some entry'
                         ∧ node entry' = node entry
                         ∧ ∀ h, head (handlers entry) = Some h →
                                head (handlers entry') = Some h) →
            (∀ call, call ∈ pending' →
               call ∈ pendingWorklets w
               ∨ ∃ entry,
                   workletEntry (pendingContext call) (pendingName call) w'
                   = Some entry
                   ∧ head (handlers entry) = Some (pendingHandler call)
                   ∧ node entry = None) →
            NoDup ((λ call, (pendingContext call, pendingName call))
                     <$> pending') →
            (∀ n closure, ports' !! n = Some closure →
               ports w !! n = Some closure
               ∨ ∃ c nm entry,
                   workletEntry c nm w' = Some entry
                   ∧ node entry = Some n
                   ∧ head (handlers entry) = Some (closureHandler closure)) →
            (∀ handler port n, (handler, port, n) ∈ calls' →
               (handler, port, n) ∈ handlerCalls w
               ∨ ∃ closure, ports w !! n = Some closure
                            ∧ closureHandler closure = Some handler) →
            registryInvariant w').
  { intros pending' ports' calls' Hp Hq Hr Hkeep Hpending1 Hnodup1 Hports1
      Hcalled1.
    assert (Hports' : ∀ n closure, ports w !! n = Some closure →
              ∃ c nm entry,
                workletEntry c nm w' = Some entry
                ∧ node entry = Some n
                ∧ head (handlers entry) = Some (closureHandler closure)).
    { intros n closure Hn.
      destruct (Hports n closure Hn) as (c & nm & entry & He & Hnode & Hh).
      destruct (Hkeep c nm entry He) as (entry' & He' & Hnode' & Hh');
        [right; by rewrite Hnode |].
      exists c, nm, entry'. split; [exact He' |].
      split; [by rewrite Hnode' | by apply Hh']. }
    unfold registryInvariant. rewrite Hp, Hq, Hr.
    split; [| split; [exact Hnodup1 | split]].
    - intros call Hin. destruct (Hpending1 call Hin) as [Hold | Hnew];
        [| exact Hnew].
      destruct (Hpending call Hold) as (entry & He & Hh & Hnode).
      destruct (Hkeep _ _ entry He) as (entry' & He' & Hnode' & Hh');
        [left; by exists call |].
      exists entry'. split; [exact He' |].
      split; [by apply Hh' | by rewrite Hnode']. 
    - intros n closure Hn.
      destruct (Hports1 n closure Hn) as [Hold | Hnew];
        [by apply Hports' | exact Hnew].
    - intros handler port n Hin.
      destruct (Hcalled1 handler port n Hin)
        as [Hold | (closure & Hclosure & Hsame)].
      + destruct (Hcalled handler port n Hold)
          as (c & nm & entry & He & Hnode & Hh).
        destruct (Hkeep c nm entry He) as (entry' & He' & Hnode' & Hh');
          [right; by rewrite Hnode |].
        exists c, nm, entry'. split; [exact He' |].
        split; [by rewrite Hnode' | by apply Hh'].
      + destruct (Hports' n closure Hclosure)
          as (c & nm & entry & He & Hnode & Hh).
        exists c, nm, entry. by rewrite <- Hsame. }
  destruct ev as [s c0 n0 src h0 | i loaded nodeOk | p];
    cbn [workletDispatch] in Hstep.
  - unfold addWorklet in Hstep.
    destruct (decide (n0 ∈ objectPrototype)); [done |].
    destruct (workletEntry c0 n0 w) as [entry0|] eqn:Hentry0;
      injection Hstep as Hw'.
    + apply (Hcarry (pendingWorklets w) (ports w) (handlerCalls w));
        [by rewrite <- Hw' .. | | by left | exact Hnodup | by left | by left].
      intros c nm entry He _. rewrite <- Hw'.
      destruct (decide ((c, nm) = (c0, n0))) as [[= -> ->] | Hne].
      * rewrite workletEntry_set_eq. eexists. split; [reflexivity |].
        rewrite He in Hentry0. injection Hentry0 as <-. cbn.
        split; [reflexivity |]. intros h Hh. by destruct (handlers entry).
      * rewrite workletEntry_set_ne by exact Hne. by exists entry.
    + assert (Hreg : ∀ c nm,
                workletEntry c nm w'
                = workletEntry c nm
                    (set_workletEntry c0 n0 (mkWorkletEntry [h0] None) w))
        by (intros c nm; by rewrite <- Hw').
      apply (Hcarry
               (pendingWorklets w ++ [mkPendingWorklet s c0 n0 h0])
               (ports w) (handlerCalls w));
        [by rewrite <- Hw' .. | | | | by left | by left].
      * intros c nm entry He _. rewrite Hreg.
        rewrite workletEntry_set_ne by congruence. by exists entry.
      * intros call [Hin | Hin]%elem_of_app; [by left |].
        apply list_elem_of_singleton in Hin. subst call. right.
        exists (mkWorkletEntry [h0] None). cbn.
        by rewrite Hreg, workletEntry_set_eq.
      * rewrite fmap_app. apply NoDup_app. split; [exact Hnodup |].
        split; [| apply NoDup_singleton].
        intros key Hold Hkey. cbn in Hkey.
        apply list_elem_of_singleton in Hkey. subst key.
        apply list_elem_of_fmap in Hold as (call & Hkey & Hin).
        destruct (Hpending call Hin) as (entry & He & _).
        injection Hkey as Hc Hn. rewrite <- Hc, <- Hn in He. congruence.
  - unfold workletSettled in Hstep.
    destruct (pendingWorklets w !! i) as [call|] eqn:Hcall; [| done].
    assert (Hdeleted : ∀ call', call' ∈ delete i (pendingWorklets w) →
                                call' ∈ pendingWorklets w).
    { intros call'. apply list_elem_of_delete_inv. }
    assert (Hnodup' : NoDup ((λ call, (pendingContext call, pendingName call))
                               <$> delete i (pendingWorklets w))).
    { eapply sublist_NoDup; [exact Hnodup |].
      apply fmap_sublist, sublist_delete. }
    pose proof (list_elem_of_lookup_2 _ _ _ Hcall) as Hcall_in.
    destruct (Hpending call Hcall_in) as (entry0 & Hentry0 & Hhead0 & Hnode0).
    destruct (loaded && nodeOk); injection Hstep as Hw'.
    + assert (Hreg : ∀ c nm,
                workletEntry c nm w'
                = workletEntry c nm
                    (set_workletEntry (pendingContext call) (pendingName call)
                       (mkWorkletEntry (handlers entry0)
                          (Some (length (ports w)))) w)).
      { intros c nm. rewrite <- Hw'. cbn.
        erewrite (workletEntry_registry (pendingContext call)
                    (pendingName call) _ w) by reflexivity.
        rewrite Hentry0. by apply workletEntry_registry. }
      apply (Hcarry (delete i (pendingWorklets w))
               (ports w ++ [mkPortClosure (pendingStreamer call)
                              (pendingHandler call)])
               (handlerCalls w)).
      * rewrite <- Hw'. cbn.
        by destruct (workletEntry (pendingContext call) (pendingName call) _).
      * rewrite <- Hw'. cbn.
        by destruct (workletEntry (pendingContext call) (pendingName call) _).
      * rewrite <- Hw'. cbn.
        by destruct (workletEntry (pendingContext call) (pendingName call) _).
      * intros c nm entry He Hwhy. rewrite Hreg.
        rewrite workletEntry_set_ne; [by exists entry |].
        intros [= -> ->]. rewrite He in Hentry0. injection Hentry0 as ->.
        destruct Hwhy as [(call' & Hin' & Hkey') | Hhas]; [| done].
        by apply (pending_key_unique _ i call call' Hnodup Hcall Hin').
      * intros call' Hin. left. by apply Hdeleted.
      * exact Hnodup'.
      * intros n closure [Hn | [Hlen Hn]]%lookup_app_Some; [by left |].
        right. destruct (n - length (ports w))%nat eqn:Hdiff; [| done].
        injection Hn as <-. cbn.
        exists (pendingContext call), (pendingName call).
        eexists. rewrite Hreg, workletEntry_set_eq.
        split; [reflexivity |]. cbn. split; [f_equal; lia | exact Hhead0].
      * by left.
    + apply (Hcarry (delete i (pendingWorklets w)) (ports w)
               (handlerCalls w));
        [by rewrite <- Hw' .. | | | exact Hnodup' | by left | by left].
      * intros c nm entry He _. rewrite <- Hw'.
        erewrite (workletEntry_registry c nm _ w) by reflexivity.
        by exists entry.
      * intros call' Hin. left. by apply Hdeleted.
  - unfold portMessage in Hstep.
    destruct (ports w !! p) as [closure|] eqn:Hclosure; [| done].
    assert (Hsame : ∀ w1, registeredWorklets w1 = registeredWorklets w →
              ∀ c nm entry, workletEntry c nm w = Some entry →
              ∃ entry', workletEntry c nm w1 = Some entry'
                        ∧ node entry' = node entry
                        ∧ ∀ h, head (handlers entry) = Some h →
                               head (handlers entry') = Some h).
    { intros w1 Hw1 c nm entry He. exists entry.
      by rewrite (workletEntry_registry c nm w1 w Hw1). }
    destruct (closureHandler closure) as [h|] eqn:Hh;
      [destruct (processor w !! closureStreamer closure) as [port|] |];
      injection Hstep as Hw'.
    + apply (Hcarry (pendingWorklets w) (ports w)
               (handlerCalls w ++ [(h, port, p)]));
        [by rewrite <- Hw' .. | | by left | exact Hnodup | by left |].
      * intros c nm entry He _. apply Hsame; [by rewrite <- Hw' | exact He].
      * intros handler port' n [Hin | Hin]%elem_of_app; [by left |].
        apply list_elem_of_singleton in Hin. injection Hin as -> -> ->.
        right. by exists closure.
    + apply (Hcarry (pendingWorklets w) (ports w) (handlerCalls w));
        [by rewrite <- Hw' .. | | by left | exact Hnodup | by left | by left].
      intros c nm entry He _. apply Hsame; [by rewrite <- Hw' | exact He].
    + apply (Hcarry (pendingWorklets w) (ports w) (handlerCalls w));
        [by rewrite <- Hw' .. | | by left | exact Hnodup | by left | by left].
      intros c nm entry He _. apply Hsame; [by rewrite <- Hw' | exact He].
Qed.

(** X19.  Of the handlers given to [addWorklet] for a context and a
    worklet name, only the first can ever be called by that worklet's
    node: every call a node's port makes is of the first handler of the
    entry that holds this node, the handler of the call that made the
    entry and loaded the module.  The handlers that later calls add to the
    entry's list are kept there, and the entry's node never calls them. *)
Theorem only_first_handler_called (trace : list WorkletEvent) (w : Worklets)
    (handler port n : nat) :
  workletRun trace noWorklets = Some w →
  (handler, port, n) ∈ handlerCalls w →
  ∃ context workletName entry later,
    workletEntry context workletName w = Some entry
    ∧ node entry = Some n
    ∧ handlers entry = Some handler :: later.
Proof.
  intros Hrun Hin.
  assert (Hinv : registryInvariant w).
  { revert Hrun.
    assert (H0 : registryInvariant noWorklets).
    { split; [by intros x Hx%elem_of_nil |]. split; [constructor |].
      split; [by intros n0 closure Hn0 | by intros h p n0 Hx%elem_of_nil]. }
    revert H0. generalize noWorklets.
    induction trace as [|ev trace IH]; intros w0 Hinv; cbn [workletRun].
    - by intros [= <-].
    - destruct (workletDispatch ev w0) as [w1|] eqn:Hstep; [| done].
      apply IH. by apply (workletDispatch_invariant ev w0). }
  destruct Hinv as (_ & _ & _ & Hcalled).
  destruct (Hcalled _ _ _ Hin) as (c & nm & entry & He & Hnode & Hh).
  exists c, nm, entry. destruct (handlers entry) as [|first later]; [done |].
  exists later. split; [exact He |]. split; [exact Hnode |].
  cbn in Hh. congruence.
Qed.

End WorkletRegistry.

(** X18, at an input: a load fails, and the next call for the same name
    is done without a load. *)
Lemma module_loaded_at_most_once_witness :
  let trace :=
    [AddWorklet 0 0 "vumeter" "js/vumeter.js" (Some 1%nat);
     WorkletModuleSettled 0 false true;
     AddWorklet 0 0 "vumeter" "js/vumeter.js" (Some 2%nat)]%string in
  ∃ w, workletRun trace noWorklets = Some w
       ∧ moduleLoads w = [(0%nat, "vumeter", "/js/vumeter.js")]%string
       ∧ pendingWorklets w = [] ∧ ports w = []
       ∧ is_Some (workletEntry 0 "vumeter" w).
Proof.
  intros trace.
  assert (Hrun : ∃ w, workletRun trace noWorklets = Some w
                      ∧ moduleLoads w
                        = [(0%nat, "vumeter", "/js/vumeter.js")]%string
                      ∧ pendingWorklets w = [] ∧ ports w = []).
  { eexists. do 3 (split; [evaluate |]). evaluate. }
  destruct Hrun as (w & Hrun & Hloads & Hpending & Hports).
  exists w. do 4 (split; [assumption |]).
  destruct (module_loaded_at_most_once trace w Hrun) as [_ Hentries].
  apply (Hentries (0%nat, "vumeter", "/js/vumeter.js")%string).
  rewrite Hloads. apply list_elem_of_here.
Defined.

(** X19, at an input: two calls for one name, then a message of the
    node: the first handler is called. *)
Lemma only_first_handler_called_witness :
  let trace :=
    [AddWorklet 0 0 "vumeter" "js/vumeter.js" (Some 1%nat);
     AddWorklet 0 0 "vumeter" "js/vumeter.js" (Some 2%nat);
     WorkletModuleSettled 0 true true; PortMessage 0]%string in
  ∃ w, workletRun trace noWorklets = Some w
       ∧ handlerCalls w = [(1%nat, 0%nat, 0%nat)]
       ∧ ∃ context workletName entry later,
           workletEntry context workletName w = Some entry
           ∧ node entry = Some 0%nat
           ∧ handlers entry = Some 1%nat :: later.
Proof.
  intros trace.
  assert (Hrun : ∃ w, workletRun trace noWorklets = Some w
                      ∧ handlerCalls w = [(1%nat, 0%nat, 0%nat)]).
  { eexists. split; evaluate. }
  destruct Hrun as (w & Hrun & Hcalls).
  exists w. split; [exact Hrun |]. split; [exact Hcalls |].
  apply (only_first_handler_called trace w 1 0 0 Hrun).
  rewrite Hcalls. apply list_elem_of_here.
Defined.
